(** * Orchestration layer of the Square extension agents

    A shallow embedding of the workflow runner
    ([AgentCoordinatorEnhanced.executeEnhancedWorkflow]), of the bulk
    executor ([BulkOperationManager] / [BulkOperation]) and of the agent
    registry ([AgentFactory]), with the properties the specification
    states about them.

    Conventions of the embedding:
    - a JavaScript [Map<string, T>] whose iteration order is never
      observed is a [gmap string T]; the registry cache, which is
      iterated, is an association list in insertion order;
    - an [async] agent operation is a function of the external world
      [W] returning how its promise settles together with the new world;
    - a thrown value is represented by the text that
      [error instanceof Error ? error.message : String(error)] yields;
    - code between two [await]s is atomic; what other code may do at an
      [await] is an explicit input (a cancel schedule, an event list);
    - a value of type [number] that the program computes with is an
      integer, a fraction, [NaN] or an infinity, and its sums are
      exact (see [Bulk.Number]); [Date.now()] is an observation of the
      world, which returns the time and the world after the reading. *)

From stdpp Require Import gmap strings list fin_maps pretty.
From Stdlib Require Import ZArith QArith Lia.

Close Scope Q_scope.
Open Scope string_scope.

Set Warnings "-register-all".

(** Splits the conjunctions that are written in the goal, without
    unfolding definitions. *)
Ltac conjs := repeat match goal with |- _ ∧ _ => split end.

(** ** Values and results shared by the executors *)

(** Values of type [any]: task data, bulk items, result payloads. *)
Inductive Value : Type :=
| VUndefined
| VNull
| VBool (b : bool)
| VNum (n : Z)
| VStr (s : string)
| VArr (elems : list Value)
| VObj (fields : list (string * Value)).

(** [AgentResult] of [types.ts], restricted to the fields the
    orchestration layer reads or writes. *)
Record AgentResult : Type := mkResult {
  success : bool;
  message : option string;
  error : option string;
  data : option Value
}.

(** How the promise of an agent operation settles. *)
Inductive Settled : Type :=
| Fulfilled (value : AgentResult)
| Rejected (reason : string).

(** [{ success: false, error: msg }] *)
Definition failure (msg : string) : AgentResult :=
  {| success := false; message := None; error := Some msg; data := None |}.

(** [results.filter(r => r.success).length] *)
Definition successes (rs : list AgentResult) : nat :=
  length (filter (λ r, success r = true) rs).

(** ** The workflow runner *)

Module Workflow.

Section Coordinator.

(** The external world the agents act on (the page, the network). *)
Context {W : Type}.

(** An agent of [this.agents : Map<string, any>]: a method name and an
    argument give an asynchronous operation.  Calling a method the
    object does not have is a [Rejected] outcome (the [TypeError]
    raised by the call). *)
Definition Agent : Type := string → Value → W → Settled * W.

Variable agents : gmap string Agent.

Record Operation : Type := mkOperation {
  op_type : string;
  op_data : Value
}.

Definition executeSEOOperation (operation : Operation) (w : W) : Settled * W :=
  match agents !! "seo" with
  | None =>
      (Fulfilled (failure "Enhanced SEO agent not available for current page"), w)
  | Some seoAgent =>
      if String.eqb (op_type operation) "optimize" then
        seoAgent "optimizeSEO" (op_data operation) w
      else if String.eqb (op_type operation) "validate" then
        seoAgent "validateSEOFields" (op_data operation) w
      else if String.eqb (op_type operation) "bulk-update" then
        seoAgent "bulkUpdateSEO" (op_data operation) w
      else if String.eqb (op_type operation) "extract" then
        seoAgent "extractSEOData" (op_data operation) w
      else
        (Fulfilled (failure ("Unknown SEO operation: " +:+ op_type operation)), w)
  end.

Definition executeNavigationOperation (operation : Operation) (w : W) : Settled * W :=
  match agents !! "navigation" with
  | None =>
      (Fulfilled (failure "Enhanced Navigation agent not available"), w)
  | Some navAgent =>
      if String.eqb (op_type operation) "navigate" then
        navAgent "navigateToPage" (op_data operation) w
      else if String.eqb (op_type operation) "search" then
        navAgent "performSearch" (op_data operation) w
      else if String.eqb (op_type operation) "validate" then
        navAgent "validatePageLoad" (op_data operation) w
      else if String.eqb (op_type operation) "extract-results" then
        navAgent "extractSearchResults" (op_data operation) w
      else
        (Fulfilled (failure ("Unknown navigation operation: " +:+ op_type operation)), w)
  end.

Definition executeCatalogOperation (operation : Operation) (w : W) : Settled * W :=
  match agents !! "catalog" with
  | None =>
      (Fulfilled (failure "Enhanced Catalog agent not available"), w)
  | Some catalogAgent =>
      if String.eqb (op_type operation) "sync" then
        catalogAgent "synchronizeCatalog" (op_data operation) w
      else if String.eqb (op_type operation) "inventory" then
        catalogAgent "updateInventory" (op_data operation) w
      else if String.eqb (op_type operation) "pricing" then
        catalogAgent "updatePricing" (op_data operation) w
      else if String.eqb (op_type operation) "extract" then
        catalogAgent "extractCatalogData" (op_data operation) w
      else
        (Fulfilled (failure ("Unknown catalog operation: " +:+ op_type operation)), w)
  end.

(** A workflow step.  [dependsOn] is [None] when the property is
    absent; an absent [critical] is [false]. *)
Record Step : Type := mkStep {
  agentType : string;
  operation : string;
  step_data : Value;
  dependsOn : option (list string);
  critical : bool
}.

Record WorkflowDef : Type := mkWorkflow {
  name : string;
  steps : list Step
}.

(** The [switch (step.agentType)] of the loop body. *)
Definition dispatch (step : Step) (w : W) : Settled * W :=
  let request := {| op_type := operation step; op_data := step_data step |} in
  if String.eqb (agentType step) "seo" then executeSEOOperation request w
  else if String.eqb (agentType step) "navigation" then executeNavigationOperation request w
  else if String.eqb (agentType step) "catalog" then executeCatalogOperation request w
  else (Fulfilled (failure ("Unknown agent type: " +:+ agentType step)), w).

(** The variables of one run: the [results] array, the [stepResults]
    map and the world, with two ghost logs: the steps the loop body was
    entered for, and the steps handed to [dispatch]. *)
Record RunState : Type := mkRun {
  results : list AgentResult;
  stepResults : gmap string AgentResult;
  world : W;
  attempted : list Step;
  dispatched : list Step
}.

Definition initial (w : W) : RunState :=
  {| results := []; stepResults := ∅; world := w;
     attempted := []; dispatched := [] |}.

(** How one iteration leaves the loop body. *)
Inductive Control : Type :=
| Next
| Break
| Raise (e : string).

(** [stepResults.has(dep) && stepResults.get(dep)?.success] for every
    [dep]. *)
Definition dependenciesMet (deps : list string) (known : gmap string AgentResult) : bool :=
  forallb (λ dep, match known !! dep with
                  | Some r => success r
                  | None => false
                  end) deps.

(** The step is refused by the dependency check. *)
Definition blocked (step : Step) (known : gmap string AgentResult) : bool :=
  match dependsOn step with
  | Some deps => negb (dependenciesMet deps known)
  | None => false
  end.

Definition failedResult (step : Step) : AgentResult :=
  {| success := false;
     message := None;
     error := Some ("Dependencies not met for step: " +:+ operation step);
     data := Some (step_data step) |}.

(** [results.push(r); stepResults.set(step.operation, r)] *)
Definition record (step : Step) (r : AgentResult) (w : W) (sent : bool) (st : RunState) : RunState :=
  {| results := results st ++ [r];
     stepResults := <[operation step := r]> (stepResults st);
     world := w;
     attempted := attempted st ++ [step];
     dispatched := if sent then dispatched st ++ [step] else dispatched st |}.

(** One iteration of [for (const step of workflow.steps)]. *)
Definition exec_step (step : Step) (st : RunState) : RunState * Control :=
  if blocked step (stepResults st) then
    (record step (failedResult step) (world st) false st,
     if critical step then Break else Next)
  else
    match dispatch step (world st) with
    | (Rejected e, w') =>
        ({| results := results st;
            stepResults := stepResults st;
            world := w';
            attempted := attempted st ++ [step];
            dispatched := dispatched st ++ [step] |},
         Raise e)
    | (Fulfilled result, w') =>
        (record step result w' true st,
         if negb (success result) && critical step then Break else Next)
    end.

(** The loop.  It ends with [Next] when every step was visited, with
    [Break] when a [break] left it, with [Raise e] when an exception
    did. *)
Fixpoint run_steps (todo : list Step) (st : RunState) : RunState * Control :=
  match todo with
  | [] => (st, Next)
  | step :: rest =>
      match exec_step step st with
      | (st', Next) => run_steps rest st'
      | stopped => stopped
      end
  end.

Record WorkflowResult : Type := mkWorkflowResult {
  wf_success : bool;
  wf_results : list AgentResult;
  wf_message : string
}.

(** The value returned, given the state the loop ended in. *)
Definition conclude (workflow : WorkflowDef) (st : RunState) (exit : Control) : WorkflowResult :=
  match exit with
  | Raise e =>
      {| wf_success := false;
         wf_results := results st;
         wf_message := "Enhanced workflow '" +:+ name workflow +:+ "' failed: " +:+ e |}
  | _ =>
      let successCount := successes (results st) in
      let totalCount := length (results st) in
      {| wf_success := (0 <? successCount)%nat;
         wf_results := results st;
         wf_message := "Enhanced workflow '" +:+ name workflow +:+ "' completed: "
                       +:+ pretty successCount +:+ "/" +:+ pretty totalCount
                       +:+ " steps successful" |}
  end.

Definition run (workflow : WorkflowDef) (w : W) : RunState * Control :=
  run_steps (steps workflow) (initial w).

Definition executeEnhancedWorkflow (workflow : WorkflowDef) (w : W) : WorkflowResult :=
  let '(st, exit) := run workflow w in conclude workflow st exit.

End Coordinator.

End Workflow.

(** ** The bulk executor *)

Module Bulk.

(** *** Numbers

    [batchSize] and [delayBetweenBatches] are declared [number]: the
    loop of [execute] adds the batch size to its index and hands both
    to [slice].  A number is an integer, another finite value (a
    fraction), [NaN], [Infinity] or [-Infinity].  Sums are exact.  The
    doubles of the program round a sum only when it needs more than
    their 53 bits: never for an integer batch size as long as the index
    is a position of the array or the first index beyond it (below 0
    every batch but the first is empty, whatever the sums), nor for 2.5
    added to itself a few times, but possibly for other fractions.
    What is stated of every batch size therefore does not depend on the
    value of a sum, only on its not going back; what depends on it is
    stated of integers and infinities ([whole], below), or of given
    inputs. *)
Inductive Number : Type :=
| Int (z : Z)
| Frac (q : Q)
| NaN
| Infinity
| NegInfinity.

(** [x + y] *)
Definition add (x y : Number) : Number :=
  match x, y with
  | NaN, _ | _, NaN => NaN
  | Infinity, NegInfinity | NegInfinity, Infinity => NaN
  | Infinity, _ | _, Infinity => Infinity
  | NegInfinity, _ | _, NegInfinity => NegInfinity
  | Int a, Int b => Int (a + b)
  | Int a, Frac q => Frac (inject_Z a + q)
  | Frac p, Int b => Frac (p + inject_Z b)
  | Frac p, Frac q => Frac (p + q)
  end.

(** [x < len] for the length of an array; a comparison with [NaN] is
    false. *)
Definition lt_len (x : Number) (len : nat) : bool :=
  match x with
  | Int z => (z <? Z.of_nat len)%Z
  | Frac q => negb (Qle_bool (inject_Z (Z.of_nat len)) q)
  | NaN | Infinity => false
  | NegInfinity => true
  end.

(** The numbers that count as false in a condition: [0] and [NaN]. *)
Definition falsy (x : Number) : bool :=
  match x with
  | Int z => (z =? 0)%Z
  | Frac q => (Qnum q =? 0)%Z
  | NaN => true
  | Infinity | NegInfinity => false
  end.

(** [ToIntegerOrInfinity]: a finite number loses its fraction, toward
    zero; [NaN] becomes 0. *)
Definition toIntegerOrInfinity (x : Number) : Number :=
  match x with
  | Int z => Int z
  | Frac q => Int (Qnum q ÷ Z.pos (Qden q))
  | NaN => Int 0
  | Infinity => Infinity
  | NegInfinity => NegInfinity
  end.

(** The position that [slice] makes of an argument, in an array of
    length [len]: a negative index counts from the end, and the result
    is clamped to the array. *)
Definition relative (len : Z) (x : Number) : Z :=
  match toIntegerOrInfinity x with
  | Int t => if (t <? 0)%Z then Z.max (len + t) 0 else Z.min t len
  | NegInfinity => 0
  | _ => len
  end.

(** [Array.prototype.slice(from, to)] *)
Definition slice {A : Type} (l : list A) (from to : Number) : list A :=
  let len := Z.of_nat (length l) in
  let k := relative len from in
  let final := relative len to in
  take (Z.to_nat (final - k)) (drop (Z.to_nat k) l).

(** Reading a property such as [item.id] of a value that is neither
    [null] nor [undefined]; a value without the property reads as
    [undefined].  Only used with the keys ["id"], ["quantity"] and
    ["price"]. *)
Definition read_field (v : Value) (key : string) : Value :=
  match v with
  | VObj fields =>
      default VUndefined (snd <$> List.find (λ kv, String.eqb (fst kv) key) fields)
  | _ => VUndefined
  end.

(** The message of the [TypeError] raised when a property of [v] is
    read, if one is raised. *)
Definition nullish (v : Value) : option string :=
  match v with
  | VUndefined => Some "Cannot read properties of undefined (reading 'id')"
  | VNull => Some "Cannot read properties of null (reading 'id')"
  | _ => None
  end.

(** The argument object [processItem] builds for the agent. *)
Inductive Payload : Type :=
| SeoData (item : Value)            (* { seoData: item } *)
| Items (items : list Value)        (* { items: [item] } *)
| Quantities (key quantity : Value) (* { quantities: { [key]: quantity } } *)
| Prices (key price : Value).       (* { prices: { [key]: price } } *)

Inductive RunStatus : Type :=
| pending
| running
| completed
| failed
| cancelled.

Record BulkOperationStatus : Type := mkStatus {
  id : string;
  type : string;
  totalItems : nat;
  processedItems : nat;
  successCount : nat;
  failureCount : nat;
  status : RunStatus;
  startTime : Z;
  endTime : option Z
}.

Record BulkOperationResult : Type := mkBulkResult {
  res_success : bool;
  operationId : string;
  res_totalItems : nat;
  res_successCount : nat;
  res_failureCount : nat;
  res_results : list AgentResult;
  duration : Z
}.

Section Executor.

Context {W : Type}.

(** [Date.now()]: the time read, and the world after the reading. *)
Variable now : W → Z * W.

(** An agent of the shared [agents] map, as [processItem] uses it: a
    method name and the argument object give an asynchronous
    operation; a missing method is a [Rejected] outcome. *)
Definition Agent : Type := string → Payload → W → Settled * W.

Variable agents : gmap string Agent.

(** [None] is an absent property.  [onProgress] returns [Some e] when
    the callback throws [e]. *)
Record BulkOperationConfig : Type := mkConfig {
  cfg_type : string;
  agentType : string;
  items : list Value;
  batchSize : option Number;
  delayBetweenBatches : option Number;
  onProgress : option (BulkOperationStatus → W → option string * W)
}.

(** The fields of a [BulkOperation] object. *)
Record BulkOperation : Type := mkOperation {
  op_id : string;
  config : BulkOperationConfig;
  op_status : BulkOperationStatus;
  op_cancelled : bool;
  op_results : list AgentResult
}.

(** [new BulkOperation(id, config, agents)], in the world [w]; the
    world after it is [(now w).2]. *)
Definition create (ident : string) (cfg : BulkOperationConfig) (w : W) : BulkOperation :=
  {| op_id := ident;
     config := cfg;
     op_status := {| id := ident; type := cfg_type cfg;
                     totalItems := length (items cfg);
                     processedItems := 0; successCount := 0; failureCount := 0;
                     status := pending; startTime := (now w).1; endTime := None |};
     op_cancelled := false;
     op_results := [] |}.

Definition cancel (o : BulkOperation) : BulkOperation :=
  {| op_id := op_id o; config := config o; op_status := op_status o;
     op_cancelled := true; op_results := op_results o |}.

(** [{ ...this.status }]: the record is a value, so the copy is the
    record. *)
Definition getStatus (o : BulkOperation) : BulkOperationStatus := op_status o.

Definition isCompleted (o : BulkOperation) : bool :=
  match status (op_status o) with
  | completed | failed | cancelled => true
  | _ => false
  end.

(** [this.config.batchSize || 5] *)
Definition effectiveBatchSize (cfg : BulkOperationConfig) : Number :=
  match batchSize cfg with
  | Some b => if falsy b then Int 5 else b
  | None => Int 5
  end.

Definition processItem (cfg : BulkOperationConfig) (item : Value) (w : W) : Settled * W :=
  match agents !! agentType cfg with
  | None => (Rejected ("Agent not found: " +:+ agentType cfg), w)
  | Some agent =>
      if String.eqb (cfg_type cfg) "seo-bulk-update" then
        agent "handleSEOUpdate" (SeoData item) w
      else if String.eqb (cfg_type cfg) "catalog-bulk-sync" then
        agent "synchronizeCatalog" (Items [item]) w
      else if String.eqb (cfg_type cfg) "inventory-bulk-update" then
        match nullish item with
        | Some typeError => (Rejected typeError, w)
        | None =>
            agent "updateInventory"
              (Quantities (read_field item "id") (read_field item "quantity")) w
        end
      else if String.eqb (cfg_type cfg) "pricing-bulk-update" then
        match nullish item with
        | Some typeError => (Rejected typeError, w)
        | None =>
            agent "updatePricing"
              (Prices (read_field item "id") (read_field item "price")) w
        end
      else
        (Rejected ("Unknown bulk operation type: " +:+ cfg_type cfg), w)
  end.

(** [batch.map(item => this.processItem(item))] joined by
    [Promise.allSettled]: one outcome per item, in item order.  The
    operations of a batch run concurrently; their effects on the world
    are taken in item order. *)
Fixpoint settle_all (cfg : BulkOperationConfig) (batch : list Value) (w : W) : list Settled * W :=
  match batch with
  | [] => ([], w)
  | item :: rest =>
      let '(outcome, w1) := processItem cfg item w in
      let '(outcomes, w2) := settle_all cfg rest w1 in
      (outcome :: outcomes, w2)
  end.

(** What is observable of a run, in the order it happens; the first
    component is the number of the batch. *)
Inductive Event : Type :=
| Dispatched (batch : nat) (item : Value)
| SettledItem (batch : nat) (item : Value) (outcome : Settled)
| Progress (batch : nat) (snapshot : BulkOperationStatus)
| Delay (batch : nat) (ms : Number).

(** Where the suspended [execute] call stands: before the loop test
    with index [i] (batch number [k]), returned, or left by an
    exception. *)
Inductive Pc : Type :=
| AtLoopHead (i : Number) (k : nat)
| Returned
| Thrown (e : string).

(** One [execute] call: the object, its program point, and two ghost
    logs: the events so far and the batches launched so far. *)
Record Run : Type := mkRun {
  op : BulkOperation;
  pc : Pc;
  trace : list Event;
  launched : list (list Value)
}.

(** The result pushed for an item that did not succeed. *)
Definition synthesized (item : Value) (outcome : Settled) : AgentResult :=
  {| success := false;
     message := None;
     error := Some match outcome with
                   | Rejected reason => reason
                   | Fulfilled value => default "undefined" (error value)
                   end;
     data := Some (VObj [("item", item)]) |}.

Definition succeeded (outcome : Settled) : bool :=
  match outcome with
  | Fulfilled value => success value
  | Rejected _ => false
  end.

(** The counters and the result list after one settled item. *)
Definition tally (item : Value) (outcome : Settled) (o : BulkOperation) : BulkOperation :=
  let s := op_status o in
  let ok := succeeded outcome in
  {| op_id := op_id o;
     config := config o;
     op_status := {| id := id s; type := type s; totalItems := totalItems s;
                     processedItems := S (processedItems s);
                     successCount := if ok then S (successCount s) else successCount s;
                     failureCount := if ok then failureCount s else S (failureCount s);
                     status := status s; startTime := startTime s; endTime := endTime s |};
     op_cancelled := op_cancelled o;
     op_results := op_results o ++
                   [match outcome with
                    | Fulfilled value => if success value then value else synthesized item outcome
                    | Rejected _ => synthesized item outcome
                    end] |}.

(** [results.forEach((result, index) => ...)]: stops at the first
    callback that throws. *)
Fixpoint forEach (k : nat) (settled : list (Value * Settled)) (r : Run) (w : W)
  : Run * W * option string :=
  match settled with
  | [] => (r, w, None)
  | (item, outcome) :: rest =>
      let o := tally item outcome (op r) in
      match onProgress (config o) with
      | None =>
          forEach k rest
            {| op := o; pc := pc r; trace := trace r; launched := launched r |} w
      | Some callback =>
          let r' := {| op := o; pc := pc r;
                       trace := trace r ++ [Progress k (getStatus o)];
                       launched := launched r |} in
          match callback (getStatus o) w with
          | (Some e, w') => (r', w', Some e)
          | (None, w') => forEach k rest r' w'
          end
      end
  end.

Definition processBatch (k : nat) (batch : list Value) (r : Run) (w : W)
  : Run * W * option string :=
  let '(outcomes, w') := settle_all (config (op r)) batch w in
  let settled := zip batch outcomes in
  forEach k settled
    {| op := op r; pc := pc r;
       trace := trace r ++ (Dispatched k <$> batch)
                        ++ (uncurry (SettledItem k) <$> settled);
       launched := launched r ++ [batch] |} w'.

Definition set_status (st : RunStatus) (finished : option Z) (o : BulkOperation) : BulkOperation :=
  let s := op_status o in
  {| op_id := op_id o;
     config := config o;
     op_status := {| id := id s; type := type s; totalItems := totalItems s;
                     processedItems := processedItems s;
                     successCount := successCount s;
                     failureCount := failureCount s;
                     status := st; startTime := startTime s;
                     endTime := match finished with Some t => Some t | None => endTime s end |};
     op_cancelled := op_cancelled o;
     op_results := op_results o |}.

(** The statements after the loop, in the world [w]; the world after
    them is [(now w).2]. *)
Definition finish (r : Run) (w : W) : Run :=
  {| op := set_status (if op_cancelled (op r) then cancelled else completed)
                      (Some (now w).1) (op r);
     pc := Returned; trace := trace r; launched := launched r |}.

(** [this.status.status = 'running'; this.status.startTime = Date.now()],
    in the world [w]; the world after them is [(now w).2]. *)
Definition start (o : BulkOperation) (w : W) : Run :=
  let s := op_status o in
  {| op := {| op_id := op_id o; config := config o;
              op_status := {| id := id s; type := type s; totalItems := totalItems s;
                              processedItems := processedItems s;
                              successCount := successCount s;
                              failureCount := failureCount s;
                              status := running; startTime := (now w).1;
                              endTime := endTime s |};
              op_cancelled := op_cancelled o;
              op_results := op_results o |};
     pc := AtLoopHead (Int 0) 0; trace := []; launched := [] |}.

(** From one loop test to the next: the test, the cancellation check,
    the batch, the delay.  The [cancelled] flag is read only at the
    loop test, so a [cancel()] arriving while the batch is in flight or
    during the delay is seen exactly as one arriving just after this
    step. *)
Definition iteration (r : Run) (w : W) : Run * W :=
  match pc r with
  | AtLoopHead i k =>
      let cfg := config (op r) in
      let b := effectiveBatchSize cfg in
      let len := length (items cfg) in
      if lt_len i len then
        if op_cancelled (op r) then
          (finish {| op := set_status cancelled None (op r); pc := pc r;
                     trace := trace r; launched := launched r |} w, (now w).2)
        else
          match processBatch k (slice (items cfg) i (add i b)) r w with
          | (r', w', Some e) =>
              ({| op := set_status failed (Some (now w').1) (op r');
                  pc := Thrown e; trace := trace r'; launched := launched r' |},
               (now w').2)
          | (r', w', None) =>
              let pause :=
                match delayBetweenBatches cfg with
                | Some ms => if lt_len (add i b) len && negb (falsy ms)
                             then [Delay k ms] else []
                | None => []
                end in
              ({| op := op r'; pc := AtLoopHead (add i b) (S k);
                  trace := trace r' ++ pause; launched := launched r' |}, w')
          end
      else (finish r w, (now w).2)
  | _ => (r, w)
  end.

(** [cancel()] called on the object of a run. *)
Definition request_cancel (wanted : bool) (r : Run) : Run :=
  if wanted then
    {| op := cancel (op r); pc := pc r; trace := trace r; launched := launched r |}
  else r.

(** The loop of [execute].  [cancelDuring k] tells whether [cancel()]
    is called while batch [k] is in flight or during the delay that
    follows it.  [fuel] bounds the number of loop tests; a run that
    exhausts it is still at a loop head. *)
Fixpoint loop (cancelDuring : nat → bool) (fuel : nat) (r : Run) (w : W) : Run * W :=
  match fuel with
  | 0 => (r, w)
  | S fuel' =>
      match pc r with
      | AtLoopHead _ k =>
          let '(r', w') := iteration r w in
          loop cancelDuring fuel' (request_cancel (cancelDuring k) r') w'
      | _ => (r, w)
      end
  end.

Definition execute (cancelDuring : nat → bool) (fuel : nat) (o : BulkOperation) (w : W)
  : Run * W :=
  loop cancelDuring fuel (start o w) (now w).2.

(** The value [execute] returns, when it returns. *)
Definition returned (r : Run) : option BulkOperationResult :=
  match pc r with
  | Returned =>
      let s := op_status (op r) in
      Some {| res_success := (0 <? successCount s)%nat;
              operationId := op_id (op r);
              res_totalItems := totalItems s;
              res_successCount := successCount s;
              res_failureCount := failureCount s;
              res_results := op_results (op r);
              duration := default 0%Z (endTime s) - startTime s |}
  | _ => None
  end.

(** *** The manager

    [executeBulkOperation] is an [async] function: it registers the
    operation and starts [execute], which runs up to its first
    [await]; its [finally] block runs only after the promise of
    [execute] has settled, in a later turn.  In between, and between
    two batches, other code may call the manager.  The pieces are
    therefore separate actions.

    The pieces of [execute] are taken from one loop test to the next.
    The code waits inside such a piece, for the batch to settle and
    for the delay, and while it waits the status record is the one of
    the loop test before: the records that a caller of the manager can
    see are those of the loop tests, together with the one [start]
    leaves when the first batch is in flight.  The [cancelled] flag is
    read at the loop test only, so a [cancel()] made while the code
    waits has the effect of one made at the end of the piece. *)

Record Manager : Type := mkManager {
  activeOperations : gmap string Run
}.

Definition idle : Manager := {| activeOperations := ∅ |}.

(** [executeBulkOperation] up to [await bulkOp.execute()], the
    identifier being the one [generateOperationId] drew; [w] is the
    world after that draw. *)
Definition executeBulkOperation_begin (operationId : string) (cfg : BulkOperationConfig)
    (m : Manager) (w : W) : Manager * W :=
  let bulkOp := create operationId cfg w in
  let w1 := (now w).2 in
  let '(r, w') := iteration (start bulkOp w1) (now w1).2 in
  ({| activeOperations := <[operationId := r]> (activeOperations m) |}, w').

(** The continuation of [execute] after an [await]. *)
Definition resume (operationId : string) (m : Manager) (w : W) : Manager * W :=
  match activeOperations m !! operationId with
  | Some r =>
      let '(r', w') := iteration r w in
      ({| activeOperations := <[operationId := r']> (activeOperations m) |}, w')
  | None => (m, w)
  end.

(** The [finally] block of [executeBulkOperation]; it cannot run
    before [execute] has settled. *)
Definition executeBulkOperation_finally (operationId : string) (m : Manager) : Manager :=
  match activeOperations m !! operationId with
  | Some r =>
      match pc r with
      | AtLoopHead _ _ => m
      | _ => {| activeOperations := delete operationId (activeOperations m) |}
      end
  | None => m
  end.

Definition cancelOperation (operationId : string) (m : Manager) : bool * Manager :=
  match activeOperations m !! operationId with
  | Some r =>
      (true, {| activeOperations :=
                  <[operationId := request_cancel true r]> (activeOperations m) |})
  | None => (false, m)
  end.

(** [getActiveOperations()], as a map from identifier to snapshot. *)
Definition getActiveOperations (m : Manager) : gmap string BulkOperationStatus :=
  (λ r, getStatus (op r)) <$> activeOperations m.

(** What happens to a manager, one piece at a time. *)
Inductive Action : Type :=
| Submit (operationId : string) (cfg : BulkOperationConfig)
| Resume (operationId : string)
| Finally (operationId : string)
| Cancel (operationId : string).

Definition act (a : Action) (m : Manager) (w : W) : Manager * W :=
  match a with
  | Submit operationId cfg => executeBulkOperation_begin operationId cfg m w
  | Resume operationId => resume operationId m w
  | Finally operationId => (executeBulkOperation_finally operationId m, w)
  | Cancel operationId => ((cancelOperation operationId m).2, w)
  end.

Fixpoint perform (script : list Action) (m : Manager) (w : W) : Manager * W :=
  match script with
  | [] => (m, w)
  | a :: rest => let '(m', w') := act a m w in perform rest m' w'
  end.

End Executor.

End Bulk.

(** ** The agent registry *)

Module Factory.

Inductive AgentType : Type :=
| seo
| navigation
| catalog
| mock_seo
| mock_navigation
| mock_catalog.

Inductive PageType : Type :=
| dashboard
| items_library
| item_detail
| item_edit
| inventory
| seo_settings
| unknown.

(** The string an [AgentType] is. *)
Definition type_name (t : AgentType) : string :=
  match t with
  | seo => "seo"
  | navigation => "navigation"
  | catalog => "catalog"
  | mock_seo => "mock-seo"
  | mock_navigation => "mock-navigation"
  | mock_catalog => "mock-catalog"
  end.

(** The string a page type is. *)
Definition page_name (p : PageType) : string :=
  match p with
  | dashboard => "dashboard"
  | items_library => "items-library"
  | item_detail => "item-detail"
  | item_edit => "item-edit"
  | inventory => "inventory"
  | seo_settings => "seo-settings"
  | unknown => "unknown"
  end.

(** [hay.includes(needle)] *)
Fixpoint includes (needle hay : string) : bool :=
  String.prefix needle hay ||
  match hay with
  | EmptyString => false
  | String _ rest => includes needle rest
  end.

(** [type.startsWith('mock-')] *)
Definition is_mock (t : AgentType) : bool := String.prefix "mock-" (type_name t).

(** [`mock-${type}` as AgentType], for the types that are not mocks
    already (the only ones it is computed for). *)
Definition mock_of (t : AgentType) : AgentType :=
  match t with
  | seo | mock_seo => mock_seo
  | navigation | mock_navigation => mock_navigation
  | catalog | mock_catalog => mock_catalog
  end.

Record PageContext : Type := mkPage {
  url : string;
  pageType : PageType
}.

Record AgentContext : Type := mkContext {
  page : PageContext;
  sessionId : string
}.

Inductive AgentClass : Type :=
| SquareSEOAgentEnhanced
| SquareNavigationAgentEnhanced
| SquareCatalogAgentEnhanced
| MockSEOAgent
| MockNavigationAgent
| MockCatalogAgent.

(** An agent object: its identity (the rank of its allocation), its
    class and the context it was constructed with. *)
Record Instance : Type := mkInstance {
  oid : nat;
  class : AgentClass;
  built_with : AgentContext
}.

Record AgentInstance : Type := mkAgentInstance {
  type : AgentType;
  enhanced : bool;
  instance : Instance;
  capabilities : list string;
  ready : bool
}.

(** What the registry does to agent objects and to its cache, in
    order. *)
Inductive Effect : Type :=
| Constructed (o : nat)
| Destroyed (o : nat)
| Evicted (key : string).

(** A [Map] in insertion order. *)
Definition map_get {A : Type} (key : string) (m : list (string * A)) : option A :=
  snd <$> List.find (λ kv, String.eqb (fst kv) key) m.

Definition map_has {A : Type} (key : string) (m : list (string * A)) : bool :=
  existsb (λ kv, String.eqb (fst kv) key) m.

Definition map_set {A : Type} (key : string) (v : A) (m : list (string * A))
  : list (string * A) :=
  if map_has key m
  then (λ kv, if String.eqb (fst kv) key then (key, v) else kv) <$> m
  else m ++ [(key, v)].

Definition map_delete {A : Type} (key : string) (m : list (string * A))
  : list (string * A) :=
  List.filter (λ kv, negb (String.eqb (fst kv) key)) m.

Section Registry.

(** [window.location.hostname.includes('squareup.com')]; the host of a
    document does not change while its scripts live. *)
Variable on_square_host : bool.

(** Whether the constructor of an enhanced agent completes; the
    classes it builds on ([SquareDOMUtils], the environment manager)
    decide. *)
Variable constructs : AgentClass → bool.

(** Whether [typeof instance.destroy === 'function'].  [DOMAgent] and
    [MockAgent] define [destroy]; the catalog agent extends
    [SquareDOMUtils], which decides for it. *)
Variable catalog_has_destroy : bool.

Definition has_destroy (c : AgentClass) : bool :=
  match c with
  | SquareCatalogAgentEnhanced => catalog_has_destroy
  | _ => true
  end.

(** The fields of the factory, with two ghost fields: the rank of the
    next object to be allocated, and the effects so far. *)
Record AgentFactory : Type := mkFactory {
  agents : list (string * AgentInstance);
  context : AgentContext;
  next_oid : nat;
  effects : list Effect
}.

Definition new_factory (ctx : AgentContext) : AgentFactory :=
  {| agents := []; context := ctx; next_oid := 0; effects := [] |}.

(** [AgentFactory.getInstance(context)], the static field being the
    argument [single]. *)
Definition getInstance (ctx : AgentContext) (single : option AgentFactory) : AgentFactory :=
  match single with
  | None => new_factory ctx
  | Some f => {| agents := agents f; context := ctx;
                 next_oid := next_oid f; effects := effects f |}
  end.

Definition isValidForSEO (p : PageType) : bool :=
  existsb (String.eqb (page_name p)) ["item-detail"; "item-edit"; "items-library"].

Definition isValidForNavigation (p : PageType) : bool :=
  negb (String.eqb (page_name p) "unknown") && on_square_host.

Definition isValidForCatalog (p : PageType) : bool :=
  existsb (String.eqb (page_name p))
    ["items-library"; "item-detail"; "item-edit"; "inventory"].

(** [new C(this.context)]: the object, if the constructor completes. *)
Definition construct (c : AgentClass) (f : AgentFactory) : option Instance * AgentFactory :=
  if constructs c then
    (Some {| oid := next_oid f; class := c; built_with := context f |},
     {| agents := agents f; context := context f;
        next_oid := S (next_oid f);
        effects := effects f ++ [Constructed (next_oid f)] |})
  else (None, f).

(** [createMockAgent]: [createMockAgents] allocates the three mock
    agents, in the order seo, navigation, catalog, under the keys
    ["seo"], ["navigation"] and ["catalog"]; the one whose key is the
    type without its ["mock-"] prefix is kept (it is always there, so
    [null] is never returned). *)
Definition createMockAgent (t : AgentType) (f : AgentFactory) : AgentInstance * AgentFactory :=
  let n := next_oid f in
  let '(rank, c, mockType) :=
    match t with
    | seo | mock_seo => (0, MockSEOAgent, "seo")
    | navigation | mock_navigation => (1, MockNavigationAgent, "navigation")
    | catalog | mock_catalog => (2, MockCatalogAgent, "catalog")
    end in
  ({| type := t; enhanced := false;
      instance := {| oid := n + rank; class := c; built_with := context f |};
      capabilities := ["Mock " +:+ mockType +:+ " operations for testing"];
      ready := true |},
   {| agents := agents f; context := context f;
      next_oid := n + 3;
      effects := effects f ++ [Constructed n; Constructed (n + 1); Constructed (n + 2)] |}).

(** [createAgent]; [None] when it throws. *)
Definition createAgent (t : AgentType) (f : AgentFactory) : option AgentInstance * AgentFactory :=
  let p := pageType (page (context f)) in
  let enhanced_agent (valid : bool) (c : AgentClass) (abilities : list string) :=
    if valid then
      match construct c f with
      | (Some obj, f') =>
          (Some {| type := t; enhanced := true; instance := obj;
                   capabilities := abilities; ready := true |}, f')
      | (None, f') => (None, f')
      end
    else (None, f) in
  match t with
  | seo =>
      enhanced_agent (isValidForSEO p) SquareSEOAgentEnhanced
        ["Real DOM SEO optimization"; "Form validation and submission";
         "Content generation and optimization"; "Bulk SEO operations";
         "Screenshot capture for debugging"]
  | navigation =>
      enhanced_agent (isValidForNavigation p) SquareNavigationAgentEnhanced
        ["Advanced page navigation"; "URL management and validation";
         "Search functionality with filters"; "Page load validation";
         "SPA routing handling"]
  | catalog =>
      enhanced_agent (isValidForCatalog p) SquareCatalogAgentEnhanced
        ["Comprehensive catalog synchronization"; "Inventory management and updates";
         "Bulk pricing operations"; "Data extraction and validation";
         "Batch processing capabilities"]
  | mock_seo | mock_navigation | mock_catalog =>
      let '(a, f') := createMockAgent t f in (Some a, f')
  end.

Definition cacheKey (t : AgentType) (ctx : AgentContext) : string :=
  type_name t +:+ "-" +:+ page_name (pageType (page ctx)).

(** The cached instance [getAgent] returns at once, if any:
    [!forceRecreate && this.agents.has(cacheKey)] and [cached.ready]. *)
Definition lookup_ready (key : string) (forceRecreate : bool) (f : AgentFactory)
  : option AgentInstance :=
  if negb forceRecreate && map_has key (agents f) then
    match map_get key (agents f) with
    | Some cached => if ready cached then Some cached else None
    | None => None
    end
  else None.

(** The body of [getAgent] when no other job runs while it waits at
    [await this.createAgent(type)] (its two parts, kept apart, are
    [getAgent_begin] and [getAgent_resume] below), the recursive call
    being [again]. *)
Definition getAgent_body
    (again : AgentType → AgentFactory → option AgentInstance * AgentFactory)
    (t : AgentType) (forceRecreate : bool) (f : AgentFactory)
  : option AgentInstance * AgentFactory :=
  let key := cacheKey t (context f) in
  match lookup_ready key forceRecreate f with
  | Some cached => (Some cached, f)
  | None =>
      match createAgent t f with
      | (Some agentInstance, f') =>
          (Some agentInstance,
           {| agents := map_set key agentInstance (agents f'); context := context f';
              next_oid := next_oid f'; effects := effects f' |})
      | (None, f') =>
          if negb (is_mock t) then again (mock_of t) f' else (None, f')
      end
  end.

(** [this.getAgent(`mock-${type}`)]: the call [getAgent] makes on
    itself.  Its argument is a mock type, for which the body makes no
    further call. *)
Definition getAgent_fallback (t : AgentType) (f : AgentFactory)
  : option AgentInstance * AgentFactory :=
  getAgent_body (λ _ f', (None, f')) t false f.

Definition getAgent (t : AgentType) (forceRecreate : bool) (f : AgentFactory)
  : option AgentInstance * AgentFactory :=
  getAgent_body getAgent_fallback t forceRecreate f.

(** *** Calls that overlap

    [getAgent] is an [async] method.  [createAgent] runs to its end
    when it is called (it awaits nothing), but the caller then waits at
    [await this.createAgent(type)] for the promise it returned: the
    writing of the cache is a later job, and another call of [getAgent]
    or of [updateContext] can run before it.  A call is therefore made
    of the two parts below; [getAgent] above is a call whose parts run
    one after the other with nothing in between. *)

(** A call that waits at the [await]: the type asked for, the cache key
    it computed, and what [createAgent] gave ([None] when it threw). *)
Record Waiting : Type := mkWaiting {
  asked : AgentType;
  waiting_key : string;
  created : option AgentInstance
}.

(** The part of a call up to the [await]: the answer when the cache
    has it, otherwise the creation, and the wait. *)
Definition getAgent_begin (t : AgentType) (forceRecreate : bool) (f : AgentFactory)
  : (option AgentInstance + Waiting) * AgentFactory :=
  let key := cacheKey t (context f) in
  match lookup_ready key forceRecreate f with
  | Some cached => (inl (Some cached), f)
  | None =>
      let '(made, f') := createAgent t f in
      (inr {| asked := t; waiting_key := key; created := made |}, f')
  end.

(** The part after the [await], on the factory as it is by then; the
    call [this.getAgent(`mock-${type}`)] begins in the same job. *)
Definition getAgent_resume (call : Waiting) (f : AgentFactory)
  : (option AgentInstance + Waiting) * AgentFactory :=
  match created call with
  | Some agentInstance =>
      (inl (Some agentInstance),
       {| agents := map_set (waiting_key call) agentInstance (agents f);
          context := context f;
          next_oid := next_oid f; effects := effects f |})
  | None =>
      if negb (is_mock (asked call)) then getAgent_begin (mock_of (asked call)) false f
      else (inl None, f)
  end.

(** A waiting call is resumed; a call that has answered stays as it
    is. *)
Definition proceed (x : (option AgentInstance + Waiting) * AgentFactory)
  : (option AgentInstance + Waiting) * AgentFactory :=
  match x.1 with
  | inl _ => x
  | inr call => getAgent_resume call x.2
  end.

(** The answer of a call, if it has answered. *)
Definition answer (x : (option AgentInstance + Waiting) * AgentFactory)
  : option AgentInstance * AgentFactory :=
  match x.1 with
  | inl a => (a, x.2)
  | inr _ => (None, x.2)
  end.

(** The exported [getAgent(type, context)]. *)
Definition resolve (t : AgentType) (ctx : AgentContext) (single : option AgentFactory)
  : option AgentInstance * AgentFactory :=
  getAgent t false (getInstance ctx single).

(** The loop of [updateContext] over the entries of the cache. *)
Fixpoint sweep (currentPageType : string) (entries : list (string * AgentInstance))
    (f : AgentFactory) : AgentFactory :=
  match entries with
  | [] => f
  | (key, agent) :: rest =>
      sweep currentPageType rest
        (if negb (includes currentPageType key) then
           {| agents := map_delete key (agents f);
              context := context f;
              next_oid := next_oid f;
              effects := effects f
                         ++ (if has_destroy (class (instance agent))
                             then [Destroyed (oid (instance agent))] else [])
                         ++ [Evicted key] |}
         else f)
  end.

Definition updateContext (newContext : AgentContext) (f : AgentFactory) : AgentFactory :=
  let f' := {| agents := agents f; context := newContext;
               next_oid := next_oid f; effects := effects f |} in
  sweep (page_name (pageType (page newContext))) (agents f) f'.

End Registry.

End Factory.

(** ** Predicates the statements are written with *)

Module WorkflowSpec.

Import Workflow.

Section Reference.

Context {W : Type} (agents : gmap string (@Agent W)).

(** The outcomes of dispatching every step in declared order, one
    after the other, whatever they are. *)
Fixpoint dispatch_all (todo : list Step) (w : W) : list Settled :=
  match todo with
  | [] => []
  | step :: rest =>
      let '(outcome, w') := dispatch agents step w in
      outcome :: dispatch_all rest w'
  end.

(** The outcome neither throws nor fails a critical step. *)
Definition harmless (step : Step) (outcome : Settled) : bool :=
  match outcome with
  | Fulfilled r => success r || negb (critical step)
  | Rejected _ => false
  end.

End Reference.

End WorkflowSpec.

Module BulkSpec.

Import Bulk.

Local Open Scope list_scope.
Local Open Scope nat_scope.

(** *** Signs *)

Definition positive (x : Number) : Prop :=
  match x with
  | Int z => (0 < z)%Z
  | Frac q => (0 < q)%Q
  | Infinity => True
  | _ => False
  end.

Definition negative (x : Number) : Prop :=
  match x with
  | Int z => (z < 0)%Z
  | Frac q => (q < 0)%Q
  | NegInfinity => True
  | _ => False
  end.

Definition nonneg (x : Number) : Prop :=
  match x with
  | Int z => (0 ≤ z)%Z
  | Frac q => (0 <= q)%Q
  | Infinity => True
  | _ => False
  end.

Definition nonpos (x : Number) : Prop :=
  match x with
  | Int z => (z ≤ 0)%Z
  | Frac q => (q <= 0)%Q
  | NegInfinity => True
  | _ => False
  end.

(** The loop index before batch [k]: the batch size added [k] times to
    0. *)
Fixpoint index (b : Number) (k : nat) : Number :=
  match k with
  | 0 => Int 0
  | S k' => add (index b k') b
  end.

(** The numbers whose sums the doubles of the program compute as they
    are computed here, however many of them are added: the integers and
    the infinities. *)
Definition whole (x : Number) : Prop :=
  match x with
  | Int _ | Infinity | NegInfinity => True
  | _ => False
  end.

(** What the launched batches cover.
    With a positive batch size the batches launched so far are,
    together, the items before the position of the loop index; with a
    negative one they are a prefix of the items too, which leaves an
    item out, and an empty one as long as the integer part of the
    index is 0. *)
Definition covered {A : Type} (l : list A) (b : Number) (batches : list (list A)) : Prop :=
  let i := index b (length batches) in
  (positive b →
   concat batches = take (Z.to_nat (relative (Z.of_nat (length l)) i)) l)
  ∧ (negative b →
     (toIntegerOrInfinity i = Int 0 → concat batches = [])
     ∧ ∃ m, m ≤ length l - 1 ∧ concat batches = take m l).

Section Runs.

Context {W : Type}.

Local Abbreviation BulkOperation := (@BulkOperation W).
Local Abbreviation Run := (@Run W).
Local Abbreviation BulkOperationConfig := (@BulkOperationConfig W).

(** The counters agree with each other and with the result list. *)
Definition consistent (s : BulkOperationStatus) : Prop :=
  successCount s + failureCount s = processedItems s.

Definition sound (o : BulkOperation) : Prop :=
  consistent (op_status o)
  ∧ processedItems (op_status o) = length (op_results o)
  ∧ successCount (op_status o) = successes (op_results o).

(** What [tally], [forEach] and [processBatch] leave alone. *)
Definition same_frame (o o' : BulkOperation) : Prop :=
  op_id o' = op_id o
  ∧ config o' = config o
  ∧ op_cancelled o' = op_cancelled o
  ∧ id (op_status o') = id (op_status o)
  ∧ totalItems (op_status o') = totalItems (op_status o)
  ∧ status (op_status o') = status (op_status o)
  ∧ startTime (op_status o') = startTime (op_status o)
  ∧ endTime (op_status o') = endTime (op_status o).

(** The entry [tally] appends for an item. *)
Definition entry (item : Value) (outcome : Settled) : AgentResult :=
  match outcome with
  | Fulfilled value => if success value then value else synthesized item outcome
  | Rejected _ => synthesized item outcome
  end.

(** A progress snapshot is acceptable when its counters agree and it
    does not count more items than there are. *)
Definition observed_ok (ev : @Event) : Prop :=
  match ev with
  | Progress _ snapshot =>
      consistent snapshot ∧ processedItems snapshot ≤ totalItems snapshot
  | _ => True
  end.

(** The number of the batch an event belongs to. *)
Definition batch_of (ev : @Event) : nat :=
  match ev with
  | Dispatched k _ | SettledItem k _ _ | Progress k _ | Delay k _ => k
  end.

(** The invariant of a run: the counters are sound, every snapshot
    handed out was acceptable, the launched batches are the slices the
    loop cuts, and the program point agrees with the status. *)
Record steady (r : Run) : Prop := mkSteady {
  steady_sound : sound (op r);
  steady_total :
    totalItems (op_status (op r)) = length (items (config (op r)));
  steady_observed : Forall observed_ok (trace r);
  steady_counted :
    processedItems (op_status (op r)) ≤ length (concat (launched r));
  steady_batches :
    ∀ j batch, launched r !! j = Some batch →
      let b := effectiveBatchSize (config (op r)) in
      batch = slice (items (config (op r))) (index b j) (index b (S j))
      ∧ lt_len (index b j) (length (items (config (op r)))) = true;
  steady_cover :
    covered (items (config (op r))) (effectiveBatchSize (config (op r))) (launched r);
  steady_pc :
    match pc r with
    | AtLoopHead i k =>
        i = index (effectiveBatchSize (config (op r))) k
        ∧ k = length (launched r)
        ∧ processedItems (op_status (op r)) = length (concat (launched r))
        ∧ status (op_status (op r)) = running
    | Returned =>
        processedItems (op_status (op r)) = length (concat (launched r))
        ∧ (status (op_status (op r)) = completed
           ∨ status (op_status (op r)) = cancelled)
        ∧ (status (op_status (op r)) = completed →
           lt_len (index (effectiveBatchSize (config (op r))) (length (launched r)))
             (length (items (config (op r)))) = false)
    | Thrown _ => status (op_status (op r)) = failed
    end
}.

(** The callbacks of the configuration do not throw. *)
Definition quiet (cfg : BulkOperationConfig) : Prop :=
  ∀ callback, onProgress cfg = Some callback → ∀ s w, (callback s w).1 = None.

(** The events a batch adds: its dispatches, then the settlements of the
    same items, then events that are not dispatches. *)
Definition batch_events (k : nat) (batch : list Value) (evs : list Event) : Prop :=
  ∃ outcomes rest,
    length outcomes = length batch
    ∧ evs = (Dispatched k <$> batch)
            ++ (uncurry (SettledItem k) <$> zip batch outcomes) ++ rest
    ∧ Forall (λ ev, (∃ snapshot, ev = Progress k snapshot) ∨ (∃ ms, ev = Delay k ms)) rest.

(** Dispatches of batch [k] come before everything else of batch [k],
    which comes before the dispatches of batch [k + 1]. *)
Definition rank (ev : @Event) : nat :=
  match ev with
  | Dispatched k _ => 2 * k
  | SettledItem k _ _ | Progress k _ | Delay k _ => 2 * k + 1
  end.

Definition chronological (t : list (@Event)) : Prop :=
  ∀ p q a b, p < q → t !! p = Some a → t !! q = Some b → rank a ≤ rank b.

(** The trace is in order, speaks of launched batches only, and shows
    every item of a launched batch dispatched and settled. *)
Record traced (r : Run) : Prop := mkTraced {
  traced_chronological : chronological (trace r);
  traced_events : Forall (λ ev, batch_of ev < length (launched r)) (trace r);
  traced_settled :
    ∀ j batch item, launched r !! j = Some batch → item ∈ batch →
      Dispatched j item ∈ trace r ∧ ∃ outcome, SettledItem j item outcome ∈ trace r
}.

End Runs.

End BulkSpec.

Module FactorySpec.

Import Factory.

Local Open Scope list_scope.
Local Open Scope nat_scope.

(** The second factory is on the page type of the first. *)
Definition same_page (g g' : AgentFactory) : Prop :=
  pageType (page (context g')) = pageType (page (context g)).

(** What a resolution function does when asked again: it returns the
    same instance and changes nothing, on any factory with the cache it
    left and the same page type; and it only ever touches the cache
    entries of the type asked for and of its mock. *)
Definition stable
    (again : AgentType → AgentFactory → option AgentInstance * AgentFactory) : Prop :=
  ∀ t g,
    same_page g (again t g).2
    ∧ (∀ g2, agents g2 = agents (again t g).2 → same_page g g2 →
             again t g2 = ((again t g).1, g2))
    ∧ (∀ key, key ≠ cacheKey t (context g) → key ≠ cacheKey (mock_of t) (context g) →
              map_get key (agents (again t g).2) = map_get key (agents g)
              ∧ map_has key (agents (again t g).2) = map_has key (agents g)).

(** Where a resolved instance comes from: out of the cache, or from a
    construction made during the call. *)
Definition traceable
    (again : AgentType → AgentFactory → option AgentInstance * AgentFactory) : Prop :=
  ∀ t g inst,
    (again t g).1 = Some inst →
    (∃ key, (key, inst) ∈ agents g)
    ∨ (next_oid g ≤ oid (instance inst)
       ∧ Constructed (oid (instance inst)) ∈ effects (again t g).2
       ∧ built_with (instance inst) = context g).

Section Eviction.

Variable catalog_has_destroy : bool.

(** What [updateContext] does to one cache entry that no longer
    matches: its [destroy] method is called, if it has one, then the
    entry is deleted. *)
Definition eviction (currentPageType : string) (entry : string * AgentInstance)
  : list Effect :=
  if includes currentPageType entry.1 then []
  else (if has_destroy catalog_has_destroy (class (instance entry.2))
        then [Destroyed (oid (instance entry.2))] else [])
       ++ [Evicted entry.1].

End Eviction.

End FactorySpec.

(** ** Concrete inputs

    Small agents and configurations on which the models are run. *)

Module Samples.

Definition done : AgentResult :=
  {| success := true; message := Some "done"; error := None; data := None |}.

(** A catalog agent whose operations succeed. *)
Definition catalogAgent : @Workflow.Agent unit :=
  λ _ _ w, (Fulfilled done, w).

(** An SEO agent that has no [optimizeSEO] method and whose other
    operations report a failure. *)
Definition seoAgent : @Workflow.Agent unit :=
  λ method _ w,
    if String.eqb method "optimizeSEO"
    then (Rejected "seoAgent.optimizeSEO is not a function", w)
    else (Fulfilled (failure "SEO form not found"), w).

Definition agents : gmap string (@Workflow.Agent unit) :=
  {[ "seo" := seoAgent; "catalog" := catalogAgent ]}.

Definition syncStep : @Workflow.Step :=
  {| Workflow.agentType := "catalog"; Workflow.operation := "sync";
     Workflow.step_data := VNull; Workflow.dependsOn := None;
     Workflow.critical := false |}.


(** A step that fails and is not critical. *)
Definition validateStep : @Workflow.Step :=
  {| Workflow.agentType := "seo"; Workflow.operation := "validate";
     Workflow.step_data := VNull; Workflow.dependsOn := None;
     Workflow.critical := false |}.

(** [stepA]: critical, fails. *)
Definition stepA : @Workflow.Step :=
  {| Workflow.agentType := "seo"; Workflow.operation := "validate";
     Workflow.step_data := VStr "item-1"; Workflow.dependsOn := None;
     Workflow.critical := true |}.

(** [stepB]: depends on [stepA]. *)
Definition stepB : @Workflow.Step :=
  {| Workflow.agentType := "catalog"; Workflow.operation := "sync";
     Workflow.step_data := VStr "item-1"; Workflow.dependsOn := Some ["validate"];
     Workflow.critical := false |}.

(** A step whose dependency never ran. *)
Definition orphanStep : @Workflow.Step :=
  {| Workflow.agentType := "catalog"; Workflow.operation := "pricing";
     Workflow.step_data := VNull; Workflow.dependsOn := Some ["inventory"];
     Workflow.critical := true |}.

(** The clock of a world that has none. *)
Definition clock : unit → Z * unit := λ w, (0%Z, w).

(** A world that is the time: every reading of the clock takes a
    millisecond. *)
Definition ticking : Z → Z * Z := λ t, (t, (t + 1)%Z).

(** An SEO agent for bulk updates: the update of every third item is
    rejected, the others succeed. *)
Definition bulkSeoAgent : @Bulk.Agent unit :=
  λ _ payload w,
    match payload with
    | Bulk.SeoData (VNum n) =>
        if (n mod 3 =? 0)%Z then (Rejected "Save button not found", w)
        else (Fulfilled done, w)
    | _ => (Fulfilled done, w)
    end.

Definition bulkAgents : gmap string (@Bulk.Agent unit) :=
  {[ "seo" := bulkSeoAgent ]}.

(** Twelve items, by batches of [size]. *)
Definition twelve (size : option Bulk.Number) : @Bulk.BulkOperationConfig unit :=
  {| Bulk.cfg_type := "seo-bulk-update";
     Bulk.agentType := "seo";
     Bulk.items := VNum <$> [1; 2; 3; 4; 5; 6; 7; 8; 9; 10; 11; 12]%Z;
     Bulk.batchSize := size;
     Bulk.delayBetweenBatches := None;
     Bulk.onProgress := None |}.

(** One item. *)
Definition single : @Bulk.BulkOperationConfig unit :=
  {| Bulk.cfg_type := "seo-bulk-update";
     Bulk.agentType := "seo";
     Bulk.items := [VNum 1];
     Bulk.batchSize := None;
     Bulk.delayBetweenBatches := None;
     Bulk.onProgress := None |}.

(** Nobody cancels. *)
Definition never : nat → bool := λ _, false.


(** Two contexts on the item-edit page and one on the dashboard. *)
Definition editing (itemUrl : string) : Factory.AgentContext :=
  {| Factory.page := {| Factory.url := itemUrl; Factory.pageType := Factory.item_edit |};
     Factory.sessionId := "session-1" |}.

Definition onDashboard : Factory.AgentContext :=
  {| Factory.page := {| Factory.url := "https://squareup.com/dashboard";
                         Factory.pageType := Factory.dashboard |};
     Factory.sessionId := "session-1" |}.

(** A factory on the item-edit page that has resolved the SEO and the
    catalog agents; every constructor completes, every class has
    [destroy]. *)
Definition warmFactory : Factory.AgentFactory :=
  (Factory.getAgent true (λ _, true) Factory.catalog false
     (Factory.getAgent true (λ _, true) Factory.seo false
        (Factory.new_factory (editing "https://squareup.com/dashboard/items/A/edit"))).2).2.

End Samples.

(** * The rest of the orchestration layer

    The parts of the same files that the models above leave out, and
    the functions they call. *)

(** ** The bulk manager: [cleanup], and how the results are kept *)

Module BulkManager.

Import Bulk BulkSpec.

Local Open Scope list_scope.
Local Open Scope nat_scope.

Section Manager.

Context {W : Type}.

(** [cleanup()]: every registered operation for which [isCompleted()]
    holds is deleted.  Deleting the entry a [for ... of] loop over a
    [Map] is visiting does not disturb the iteration: every entry is
    tested once, against its own status. *)
Definition cleanup (m : @Manager W) : @Manager W :=
  {| activeOperations :=
       filter (λ entry, isCompleted (op entry.2) = false) (activeOperations m) |}.

(** The result list of a run answers the items handed out so far, one
    entry per item and in item order, each entry made from an outcome
    that satisfies [ok]. *)
Definition accounted (ok : Value → Settled → Prop) (r : @Run W) : Prop :=
  Forall2 (λ item result, ∃ outcome, ok item outcome ∧ result = entry item outcome)
    (take (length (op_results (op r))) (concat (launched r)))
    (op_results (op r)).

(** The result [processBatch] pushes for an item whose [processItem]
    threw because no agent is registered under [config.agentType]. *)
Definition agent_not_found (cfg : @BulkOperationConfig W) (item : Value) : AgentResult :=
  synthesized item (Rejected ("Agent not found: " +:+ agentType cfg)).

(** Where the pauses of a run are: a [Delay] stands in the trace only
    for a configured delay that is not zero, and only after a batch
    that leaves items behind it. *)
Definition pause_allowed (cfg : @BulkOperationConfig W) (ev : Event) : Prop :=
  match ev with
  | Delay k ms =>
      delayBetweenBatches cfg = Some ms
      ∧ falsy ms = false
      ∧ lt_len (index (effectiveBatchSize cfg) (S k)) (length (items cfg)) = true
  | _ => True
  end.

Definition is_pause (ev : Event) : bool :=
  match ev with
  | Delay _ _ => true
  | _ => false
  end.

(** The number of pauses taken. *)
Definition pauses (t : list Event) : nat := length (List.filter is_pause t).

(** [this.config.delayBetweenBatches], as a condition. *)
Definition pausing (cfg : @BulkOperationConfig W) : bool :=
  match delayBetweenBatches cfg with
  | Some ms => negb (falsy ms)
  | None => false
  end.

(** The pauses of a run so far: each is allowed, and there is one after
    every batch that left items behind it. *)
Definition paced (r : @Run W) : Prop :=
  let cfg := config (op r) in
  Forall (pause_allowed cfg) (trace r)
  ∧ match pc r with
    | AtLoopHead i k =>
        pauses (trace r)
        = if pausing cfg
          then (if lt_len i (length (items cfg)) then k else k - 1)
          else 0
    | Returned =>
        status (op_status (op r)) = completed →
        pauses (trace r) = if pausing cfg then length (launched r) - 1 else 0
    | Thrown _ => True
    end.

End Manager.

End BulkManager.

(** ** The coordinator: routing of single tasks, bookkeeping of a workflow *)

Module Routing.

Import Workflow.

Local Open Scope list_scope.

(** The task kinds [AgentTaskSchema] accepts (the [z.enum] of its [type]
    field), which are the members of the type [AgentTask['type']]. *)
Definition task_types : list string :=
  ["seo-update"; "seo-optimize"; "seo-validate"; "seo-bulk-update"; "seo-extract";
   "navigate"; "navigation"; "search"; "validate-page"; "extract-results";
   "catalog-sync"; "inventory-update"; "pricing-update"; "extract-catalog";
   "workflow"].

(** The first [switch] of [routeTaskToEnhancedAgent]: the agent type
    and the operation type a task kind is mapped to. *)
Definition route (task_type : string) : option (string * string) :=
  if String.eqb task_type "seo-update" || String.eqb task_type "seo-optimize"
  then Some ("seo", "optimize")
  else if String.eqb task_type "seo-validate" then Some ("seo", "validate")
  else if String.eqb task_type "navigate" || String.eqb task_type "navigation"
  then Some ("navigation", "navigate")
  else if String.eqb task_type "search" then Some ("navigation", "search")
  else if String.eqb task_type "catalog-sync" then Some ("catalog", "sync")
  else if String.eqb task_type "inventory-update" then Some ("catalog", "inventory")
  else None.

(** The method of the agent a pair (agent type, operation type) ends
    in, as the [switch] statements of [executeSEOOperation],
    [executeNavigationOperation] and [executeCatalogOperation] list
    them. *)
Definition method_of (agentType operationType : string) : option string :=
  if String.eqb agentType "seo" then
    if String.eqb operationType "optimize" then Some "optimizeSEO"
    else if String.eqb operationType "validate" then Some "validateSEOFields"
    else if String.eqb operationType "bulk-update" then Some "bulkUpdateSEO"
    else if String.eqb operationType "extract" then Some "extractSEOData"
    else None
  else if String.eqb agentType "navigation" then
    if String.eqb operationType "navigate" then Some "navigateToPage"
    else if String.eqb operationType "search" then Some "performSearch"
    else if String.eqb operationType "validate" then Some "validatePageLoad"
    else if String.eqb operationType "extract-results" then Some "extractSearchResults"
    else None
  else if String.eqb agentType "catalog" then
    if String.eqb operationType "sync" then Some "synchronizeCatalog"
    else if String.eqb operationType "inventory" then Some "updateInventory"
    else if String.eqb operationType "pricing" then Some "updatePricing"
    else if String.eqb operationType "extract" then Some "extractCatalogData"
    else None
  else None.

Section Router.

Context {W : Type}.

Variable agents : gmap string (@Agent W).

(** [routeTaskToEnhancedAgent(task)]; of the task it reads [type] and
    [data]. *)
Definition routeTaskToEnhancedAgent (task_type : string) (task_data : Value) (w : W)
  : Settled * W :=
  match route task_type with
  | None => (Fulfilled (failure ("Unknown task type: " +:+ task_type)), w)
  | Some (agentType, operationType) =>
      let operation := {| op_type := operationType; op_data := task_data |} in
      if String.eqb agentType "seo" then executeSEOOperation agents operation w
      else if String.eqb agentType "navigation"
      then executeNavigationOperation agents operation w
      else if String.eqb agentType "catalog"
      then executeCatalogOperation agents operation w
      else (Fulfilled (failure ("No enhanced agent available for type: " +:+ agentType)), w)
  end.

End Router.

(** What a workflow run has recorded under an operation name: steps
    that share the name overwrite each other in [stepResults], so the
    entry is the result of the last of them. *)
Definition latest (name : string) (recorded : list (Step * AgentResult))
  : option AgentResult :=
  snd <$> last (filter (λ sr, operation sr.1 = name) recorded).

End Routing.

(** ** The agent registry: availability, status, teardown *)

Module FactoryStatus.

Import Factory.

Local Open Scope list_scope.
Local Open Scope nat_scope.

#[global] Instance AgentType_eq_dec : EqDecision AgentType.
Proof. solve_decision. Defined.

#[global] Instance PageType_eq_dec : EqDecision PageType.
Proof. solve_decision. Defined.

(** [getAgentCapabilities(type)]: the table has an entry for each of
    the six agent types, so the fallback [['Unknown capabilities']] is
    not used. *)
Definition getAgentCapabilities (t : AgentType) : list string :=
  match t with
  | seo =>
      ["Real DOM SEO optimization"; "Form validation and submission";
       "Content generation and optimization"; "Bulk SEO operations";
       "Screenshot capture for debugging"]
  | navigation =>
      ["Advanced page navigation"; "URL management and validation";
       "Search functionality with filters"; "Page load validation";
       "SPA routing handling"]
  | catalog =>
      ["Comprehensive catalog synchronization"; "Inventory management and updates";
       "Bulk pricing operations"; "Data extraction and validation";
       "Batch processing capabilities"]
  | mock_seo => ["Mock SEO operations for testing"]
  | mock_navigation => ["Mock navigation operations for testing"]
  | mock_catalog => ["Mock catalog operations for testing"]
  end.

(** The class [createAgent] instantiates for an agent type. *)
Definition class_of (t : AgentType) : AgentClass :=
  match t with
  | seo => SquareSEOAgentEnhanced
  | navigation => SquareNavigationAgentEnhanced
  | catalog => SquareCatalogAgentEnhanced
  | mock_seo => MockSEOAgent
  | mock_navigation => MockNavigationAgent
  | mock_catalog => MockCatalogAgent
  end.

Record Status : Type := mkStatus {
  totalAgents : nat;
  activeAgents : nat;
  availableTypes : list AgentType;
  status_context : AgentContext
}.

Section Registry.

Variable on_square_host : bool.
Variable constructs : AgentClass → bool.
Variable catalog_has_destroy : bool.

(** The page-type allow-list of an agent type, as [createAgent] and
    [getAvailableAgentTypes] test it; mocks are valid everywhere. *)
Definition valid_for (t : AgentType) (p : PageType) : bool :=
  match t with
  | seo => isValidForSEO p
  | navigation => isValidForNavigation on_square_host p
  | catalog => isValidForCatalog p
  | _ => true
  end.

Definition getAvailableAgentTypes (f : AgentFactory) : list AgentType :=
  let p := pageType (page (context f)) in
  (if isValidForSEO p then [seo] else [])
  ++ (if isValidForNavigation on_square_host p then [navigation] else [])
  ++ (if isValidForCatalog p then [catalog] else [])
  ++ [mock_seo; mock_navigation; mock_catalog].

(** [this.getAvailableAgentTypes().includes(type)] *)
Definition isAgentAvailable (t : AgentType) (f : AgentFactory) : bool :=
  bool_decide (t ∈ getAvailableAgentTypes f).

Definition getStatus (f : AgentFactory) : Status :=
  {| totalAgents := length (agents f);
     activeAgents := length (List.filter (λ kv, ready kv.2) (agents f));
     availableTypes := getAvailableAgentTypes f;
     status_context := context f |}.

(** [destroy()]: the [destroy] method of every cached instance that has
    one is called, in cache order; then the cache is cleared. *)
Definition destroy (f : AgentFactory) : AgentFactory :=
  {| agents := [];
     context := context f;
     next_oid := next_oid f;
     effects := effects f
                ++ flat_map (λ kv, if has_destroy catalog_has_destroy (class (instance kv.2))
                                   then [Destroyed (oid (instance kv.2))] else [])
                     (agents f)
                ++ (Evicted <$> (agents f).*1) |}.

(** The factories a program can hold: the singleton after any sequence
    of calls of its public methods. *)
Inductive reachable : AgentFactory → Prop :=
| reach_new (ctx : AgentContext) :
    reachable (new_factory ctx)
| reach_getInstance (ctx : AgentContext) (f : AgentFactory) :
    reachable f → reachable (getInstance ctx (Some f))
| reach_getAgent (t : AgentType) (forceRecreate : bool) (f : AgentFactory) :
    reachable f →
    reachable (getAgent on_square_host constructs t forceRecreate f).2
| reach_updateContext (newContext : AgentContext) (f : AgentFactory) :
    reachable f → reachable (updateContext catalog_has_destroy newContext f)
| reach_destroy (f : AgentFactory) :
    reachable f → reachable (destroy f).

(** What holds of every entry of the cache of a reachable factory. *)
Definition kept (f : AgentFactory) (key : string) (a : AgentInstance) : Prop :=
  ready a = true
  ∧ (∃ p, key = type_name (type a) +:+ "-" +:+ page_name p
          ∧ valid_for (type a) p = true)
  ∧ enhanced a = negb (is_mock (type a))
  ∧ class (instance a) = class_of (type a)
  ∧ (is_mock (type a) = false → constructs (class_of (type a)) = true)
  ∧ oid (instance a) < next_oid f
  ∧ capabilities a
    = match type a with
      | mock_seo => ["Mock seo operations for testing"]
      | t => getAgentCapabilities t
      end.

(** The type of the instance [getAgent(type)] answers with: the type
    asked for when it is valid for the page and its constructor
    completes, its mock otherwise. *)
Definition served (t : AgentType) (f : AgentFactory) : AgentType :=
  if valid_for t (pageType (page (context f)))
     && (is_mock t || constructs (class_of t))
  then t else mock_of t.

Definition well_kept (f : AgentFactory) : Prop :=
  NoDup (agents f).*1
  ∧ NoDup ((λ kv, oid (instance kv.2)) <$> agents f)
  ∧ ∀ key a, (key, a) ∈ agents f → kept f key a.

End Registry.

End FactoryStatus.

(** ** The coordinator: its agents from the registry

    [initializeEnhancedAgents], [getEnhancedAgentStatus] with its table
    of capabilities, [getAvailableAgents], [isAgentAvailable] and
    [destroy] of [AgentCoordinatorEnhanced].  Here the map [agents] of
    the coordinator holds the agent objects themselves, told apart by
    their identity, as the registry hands them out. *)

Module Lifecycle.

Local Open Scope list_scope.
Local Open Scope nat_scope.

Record Coordinator : Type := mkCoordinator {
  agents : list (string * Factory.Instance);
  context : Factory.AgentContext;
  isInitialized : bool
}.

(** The fields after the constructor. *)
Definition new_coordinator (ctx : Factory.AgentContext) : Coordinator :=
  {| agents := []; context := ctx; isInitialized := false |}.

Record AgentStatus : Type := mkAgentStatus {
  initialized : bool;
  enhanced : bool;
  capabilities : list string;
  ready : bool
}.

Record CoordinatorStatus : Type := mkCoordinatorStatus {
  coordinator_initialized : bool;
  coordinator_enhanced : bool;
  agentCount : nat;
  pageContext : Factory.PageContext
}.

Record EnhancedStatus : Type := mkEnhancedStatus {
  status_agents : list (string * AgentStatus);
  status_coordinator : CoordinatorStatus
}.

(** [capabilities[name] || ['Basic DOM operations']], for the names
    that are no property of [Object.prototype]. *)
Definition getAgentCapabilities (name : string) : list string :=
  if String.eqb name "seo" then
    ["SEO optimization with real DOM manipulation"; "Form validation and submission";
     "Content generation and optimization"; "Bulk SEO operations";
     "Screenshot capture for debugging"; "Advanced error handling"]
  else if String.eqb name "navigation" then
    ["Sophisticated page navigation"; "URL management and validation";
     "Advanced search functionality"; "Page load validation";
     "SPA routing handling"; "Search result extraction"]
  else if String.eqb name "catalog" then
    ["Comprehensive catalog synchronization"; "Inventory management and updates";
     "Bulk pricing operations"; "Data extraction and validation";
     "Batch processing capabilities"; "Real-time error recovery"]
  else ["Basic DOM operations"].

Definition getEnhancedAgentStatus (c : Coordinator) : EnhancedStatus :=
  {| status_agents :=
       (λ entry : string * Factory.Instance,
          (entry.1,
           {| initialized := true;
              enhanced := negb (String.prefix "mock-" entry.1);
              capabilities := getAgentCapabilities entry.1;
              ready := true |})) <$> agents c;
     status_coordinator :=
       {| coordinator_initialized := isInitialized c;
          coordinator_enhanced := true;
          agentCount := length (agents c);
          pageContext := Factory.page (context c) |} |}.

Definition getAvailableAgents (c : Coordinator) : list string := (agents c).*1.

Definition isAgentAvailable (agentType : string) (c : Coordinator) : bool :=
  Factory.map_has agentType (agents c).

Section Registry.

Variable on_square_host : bool.
Variable constructs : Factory.AgentClass → bool.
Variable catalog_has_destroy : bool.

(** One round of the loop of [initializeEnhancedAgents]; the second
    component is the static field of the registry. *)
Definition initialize_one (state : Coordinator * option Factory.AgentFactory)
    (t : Factory.AgentType) : Coordinator * option Factory.AgentFactory :=
  let '(answer, f) :=
    Factory.resolve on_square_host constructs t (context state.1) state.2 in
  (match answer with
   | Some agentInstance =>
       {| agents := Factory.map_set (Factory.type_name t)
                      (Factory.instance agentInstance) (agents state.1);
          context := context state.1;
          isInitialized := isInitialized state.1 |}
   | None => state.1
   end,
   Some f).

(** The three resolutions, none of them interleaved with another user
    of the registry. *)
Definition initializeEnhancedAgents (c : Coordinator)
    (single : option Factory.AgentFactory) : Coordinator * option Factory.AgentFactory :=
  foldl initialize_one (c, single) [Factory.seo; Factory.navigation; Factory.catalog].

(** [destroy()], with the calls of [destroy] it makes on its agents. *)
Definition destroy (c : Coordinator) : Coordinator * list Factory.Effect :=
  ({| agents := []; context := context c; isInitialized := false |},
   flat_map (λ entry : string * Factory.Instance,
               if Factory.has_destroy catalog_has_destroy (Factory.class entry.2)
               then [Factory.Destroyed (Factory.oid entry.2)] else [])
     (agents c)).

End Registry.

End Lifecycle.

(** ** The SEO content generator

    [generateOptimizedSEO] of [SquareSEOAgentEnhanced] and the six
    functions it calls; [handleSEOUpdate] runs it when content is to be
    generated.  A text is a sequence of code units, here a [string];
    the models are written for code units below 256.  The case mappings
    of the language ([toLowerCase], [toUpperCase]) are parameters. *)

Module SeoContent.

Import Stdlib.Strings.Ascii.

Local Open Scope list_scope.
Local Open Scope nat_scope.

(** The class [\s] of a regular expression, among the code units below
    256: tab, line feed, vertical tab, form feed, carriage return,
    space, no-break space. *)
Definition is_space (c : ascii) : bool :=
  let n := nat_of_ascii c in
  ((9 <=? n) && (n <=? 13)) || (n =? 32) || (n =? 160).

Definition is_dash (c : ascii) : bool := Ascii.eqb c "-".

(** [[a-z0-9]] *)
Definition is_lower_alnum (c : ascii) : bool :=
  let n := nat_of_ascii c in
  ((97 <=? n) && (n <=? 122)) || ((48 <=? n) && (n <=? 57)).

(** [s.slice(0, n)] *)
Fixpoint slice0 (n : nat) (s : string) : string :=
  match n, s with
  | S n', String c rest => String c (slice0 n' rest)
  | _, _ => EmptyString
  end.

(** [s.charAt(0)] and [s.slice(1)] *)
Definition charAt0 (s : string) : string :=
  match s with
  | String c _ => String c EmptyString
  | EmptyString => EmptyString
  end.

Definition slice1 (s : string) : string :=
  match s with
  | String _ rest => rest
  | EmptyString => EmptyString
  end.

(** [s.split(sep)] for a separator of one code unit: the pieces between
    the separators, empty pieces included; never an empty array. *)
Fixpoint split_on (sep : ascii) (s : string) : list string :=
  match s with
  | EmptyString => [EmptyString]
  | String c rest =>
      if Ascii.eqb c sep then EmptyString :: split_on sep rest
      else match split_on sep rest with
           | piece :: pieces => String c piece :: pieces
           | [] => [String c EmptyString]
           end
  end.

(** [pieces.join(sep)] *)
Definition join (sep : string) (pieces : list string) : string :=
  String.concat sep pieces.

(** [s.replace(/[^...]/g, '')]: the code units of the class are kept. *)
Fixpoint keep_chars (keep : ascii → bool) (s : string) : string :=
  match s with
  | EmptyString => EmptyString
  | String c rest =>
      if keep c then String c (keep_chars keep rest) else keep_chars keep rest
  end.

(** [s.replace(/C+/g, by)] for a class [C] of code units: every maximal
    run of them is replaced by [by]; [inside] tells that the code unit
    before belongs to the run being replaced. *)
Fixpoint squeeze_from (class : ascii → bool) (by_ : string) (inside : bool) (s : string)
  : string :=
  match s with
  | EmptyString => EmptyString
  | String c rest =>
      if class c then
        (if inside then squeeze_from class by_ true rest
         else by_ +:+ squeeze_from class by_ true rest)
      else String c (squeeze_from class by_ false rest)
  end.

Definition squeeze (class : ascii → bool) (by_ : string) (s : string) : string :=
  squeeze_from class by_ false s.

(** [s.replace(/^-|-$/g, '')]: a dash at the first position is removed;
    at any later position a dash is removed when it is the last code
    unit. *)
Fixpoint drop_last_dash (s : string) : string :=
  match s with
  | EmptyString => EmptyString
  | String c EmptyString => if is_dash c then EmptyString else s
  | String c rest => String c (drop_last_dash rest)
  end.

Definition strip_dashes (s : string) : string :=
  match s with
  | String c rest => if is_dash c then drop_last_dash rest else drop_last_dash s
  | EmptyString => EmptyString
  end.

(** [s.trim()] *)
Fixpoint trim_start (s : string) : string :=
  match s with
  | String c rest => if is_space c then trim_start rest else s
  | EmptyString => EmptyString
  end.

(** The text without the white space at its end. *)
Fixpoint trim_end (s : string) : string :=
  match s with
  | EmptyString => EmptyString
  | String c rest =>
      match trim_end rest with
      | EmptyString => if is_space c then EmptyString else String c EmptyString
      | kept => String c kept
      end
  end.

Definition trim (s : string) : string := trim_end (trim_start s).

(** [s.split(/\s+/)]: the pieces between the maximal runs of white
    space, which is what splitting at spaces gives once every run has
    been made one space. *)
Definition split_spaces (s : string) : list string :=
  split_on " " (squeeze is_space " " s).

(** [tags.add(tag)] on a [Set], kept in insertion order. *)
Definition set_add (tag : string) (tags : list string) : list string :=
  if existsb (String.eqb tag) tags then tags else tags ++ [tag].

Record SEOData : Type := mkSEOData {
  title : string;
  description : string;
  tags : list string;
  metaTitle : string;
  metaDescription : string;
  urlSlug : string
}.

(** The argument of [generateOptimizedSEO]; [None] is an absent (or
    [undefined]) property. *)
Record ProductData : Type := mkProductData {
  productName : option string;
  productDescription : option string;
  category : option string;
  keywords : option (list string)
}.

Section Generator.

(** [String.prototype.toLowerCase] and [String.prototype.toUpperCase] *)
Variable toLowerCase : string → string.
Variable toUpperCase : string → string.

Definition optimizeTitle (title : string) : string :=
  slice0 70
    (join " "
       ((λ word, toUpperCase (charAt0 word) +:+ toLowerCase (slice1 word))
          <$> split_on " " title)).

Definition optimizeDescription (description : string) : string :=
  slice0 500
    (if String.length description <? 50
     then description
          +:+ " Premium quality product with exceptional value and customer satisfaction."
     else description).

(** The words of the product name that become tags. *)
Definition meaningful (stop : list string) (word : string) : bool :=
  (3 <? String.length word) && negb (existsb (String.eqb word) stop).

(** [generateTags] with the stop list as an argument. *)
Definition generateTags_with (stop : list string) (productName : string)
    (category : option string) (keywords : list string) : list string :=
  let tags0 :=
    match category with
    | Some c => if String.eqb c "" then [] else set_add (toLowerCase c) []
    | None => []
    end in
  let tags1 := foldl (λ tags keyword, set_add (toLowerCase keyword) tags) tags0 keywords in
  let words := split_spaces (toLowerCase productName) in
  let tags2 :=
    foldl (λ tags word, if meaningful stop word then set_add word tags else tags)
      tags1 words in
  take 10 tags2.

Definition generateTags (productName : string) (category : option string)
    (keywords : list string) : list string :=
  generateTags_with ["the"; "and"; "with"; "for"] productName category keywords.

Definition generateMetaTitle (productName : string) (category : option string) : string :=
  let parts :=
    [productName]
    ++ match category with
       | Some c => if String.eqb c "" then [] else ["- " +:+ c]
       | None => []
       end
    ++ ["| Store"] in
  slice0 60 (join " " parts).

Definition generateMetaDescription (description : string) : string :=
  let cleaned := trim (squeeze is_space " " description) in
  if 155 <? String.length cleaned then slice0 152 cleaned +:+ "..." else cleaned.

Definition generateUrlSlug (productName : string) : string :=
  slice0 50
    (strip_dashes
       (squeeze is_dash "-"
          (squeeze is_space "-"
             (keep_chars (λ c, is_lower_alnum c || is_space c || is_dash c)
                (toLowerCase productName))))).

Definition generateOptimizedSEO (data : ProductData) : SEOData :=
  let name := default "" (productName data) in
  let text := default "" (productDescription data) in
  let description := optimizeDescription (if String.eqb text "" then name else text) in
  {| title := optimizeTitle name;
     description := description;
     tags := generateTags name (category data) (default [] (keywords data));
     metaTitle := generateMetaTitle name (category data);
     metaDescription := generateMetaDescription description;
     urlSlug := generateUrlSlug name |}.

End Generator.

(** *** What the statements about texts are written with *)

Fixpoint all_chars (p : ascii → bool) (s : string) : bool :=
  match s with
  | EmptyString => true
  | String c rest => p c && all_chars p rest
  end.

(** No two code units of the class stand next to each other. *)
Fixpoint no_run (class : ascii → bool) (s : string) : bool :=
  match s with
  | String c ((String d _) as rest) => negb (class c && class d) && no_run class rest
  | _ => true
  end.

Definition first_char (s : string) : option ascii :=
  match s with
  | String c _ => Some c
  | EmptyString => None
  end.

Fixpoint last_char (s : string) : option ascii :=
  match s with
  | EmptyString => None
  | String c EmptyString => Some c
  | String _ rest => last_char rest
  end.

(** [[a-z0-9-]] *)
Definition is_slug_char (c : ascii) : bool := is_lower_alnum c || is_dash c.

End SeoContent.

(** ** The Square environment

    [SquareEnvironmentManager]: the configuration it detects from the
    host name, the addresses it builds, its safety checks and the page
    it recognises from the path of the address. *)

Module Environment.

Inductive EnvironmentName : Type :=
| production
| sandbox
| test.

Record SquareEnvironmentConfig : Type := mkEnvironment {
  baseUrl : string;
  apiUrl : option string;
  environment : EnvironmentName;
  debug : bool
}.

(** [hostname] is [window.location.hostname]. *)
Definition detectEnvironment (hostname : string) : SquareEnvironmentConfig :=
  if Factory.includes "squareup.com" hostname then
    {| baseUrl := "https://squareup.com";
       apiUrl := Some "https://api.squareup.com";
       environment := production;
       debug := false |}
  else if Factory.includes "squareupsandbox.com" hostname then
    {| baseUrl := "https://squareupsandbox.com";
       apiUrl := Some "https://api.squareupsandbox.com";
       environment := sandbox;
       debug := true |}
  else
    {| baseUrl := "http://localhost:3000";
       apiUrl := None;
       environment := test;
       debug := true |}.

Inductive OperationType : Type :=
| op_write
| op_delete
| op_bulk.

Section Manager.

(** The configuration of the manager, set by its constructor. *)
Variable config : SquareEnvironmentConfig.

Definition getBaseUrl : string := baseUrl config.

Definition getCatalogUrl : string := baseUrl config +:+ "/dashboard/items/library".

Definition getItemUrl (itemId : string) : string :=
  baseUrl config +:+ "/dashboard/items/" +:+ itemId +:+ "/edit".

Definition getInventoryUrl : string := baseUrl config +:+ "/dashboard/inventory".

Definition getSEOSettingsUrl : string := baseUrl config +:+ "/dashboard/online/seo".

Definition getDashboardUrl : string := baseUrl config +:+ "/dashboard".

Definition isProduction : bool :=
  match environment config with production => true | _ => false end.

Definition isSandbox : bool :=
  match environment config with sandbox => true | _ => false end.

Definition isTest : bool :=
  match environment config with test => true | _ => false end.

Definition isDebugMode : bool := debug config.

Definition isSafeForTesting : bool := negb isProduction || isDebugMode.

Definition shouldConfirmOperation (operationType : OperationType) : bool :=
  if isProduction && negb isDebugMode then true
  else match operationType with
       | op_delete | op_bulk => true
       | op_write => false
       end.

End Manager.

(** [path] is [window.location.pathname]. *)
Definition detectCurrentPage (path : string) : string :=
  if Factory.includes "/dashboard/items" path && Factory.includes "/edit" path
  then "item-edit"
  else if Factory.includes "/dashboard/items/library" path then "items-library"
  else if Factory.includes "/dashboard/items" path then "item-detail"
  else if Factory.includes "/dashboard/inventory" path then "inventory"
  else if Factory.includes "/dashboard/online/seo" path then "seo-settings"
  else if Factory.includes "/dashboard" path then "dashboard"
  else "unknown".

End Environment.

(** ** The page detection service

    [PageDetectionService]: the observers, the stored context and the
    detection of a change.  An observer is a callback, told from the
    others by its identity; what a call of it does (it may register or
    remove observers, and it may throw) is a parameter.  The timers and
    the DOM observer that decide when a detection runs are not part of
    the model: a detection is an input. *)

Module PageDetection.

Import Stdlib.Strings.Ascii.
Import Environment.

Local Open Scope list_scope.
Local Open Scope nat_scope.

(** [PageContext] of [types.ts] *)
Record PageContext : Type := mkPageContext {
  url : string;
  pageType : Factory.PageType;
  itemId : option string;
  timestamp : Z
}.

(** What a detection reads of [window.location]. *)
Record Location : Type := mkLocation {
  href : string;
  pathname : string
}.

(** A code unit that an address carries as it is, and that ends
    neither a path segment nor the path: a letter, a digit, [-] or
    [_]. *)
Definition is_plain (c : ascii) : bool :=
  let n := nat_of_ascii c in
  ((97 <=? n) && (n <=? 122)) || ((65 <=? n) && (n <=? 90))
  || ((48 <=? n) && (n <=? 57)) || (n =? 45) || (n =? 95).

(** The identity of a callback. *)
Definition Observer : Type := nat.

Record PageDetectionService : Type := mkService {
  observers : list Observer;
  currentContext : option PageContext
}.

Definition created : PageDetectionService :=
  {| observers := []; currentContext := None |}.

(** What a detection does, in order: the line it logs, the observers
    it calls, the errors of observers it reports. *)
Inductive Event : Type :=
| Announced (from : option Factory.PageType) (to : Factory.PageType) (url : string)
| Called (observer : Observer) (context : PageContext)
| Reported (observer : Observer).

Definition onPageChange (callback : Observer) (s : PageDetectionService)
  : PageDetectionService :=
  {| observers := observers s ++ [callback]; currentContext := currentContext s |}.

Definition removeObserver (callback : Observer) (s : PageDetectionService)
  : PageDetectionService :=
  {| observers := List.filter (λ obs, negb (obs =? callback)) (observers s);
     currentContext := currentContext s |}.

Definition detectPageType (detectedType : string) : Factory.PageType :=
  if String.eqb detectedType "dashboard" then Factory.dashboard
  else if String.eqb detectedType "items-library" then Factory.items_library
  else if String.eqb detectedType "item-detail" then Factory.item_detail
  else if String.eqb detectedType "item-edit" then Factory.item_edit
  else if String.eqb detectedType "inventory" then Factory.inventory
  else if String.eqb detectedType "seo-settings" then Factory.seo_settings
  else Factory.unknown.

Definition not_slash (c : ascii) : bool := negb (Ascii.eqb c "/").

Fixpoint take_while (p : ascii → bool) (s : string) : string :=
  match s with
  | String c rest => if p c then String c (take_while p rest) else EmptyString
  | EmptyString => EmptyString
  end.

Fixpoint skip (n : nat) (s : string) : string :=
  match n, s with
  | S n', String _ rest => skip n' rest
  | _, _ => s
  end.

(** A match of [/\/items\/([^\/]+)/] that starts at the first code
    unit of [s]: its group, the longest run without a slash after
    [/items/], which must not be empty. *)
Definition items_here (s : string) : option string :=
  if String.prefix "/items/" s then
    match take_while not_slash (skip 7 s) with
    | EmptyString => None
    | run => Some run
    end
  else None.

(** [url.match(/\/items\/([^\/]+)/)]: the group of the leftmost
    match. *)
Fixpoint match_items (s : string) : option string :=
  match items_here s with
  | Some group => Some group
  | None =>
      match s with
      | String _ rest => match_items rest
      | EmptyString => None
      end
  end.

Definition extractItemId (url : string) (pageType : Factory.PageType) : option string :=
  match pageType with
  | Factory.item_detail | Factory.item_edit => match_items url
  | _ => None
  end.

Definition buildPageContext (location : Location) (now : Z) : PageContext :=
  let pageType := detectPageType (detectCurrentPage (pathname location)) in
  {| url := href location;
     pageType := pageType;
     itemId := extractItemId (href location) pageType;
     timestamp := now |}.

Definition hasContextChanged (oldContext newContext : PageContext) : bool :=
  negb (String.eqb (url oldContext) (url newContext))
  || bool_decide (pageType oldContext ≠ pageType newContext)
  || bool_decide (itemId oldContext ≠ itemId newContext).

(** [!this.currentContext || this.hasContextChanged(this.currentContext, newContext)] *)
Definition is_news (newContext : PageContext) (s : PageDetectionService) : bool :=
  match currentContext s with
  | None => true
  | Some oldContext => hasContextChanged oldContext newContext
  end.

Section Callbacks.

(** [react observer context registered]: the observers registered
    after the call of [observer], given those registered before it, and
    whether the call throws. *)
Variable react : Observer → PageContext → list Observer → list Observer * bool.

Definition notify_one (context : PageContext) (acc : list Observer * list Event)
    (observer : Observer) : list Observer * list Event :=
  let '(registered, threw) := react observer context acc.1 in
  (registered,
   acc.2 ++ Called observer context :: (if threw then [Reported observer] else [])).

(** [forEach] visits the observers that are registered when it
    starts. *)
Definition notifyObservers (context : PageContext) (s : PageDetectionService)
  : PageDetectionService * list Event :=
  let '(registered, trace) :=
    foldl (notify_one context) (observers s, []) (observers s) in
  ({| observers := registered; currentContext := currentContext s |}, trace).

(** [detectPageChange] from its comparison on, which runs without
    interruption once the new context is built. *)
Definition announce (newContext : PageContext) (s : PageDetectionService)
  : PageDetectionService * list Event :=
  if is_news newContext s then
    let '(s', trace) :=
      notifyObservers newContext
        {| observers := observers s; currentContext := Some newContext |} in
    (s', Announced (pageType <$> currentContext s) (pageType newContext) (url newContext)
           :: trace)
  else (s, []).

Definition detectPageChange (location : Location) (now : Z) (s : PageDetectionService)
  : PageDetectionService * list Event :=
  announce (buildPageContext location now) s.

(** The context is [None] where the code answers [null]. *)
Definition getCurrentContext (location : Location) (now : Z) (s : PageDetectionService)
  : PageDetectionService * list Event * option PageContext :=
  match currentContext s with
  | Some context => (s, [], Some context)
  | None =>
      let '(s', trace) := detectPageChange location now s in
      (s', trace, currentContext s')
  end.

End Callbacks.

(** *** What the statements about detections are written with *)

(** The item of a context is the one its address and its page type
    give. *)
Definition consistent (context : PageContext) : Prop :=
  itemId context = extractItemId (url context) (pageType context).

(** The stored context, if any, is consistent. *)
Definition healthy (s : PageDetectionService) : Prop :=
  match currentContext s with
  | Some context => consistent context
  | None => True
  end.

(** The calls of observers in a trace, in order. *)
Definition calls (trace : list Event) : list (Observer * PageContext) :=
  flat_map (λ ev, match ev with Called o c => [(o, c)] | _ => [] end) trace.

End PageDetection.

(** ** Further concrete inputs *)

Module Inputs.

(** Three items for a catalog agent nobody registered, by batches of
    two. *)
Definition orphaned : @Bulk.BulkOperationConfig unit :=
  {| Bulk.cfg_type := "catalog-bulk-sync";
     Bulk.agentType := "catalog";
     Bulk.items := VNum <$> [1; 2; 3]%Z;
     Bulk.batchSize := Some (Bulk.Int 2);
     Bulk.delayBetweenBatches := None;
     Bulk.onProgress := None |}.

(** No item at all, with a batch size below zero. *)
Definition nothing {W : Type} : @Bulk.BulkOperationConfig W :=
  {| Bulk.cfg_type := "seo-bulk-update";
     Bulk.agentType := "seo";
     Bulk.items := [];
     Bulk.batchSize := Some (Bulk.Int (-1));
     Bulk.delayBetweenBatches := Some (Bulk.Int 100);
     Bulk.onProgress := None |}.

(** Two steps that share the operation name ["extract"]: the first
    fails (the SEO agent of [Samples]), the second succeeds. *)
Definition extractSeo : @Workflow.Step :=
  {| Workflow.agentType := "seo"; Workflow.operation := "extract";
     Workflow.step_data := VNull; Workflow.dependsOn := None;
     Workflow.critical := false |}.

Definition extractCatalog : @Workflow.Step :=
  {| Workflow.agentType := "catalog"; Workflow.operation := "extract";
     Workflow.step_data := VNull; Workflow.dependsOn := None;
     Workflow.critical := false |}.

(** A step that waits for ["extract"]. *)
Definition afterExtract : @Workflow.Step :=
  {| Workflow.agentType := "catalog"; Workflow.operation := "pricing";
     Workflow.step_data := VNull; Workflow.dependsOn := Some ["extract"];
     Workflow.critical := false |}.

(** Two steps that wait for each other. *)
Definition syncAfterInventory : @Workflow.Step :=
  {| Workflow.agentType := "catalog"; Workflow.operation := "sync";
     Workflow.step_data := VNull; Workflow.dependsOn := Some ["inventory"];
     Workflow.critical := false |}.

Definition inventoryAfterSync : @Workflow.Step :=
  {| Workflow.agentType := "catalog"; Workflow.operation := "inventory";
     Workflow.step_data := VNull; Workflow.dependsOn := Some ["sync"];
     Workflow.critical := false |}.

Definition deadlock : @Workflow.WorkflowDef :=
  {| Workflow.name := "Sync and count";
     Workflow.steps := [syncAfterInventory; inventoryAfterSync] |}.

(** The edit page of item [ABC123] on the production host, seen twice. *)
Definition editPage : PageDetection.Location :=
  {| PageDetection.href := "https://squareup.com/dashboard/items/ABC123/edit";
     PageDetection.pathname := "/dashboard/items/ABC123/edit" |}.

(** An observer that throws and removes itself, others that do
    nothing. *)
Definition touchy (observer : PageDetection.Observer) (context : PageDetection.PageContext)
    (registered : list PageDetection.Observer) : list PageDetection.Observer * bool :=
  if (observer =? 1)%nat
  then (List.filter (λ obs, negb (obs =? 1)%nat) registered, true)
  else (registered, false).

(** The library page of the production host. *)
Definition libraryPage : PageDetection.Location :=
  {| PageDetection.href := "https://squareup.com/dashboard/items/library";
     PageDetection.pathname := "/dashboard/items/library" |}.

(** A service with three registrations, and the same once it has seen
    [editPage]. *)
Definition registered : PageDetection.PageDetectionService :=
  PageDetection.onPageChange 2
    (PageDetection.onPageChange 1
       (PageDetection.onPageChange 2 PageDetection.created)).

Definition watching : PageDetection.PageDetectionService :=
  (PageDetection.detectPageChange touchy editPage 1000 registered).1.

End Inputs.

(** * Properties of the workflow runner *)

Module WorkflowProps.

Import Workflow WorkflowSpec.

Local Open Scope list_scope.
Local Open Scope nat_scope.

Section Facts.

Context {W : Type} (agents : gmap string (@Agent W)).


Lemma run_steps_app (pre post : list Step) (st : RunState) :
  run_steps agents (pre ++ post) st =
  match run_steps agents pre st with
  | (st', Next) => run_steps agents post st'
  | stopped => stopped
  end.
Proof.
  revert st. induction pre as [|s pre IH]; intros st; simpl; [done|].
  destruct (exec_step agents s st) as [st' []]; auto.
Qed.

Lemma exec_step_blocked (step : Step) (st : RunState) :
  blocked step (stepResults st) = true →
  exec_step agents step st =
  (record step (failedResult step) (world st) false st,
   if critical step then Break else Next).
Proof. intros Hg. unfold exec_step. by rewrite Hg. Qed.

Lemma exec_step_fulfilled (step : Step) (st : RunState) (result : AgentResult) (w' : W) :
  blocked step (stepResults st) = false →
  dispatch agents step (world st) = (Fulfilled result, w') →
  exec_step agents step st =
  (record step result w' true st,
   if negb (success result) && critical step then Break else Next).
Proof. intros Hg Hd. unfold exec_step. by rewrite Hg, Hd. Qed.

Lemma exec_step_rejected (step : Step) (st : RunState) (e : string) (w' : W) :
  blocked step (stepResults st) = false →
  dispatch agents step (world st) = (Rejected e, w') →
  (exec_step agents step st).2 = Raise e
  ∧ results (exec_step agents step st).1 = results st.
Proof. intros Hg Hd. unfold exec_step. by rewrite Hg, Hd. Qed.

(** A dependency that is missing or unsuccessful blocks the step. *)
Lemma blocked_by_unmet (step : Step) (known : gmap string AgentResult)
    (deps : list string) (dep : string) :
  dependsOn step = Some deps →
  dep ∈ deps →
  (∀ r, known !! dep = Some r → success r = false) →
  blocked step known = true.
Proof.
  intros Hdeps Hin Hunmet. unfold blocked. rewrite Hdeps.
  apply negb_true_iff, not_true_is_false. intros Hall.
  unfold dependenciesMet in Hall. rewrite forallb_forall in Hall.
  specialize (Hall dep (proj1 (list_elem_of_In _ _) Hin)).
  destruct (known !! dep) as [r|] eqn:Hr; [|done].
  rewrite (Hunmet r eq_refl) in Hall. done.
Qed.

(** The loop visits the steps in order: what it has attempted is a
    prefix of what it was given, all of it when it was not stopped. *)
Lemma run_steps_attempted (todo : list Step) (st : RunState) :
  ∃ k, attempted (run_steps agents todo st).1 = attempted st ++ take k todo
       ∧ ((run_steps agents todo st).2 = Next → k = length todo)
       ∧ (todo ≠ [] → 0 < k).
Proof.
  revert st. induction todo as [|s todo IH]; intros st; simpl.
  - exists 0. by rewrite app_nil_r.
  - assert (Hatt : attempted (exec_step agents s st).1 = attempted st ++ [s]).
    { unfold exec_step. destruct (blocked s (stepResults st)); [done|].
      by destruct (dispatch agents s (world st)) as [[r|e] w']. }
    destruct (exec_step agents s st) as [st' c] eqn:Hstep. simpl in Hatt.
    destruct c.
    + destruct (IH st') as (k & Hk & Hall & _). exists (S k).
      rewrite Hk, Hatt, <- app_assoc. simpl. split; [done|].
      split; [intros Hn; by rewrite (Hall Hn) | lia].
    + exists 1. simpl. rewrite take_0. split; [done|]. split; [done | lia].
    + exists 1. simpl. rewrite take_0. split; [done|]. split; [done | lia].
Qed.

(** Without [dependsOn] no step is refused by the dependency check. *)
Lemma not_blocked (step : Step) (known : gmap string AgentResult) :
  dependsOn step = None → blocked step known = false.
Proof. intros Hnone. unfold blocked. by rewrite Hnone. Qed.

(** For steps without [dependsOn], the results the loop adds are, in
    order, the outcomes of a prefix of the steps; of all of them when no
    outcome stops the loop. *)
Lemma run_steps_independent (todo : list Step) (st : RunState) :
  Forall (λ s, dependsOn s = None) todo →
  ∃ rs, results (run_steps agents todo st).1 = results st ++ rs
        ∧ Fulfilled <$> rs = take (length rs) (dispatch_all agents todo (world st))
        ∧ length rs ≤ length todo
        ∧ (forallb (uncurry harmless) (zip todo (dispatch_all agents todo (world st))) = true →
           length rs = length todo).
Proof.
  intros Hfree. revert st.
  induction Hfree as [|s todo Hs _ IH]; intros st; simpl.
  - exists []. by rewrite app_nil_r.
  - unfold exec_step. rewrite (not_blocked s _ Hs).
    destruct (dispatch agents s (world st)) as [[r|e] w'] eqn:Hd; simpl.
    + destruct (negb (success r) && critical s) eqn:Hstop.
      * exists [r]. simpl. rewrite take_0. repeat split; [lia|].
        unfold harmless at 1. simpl. intros Hall.
        apply andb_true_iff in Hstop. destruct Hstop as [Hr Hc].
        apply negb_true_iff in Hr. rewrite Hr, Hc in Hall. done.
      * destruct (IH (record s r w' true st)) as (rs & Hres & Hpre & Hlen & Hfull).
        exists (r :: rs). simpl in *. rewrite Hres, <- app_assoc. simpl.
        split; [done|]. split; [f_equal; exact Hpre|]. split; [lia|].
        intros Hall. apply andb_true_iff in Hall. destruct Hall as [_ Hall].
        by rewrite (Hfull Hall).
    + exists []. simpl. rewrite app_nil_r. repeat split; [lia|].
      intros Hall. done.
Qed.

(** The loop attempts the steps in order up to and including the first
    one whose iteration leaves it, and all of them when there is none.
    A [break] leaves it after a critical step whose recorded result is
    unsuccessful, an exception when the dispatch of a step throws. *)
Lemma run_steps_stops (todo : list Step) (st : RunState) :
  ∃ k, k ≤ length todo
       ∧ attempted (run_steps agents todo st).1 = attempted st ++ take k todo
       ∧ match (run_steps agents todo st).2 with
         | Next => k = length todo
         | Break =>
             ∃ stopper stk r,
               0 < k ∧ todo !! (k - 1) = Some stopper
               ∧ run_steps agents (take (k - 1) todo) st = (stk, Next)
               ∧ critical stopper = true
               ∧ last (results (run_steps agents todo st).1) = Some r
               ∧ success r = false
         | Raise e =>
             ∃ stopper stk,
               0 < k ∧ todo !! (k - 1) = Some stopper
               ∧ run_steps agents (take (k - 1) todo) st = (stk, Next)
               ∧ blocked stopper (stepResults stk) = false
               ∧ (dispatch agents stopper (world stk)).1 = Rejected e
         end.
Proof.
  revert st. induction todo as [|s todo IH]; intros st.
  - exists 0. simpl. by rewrite app_nil_r.
  - cbn [run_steps].
    assert (Hatt : attempted (exec_step agents s st).1 = attempted st ++ [s]).
    { unfold exec_step. destruct (blocked s (stepResults st)); [done|].
      by destruct (dispatch agents s (world st)) as [[r|e] w']. }
    destruct (exec_step agents s st) as [st1 c] eqn:Hstep. cbn [fst] in Hatt.
    destruct c.
    + destruct (IH st1) as (k & Hk & Hpre & Hexit). exists (S k).
      split; [simpl; lia|]. split; [by rewrite Hpre, Hatt, <- app_assoc|].
      destruct (run_steps agents todo st1) as [st2 [| |e]] eqn:Hrun; cbn [fst snd] in *.
      * simpl. lia.
      * destruct Hexit as (stopper & stk & r & Hpos & Hlook & Hbefore & Hrest).
        exists stopper, stk, r. split; [lia|].
        replace (S k - 1) with (S (k - 1)) by lia. cbn [lookup list_lookup take run_steps].
        by rewrite Hstep.
      * destruct Hexit as (stopper & stk & Hpos & Hlook & Hbefore & Hrest).
        exists stopper, stk. split; [lia|].
        replace (S k - 1) with (S (k - 1)) by lia. cbn [lookup list_lookup take run_steps].
        by rewrite Hstep.
    + exists 1. cbn [fst snd]. split; [simpl; lia|]. split; [by rewrite Hatt|].
      unfold exec_step in Hstep.
      destruct (blocked s (stepResults st)) eqn:Hblock.
      * injection Hstep as <- Hc. exists s, st, (failedResult s).
        cbn [results record]. rewrite last_snoc.
        destruct (critical s); [|done]. conjs; first [lia | done].
      * destruct (dispatch agents s (world st)) as [[r|e] w'] eqn:Hd; [|done].
        injection Hstep as <- Hc. exists s, st, r.
        cbn [results record]. rewrite last_snoc.
        destruct (success r) eqn:Hr, (critical s); try done. conjs; first [lia | done].
    + exists 1. cbn [fst snd]. split; [simpl; lia|]. split; [by rewrite Hatt|].
      unfold exec_step in Hstep.
      destruct (blocked s (stepResults st)) eqn:Hblock.
      * by destruct (critical s).
      * destruct (dispatch agents s (world st)) as [[r|e'] w'] eqn:Hd.
        -- by destruct (negb (success r) && critical s).
        -- injection Hstep as <- <-. exists s, st. rewrite Hd. conjs; first [lia | done].
Qed.

(** C2, in the form the code satisfies — a critical step whose
    dispatched result is unsuccessful ends the loop at once: the run
    stops in the state that records this result, nothing later is
    attempted or dispatched; in particular the workflow
    [[stepA (critical, fails); stepB ...]] returns exactly the failed
    result of [stepA], with [success = false], and only [stepA] was
    dispatched.  The unsuccessful result of a step that is not critical
    does not stop the loop: it goes on with the remaining steps from the
    state that records the result, so the next step is attempted; the
    later steps are attempted in order up to and including the first
    one that leaves the loop (a critical step whose recorded result is
    unsuccessful, or a step whose dispatch throws), and all of them
    when there is none. *)
Theorem critical_failure_halts (pre rest : list Step) (step : Step) (st0 st : RunState)
    (result : AgentResult) (w' : W) :
  run_steps agents pre st0 = (st, Next) →
  blocked step (stepResults st) = false →
  dispatch agents step (world st) = (Fulfilled result, w') →
  success result = false →
  let st' := record step result w' true st in
  (critical step = true →
     run_steps agents (pre ++ step :: rest) st0 = (st', Break)
     ∧ dispatched st' = dispatched st ++ [step]
     ∧ attempted st' = attempted st ++ [step]
     ∧ ∀ wfname w, pre = [] → st0 = initial w →
         executeEnhancedWorkflow agents {| name := wfname; steps := step :: rest |} w =
           {| wf_success := false;
              wf_results := [result];
              wf_message := "Enhanced workflow '" +:+ wfname
                            +:+ "' completed: 0/1 steps successful" |}
         ∧ dispatched (run agents {| name := wfname; steps := step :: rest |} w).1 = [step])
  ∧ (critical step = false →
     run_steps agents (pre ++ step :: rest) st0 = run_steps agents rest st'
     ∧ (∀ next rest', rest = next :: rest' →
          next ∈ attempted (run_steps agents rest st').1)
     ∧ ((run_steps agents rest st').2 = Next →
          attempted (run_steps agents rest st').1 = attempted st ++ step :: rest)
     ∧ ∃ k, k ≤ length rest
         ∧ attempted (run_steps agents rest st').1 = attempted st ++ step :: take k rest
         ∧ match (run_steps agents rest st').2 with
           | Next => k = length rest
           | Break =>
               ∃ stopper stk r,
                 0 < k ∧ rest !! (k - 1) = Some stopper
                 ∧ run_steps agents (take (k - 1) rest) st' = (stk, Next)
                 ∧ critical stopper = true
                 ∧ last (results (run_steps agents rest st').1) = Some r
                 ∧ success r = false
           | Raise e =>
               ∃ stopper stk,
                 0 < k ∧ rest !! (k - 1) = Some stopper
                 ∧ run_steps agents (take (k - 1) rest) st' = (stk, Next)
                 ∧ blocked stopper (stepResults stk) = false
                 ∧ (dispatch agents stopper (world stk)).1 = Rejected e
           end).
Proof.
  intros Hpre Hblock Hsent Hfail st'.
  assert (Hrun : run_steps agents (pre ++ step :: rest) st0 =
                 if critical step then (st', Break) else run_steps agents rest st').
  { rewrite run_steps_app, Hpre. simpl.
    rewrite (exec_step_fulfilled step st result w' Hblock Hsent), Hfail.
    simpl. by destruct (critical step). }
  split; intros Hcrit; rewrite Hcrit in Hrun.
  - split; [done|]. split; [done|]. split; [done|].
    intros wfname w -> ->. simpl in Hpre. injection Hpre as <-.
    change ([] ++ step :: rest) with (step :: rest) in Hrun.
    unfold executeEnhancedWorkflow, run. cbn [steps]. rewrite Hrun.
    split; [|done].
    unfold conclude, successes. simpl.
    rewrite filter_cons_False by (rewrite Hfail; done). done.
  - split; [done|].
    destruct (run_steps_attempted rest st') as (k & Hk & Hall & Hpos).
    split.
    + intros next rest' ->. rewrite Hk.
      destruct k as [|k]; [specialize (Hpos ltac:(done)); lia|].
      simpl. apply elem_of_app. right. apply list_elem_of_here.
    + split.
      * intros Hnext. rewrite Hk, (Hall Hnext), firstn_all.
        subst st'. simpl. by rewrite <- app_assoc.
      * destruct (run_steps_stops rest st') as (k' & Hle & Hatt & Hexit).
        exists k'. split; [done|]. split; [|done].
        rewrite Hatt. subst st'. simpl. by rewrite <- app_assoc.
Qed.

(** C3 — a step one of whose declared dependencies has no recorded
    result, or an unsuccessful one, is not dispatched: the iteration
    records the "dependencies not met" failure for it, leaves the agents
    and the dispatch log untouched, and then stops the whole loop if the
    step is critical, or goes on with the next step if it is not. *)
Theorem unmet_dependency_blocks_dispatch (pre rest : list Step) (step : Step)
    (st0 st : RunState) (deps : list string) (dep : string) :
  run_steps agents pre st0 = (st, Next) →
  dependsOn step = Some deps →
  dep ∈ deps →
  (∀ r, stepResults st !! dep = Some r → success r = false) →
  let st' := record step (failedResult step) (world st) false st in
  success (failedResult step) = false
  ∧ error (failedResult step) = Some ("Dependencies not met for step: " +:+ operation step)
  ∧ results st' = results st ++ [failedResult step]
  ∧ stepResults st' !! operation step = Some (failedResult step)
  ∧ dispatched st' = dispatched st
  ∧ world st' = world st
  ∧ (critical step = true →
       run_steps agents (pre ++ step :: rest) st0 = (st', Break))
  ∧ (critical step = false →
       run_steps agents (pre ++ step :: rest) st0 = run_steps agents rest st').
Proof.
  intros Hpre Hdeps Hin Hunmet st'.
  assert (Hblock : blocked step (stepResults st) = true)
    by (eapply blocked_by_unmet; eauto).
  repeat split; try done.
  - subst st'. simpl. apply lookup_insert_eq.
  - intros Hcrit. rewrite run_steps_app, Hpre. simpl.
    by rewrite (exec_step_blocked step st Hblock), Hcrit.
  - intros Hcrit. rewrite run_steps_app, Hpre. simpl.
    by rewrite (exec_step_blocked step st Hblock), Hcrit.
Qed.

(** C9, in the form the code satisfies — for a workflow whose steps declare no [dependsOn]:
    the returned results are, in declaration order, the results of the
    first steps of the workflow (result [i] is what dispatching step [i]
    returned), never more than there are steps; and when no dispatch
    throws and no critical step returns an unsuccessful result, there is
    one result per step. *)
Theorem independent_steps_results_in_order (workflow : WorkflowDef) (w : W) :
  Forall (λ s, dependsOn s = None) (steps workflow) →
  let outcomes := dispatch_all agents (steps workflow) w in
  let returned := wf_results (executeEnhancedWorkflow agents workflow w) in
  Fulfilled <$> returned = take (length returned) outcomes
  ∧ length returned ≤ length (steps workflow)
  ∧ (forallb (uncurry harmless) (zip (steps workflow) outcomes) = true →
     length returned = length (steps workflow)
     ∧ Fulfilled <$> returned = outcomes).
Proof.
  intros Hfree outcomes returned.
  destruct (run_steps_independent (steps workflow) (initial w) Hfree)
    as (rs & Hres & Hpre & Hlen & Hfull).
  assert (Hret : returned = rs).
  { subst returned. unfold executeEnhancedWorkflow, run.
    destruct (run_steps agents (steps workflow) (initial w)) as [st c].
    simpl in Hres. by destruct c. }
  rewrite Hret. simpl in Hpre. repeat split; try done.
  - by apply Hfull.
  - rewrite Hpre. apply take_ge.
    assert (Hn : length outcomes = length (steps workflow)).
    { subst outcomes. generalize w. clear.
      induction (steps workflow) as [|s l IH]; intros w; simpl; [done|].
      destruct (dispatch agents s w). simpl. by rewrite IH. }
    rewrite Hn, (Hfull H). done.
Qed.


End Facts.

Lemma critical_failure_halts_witness :
  executeEnhancedWorkflow Samples.agents
    {| name := "publish"; steps := [Samples.stepA; Samples.stepB] |} tt =
  {| wf_success := false;
     wf_results := [failure "SEO form not found"];
     wf_message := "Enhanced workflow 'publish' completed: 0/1 steps successful" |}
  ∧ dispatched (run Samples.agents
                  {| name := "publish"; steps := [Samples.stepA; Samples.stepB] |} tt).1
    = [Samples.stepA].
Proof.
  edestruct (critical_failure_halts Samples.agents [] [Samples.stepB] Samples.stepA
               (initial tt) (initial tt) (failure "SEO form not found") tt)
    as [Hcritical _]; [reflexivity | reflexivity | reflexivity | reflexivity |].
  destruct (Hcritical eq_refl) as (_ & _ & _ & Hscenario).
  exact (Hscenario "publish" tt eq_refl eq_refl).
Defined.

Lemma unmet_dependency_blocks_dispatch_witness :
  run_steps Samples.agents [Samples.orphanStep; Samples.syncStep] (initial tt) =
  (record Samples.orphanStep (failedResult Samples.orphanStep) tt false (initial tt), Break)
  ∧ dispatched (record Samples.orphanStep (failedResult Samples.orphanStep) tt false
                  (initial tt)) = [].
Proof.
  edestruct (unmet_dependency_blocks_dispatch Samples.agents [] [Samples.syncStep]
               Samples.orphanStep (initial tt) (initial tt) ["inventory"] "inventory")
    as (_ & _ & _ & _ & Hlog & _ & Hcritical & _);
    [reflexivity | reflexivity | apply list_elem_of_here
     | intros r Hr; vm_compute in Hr; discriminate Hr |].
  split; [exact (Hcritical eq_refl) | exact Hlog].
Defined.

Lemma independent_steps_results_in_order_witness :
  length (wf_results (executeEnhancedWorkflow Samples.agents
            {| name := "refresh"; steps := [Samples.syncStep; Samples.validateStep] |} tt))
  = 2
  ∧ wf_results (executeEnhancedWorkflow Samples.agents
        {| name := "refresh"; steps := [Samples.syncStep; Samples.validateStep] |} tt)
    = [Samples.done; failure "SEO form not found"].
Proof.
  edestruct (independent_steps_results_in_order Samples.agents
               {| name := "refresh"; steps := [Samples.syncStep; Samples.validateStep] |} tt)
    as (_ & _ & Hall); [repeat constructor |].
  destruct (Hall eq_refl) as [Hlen _]. split; [exact Hlen | reflexivity].
Defined.

(** A step that is not critical fails, then a critical one fails: the
    third step is a later step of the first, and it is never
    attempted. *)
Lemma later_step_not_attempted_after_noncritical_failure :
  let workflow := {| name := "refresh";
                     steps := [Samples.validateStep; Samples.stepA; Samples.syncStep] |} in
  let st := (run Samples.agents workflow tt).1 in
  critical Samples.validateStep = false
  ∧ (success <$> results st) !! 0 = Some false
  ∧ dispatched st = [Samples.validateStep; Samples.stepA]
  ∧ Samples.syncStep ∉ attempted st.
Proof.
  split; [reflexivity|]. split; [reflexivity|]. split; [reflexivity|].
  vm_compute. intros Hin.
  repeat (apply elem_of_cons in Hin as [Heq|Hin]; [discriminate Heq|]).
  by apply elem_of_nil in Hin.
Qed.

(** A critical step that fails in a workflow without [dependsOn]: one
    result for two steps. *)
Lemma results_shorter_than_steps :
  let workflow := {| name := "publish"; steps := [Samples.stepA; Samples.syncStep] |} in
  Forall (λ s, dependsOn s = None) (steps workflow)
  ∧ length (wf_results (executeEnhancedWorkflow Samples.agents workflow tt))
    ≠ length (steps workflow).
Proof.
  split; [repeat constructor | vm_compute; discriminate].
Qed.


End WorkflowProps.

(** * Properties of the bulk executor *)

Module BulkProps.

Import Bulk BulkSpec.

Local Open Scope list_scope.
Local Open Scope nat_scope.

(** *** Numbers *)

Lemma trunc_mono (p q : Q) :
  (p <= q)%Q → (Qnum p ÷ Z.pos (Qden p) ≤ Qnum q ÷ Z.pos (Qden q))%Z.
Proof.
  unfold Qle. intros H.
  rewrite <- (Z.quot_mul_cancel_r (Qnum p) (Z.pos (Qden p)) (Z.pos (Qden q))) by lia.
  rewrite <- (Z.quot_mul_cancel_r (Qnum q) (Z.pos (Qden q)) (Z.pos (Qden p))) by lia.
  rewrite (Z.mul_comm (Z.pos (Qden q)) (Z.pos (Qden p))). apply Z.quot_le_mono; lia.
Qed.

Lemma trunc_inject (a : Z) : (Qnum (inject_Z a) ÷ Z.pos (Qden (inject_Z a)))%Z = a.
Proof. simpl. apply Z.quot_1_r. Qed.

(** The integer part of a number that is not below (not above) an
    integer is not below (not above) it. *)
Lemma trunc_ge (a : Z) (q : Q) :
  (inject_Z a <= q)%Q → (a ≤ Qnum q ÷ Z.pos (Qden q))%Z.
Proof. intros H. pose proof (trunc_mono _ _ H) as Hm. by rewrite trunc_inject in Hm. Qed.

Lemma trunc_le (a : Z) (q : Q) :
  (q <= inject_Z a)%Q → (Qnum q ÷ Z.pos (Qden q) ≤ a)%Z.
Proof. intros H. pose proof (trunc_mono _ _ H) as Hm. by rewrite trunc_inject in Hm. Qed.

Lemma relative_range (len : Z) (x : Number) :
  (0 ≤ len)%Z → (0 ≤ relative len x ≤ len)%Z.
Proof.
  intros Hlen. unfold relative. destruct (toIntegerOrInfinity x) as [t| | | |]; try lia.
  destruct (Z.ltb_spec t 0); lia.
Qed.

Lemma Qle_plus_r (p q : Q) : (0 <= q)%Q → (p <= p + q)%Q.
Proof.
  intros H. rewrite <- (Qplus_0_r p) at 1. by apply Qplus_le_r.
Qed.

Lemma Qle_plus_neg (p q : Q) : (q <= 0)%Q → (p + q <= p)%Q.
Proof.
  intros H. rewrite <- (Qplus_0_r p) at 2. by apply Qplus_le_r.
Qed.

Lemma inject_nonneg (a : Z) : (0 ≤ a)%Z → (0 <= inject_Z a)%Q.
Proof. intros Ha. change (inject_Z 0 <= inject_Z a)%Q. by rewrite <- Zle_Qle. Qed.

Lemma inject_nonpos (a : Z) : (a ≤ 0)%Z → (inject_Z a <= 0)%Q.
Proof. intros Ha. change (inject_Z a <= inject_Z 0)%Q. by rewrite <- Zle_Qle. Qed.

Lemma add_nonneg (i b : Number) : positive b → nonneg i → nonneg (add i b).
Proof.
  destruct i as [a|p| | |], b as [z|q| | |]; simpl; try done; try lia.
  - intros Hq Ha. apply Qle_trans with (inject_Z a); [by apply inject_nonneg|].
    apply Qle_plus_r. by apply Qlt_le_weak.
  - intros Hz Hp. apply Qle_trans with p; [done|]. apply Qle_plus_r, inject_nonneg. lia.
  - intros Hq Hp. apply Qle_trans with p; [done|]. apply Qle_plus_r. by apply Qlt_le_weak.
Qed.

Lemma add_nonpos (i b : Number) : negative b → nonpos i → nonpos (add i b).
Proof.
  destruct i as [a|p| | |], b as [z|q| | |]; simpl; try done; try lia.
  - intros Hq Ha. apply Qle_trans with (inject_Z a); [|by apply inject_nonpos].
    apply Qle_plus_neg. by apply Qlt_le_weak.
  - intros Hz Hp. apply Qle_trans with p; [|done]. apply Qle_plus_neg, inject_nonpos. lia.
  - intros Hq Hp. apply Qle_trans with p; [|done]. apply Qle_plus_neg. by apply Qlt_le_weak.
Qed.

(** The integer part of a sum, against the integer part of its first
    term. *)
Lemma toInteger_add_ge (i b : Number) :
  positive b → nonneg i →
  match toIntegerOrInfinity i, toIntegerOrInfinity (add i b) with
  | Int s, Int t => (0 ≤ s ≤ t)%Z
  | Int s, Infinity => (0 ≤ s)%Z
  | Infinity, Infinity => True
  | _, _ => False
  end.
Proof.
  destruct i as [a|p| | |], b as [z|q| | |];
    cbn [toIntegerOrInfinity add positive negative nonneg nonpos]; try done; try lia.
  - intros Hq Ha. split; [done|]. apply trunc_ge, Qle_plus_r. by apply Qlt_le_weak.
  - intros Hz Hp. split; [by apply (trunc_ge 0)|].
    apply trunc_mono, Qle_plus_r, inject_nonneg. lia.
  - intros Hq Hp. split; [by apply (trunc_ge 0)|].
    apply trunc_mono, Qle_plus_r. by apply Qlt_le_weak.
  - intros _ Hp. by apply (trunc_ge 0).
Qed.

Lemma toInteger_add_le (i b : Number) :
  negative b → nonpos i →
  match toIntegerOrInfinity i, toIntegerOrInfinity (add i b) with
  | Int s, Int t => (t ≤ s ≤ 0)%Z
  | Int s, NegInfinity => (s ≤ 0)%Z
  | NegInfinity, NegInfinity => True
  | _, _ => False
  end.
Proof.
  destruct i as [a|p| | |], b as [z|q| | |];
    cbn [toIntegerOrInfinity add positive negative nonneg nonpos]; try done; try lia.
  - intros Hq Ha. split; [|done]. apply trunc_le, Qle_plus_neg. by apply Qlt_le_weak.
  - intros Hz Hp. split; [|by apply (trunc_le 0)].
    apply trunc_mono, Qle_plus_neg, inject_nonpos. lia.
  - intros Hq Hp. split; [|by apply (trunc_le 0)].
    apply trunc_mono, Qle_plus_neg. by apply Qlt_le_weak.
  - intros _ Hp. by apply (trunc_le 0).
Qed.

(** With a positive step the position of the index does not go
    back. *)
Lemma relative_add_ge (len : Z) (i b : Number) :
  positive b → nonneg i → (0 ≤ len)%Z →
  (relative len i ≤ relative len (add i b))%Z.
Proof.
  intros Hb Hi Hlen. pose proof (toInteger_add_ge i b Hb Hi) as H. unfold relative.
  destruct (toIntegerOrInfinity i) as [s| | | |],
    (toIntegerOrInfinity (add i b)) as [t| | | |]; try done.
  - destruct (Z.ltb_spec s 0), (Z.ltb_spec t 0); lia.
  - destruct (Z.ltb_spec s 0); lia.
Qed.

(** With a negative step, an index whose position counts from the end
    stays there, and its position does not go forward. *)
Lemma relative_add_le (len : Z) (i b : Number) :
  negative b → nonpos i → toIntegerOrInfinity i ≠ Int 0 →
  (relative len (add i b) ≤ relative len i)%Z.
Proof.
  intros Hb Hi Hstart. pose proof (toInteger_add_le i b Hb Hi) as H. unfold relative.
  destruct (toIntegerOrInfinity i) as [s| | | |],
    (toIntegerOrInfinity (add i b)) as [t| | | |]; try done.
  - assert (s ≠ 0%Z) by congruence.
    destruct (Z.ltb_spec s 0), (Z.ltb_spec t 0); lia.
  - assert (s ≠ 0%Z) by congruence. destruct (Z.ltb_spec s 0); lia.
Qed.

Lemma toInteger_add_zero (i b : Number) :
  negative b → nonpos i →
  toIntegerOrInfinity (add i b) = Int 0 → toIntegerOrInfinity i = Int 0.
Proof.
  intros Hb Hi Hnext. pose proof (toInteger_add_le i b Hb Hi) as H.
  rewrite Hnext in H. destruct (toIntegerOrInfinity i) as [s| | | |]; try done.
  f_equal. lia.
Qed.

Lemma toInteger_zero_dec (x : Number) :
  toIntegerOrInfinity x = Int 0 ∨ toIntegerOrInfinity x ≠ Int 0.
Proof.
  destruct (toIntegerOrInfinity x) as [s| | | |]; try (by right).
  destruct (Z.eq_dec s 0) as [->|Hs]; [by left | right; congruence].
Qed.

Lemma relative_start (len : Z) (i : Number) :
  (0 ≤ len)%Z → toIntegerOrInfinity i = Int 0 → relative len i = 0%Z.
Proof. intros Hlen Hi. unfold relative. rewrite Hi. simpl. lia. Qed.

(** Where the loop test fails the index is at the end of the array, or
    beyond. *)
Lemma relative_end (n : nat) (i : Number) :
  nonneg i → lt_len i n = false → relative (Z.of_nat n) i = Z.of_nat n.
Proof.
  unfold relative. destruct i as [a|p| | |]; simpl; try done.
  - intros Ha Hout. apply Z.ltb_ge in Hout. destruct (Z.ltb_spec a 0); lia.
  - intros Hp Hout. apply negb_false_iff, Qle_bool_iff in Hout.
    pose proof (trunc_ge _ _ Hout).
    destruct (Z.ltb_spec (Qnum p ÷ Z.pos (Qden p)) 0); lia.
Qed.

(** The position of an index that is not positive is not the end of
    the array. *)
Lemma relative_nonpos (len : Z) (x : Number) :
  nonpos x → (0 ≤ len)%Z → (relative len x ≤ Z.max (len - 1) 0)%Z.
Proof.
  unfold relative. destruct x as [a|p| | |]; cbn [toIntegerOrInfinity nonpos]; try done.
  - intros Ha Hlen. destruct (Z.ltb_spec a 0); lia.
  - intros Hp Hlen. pose proof (trunc_le 0 p Hp).
    destruct (Z.ltb_spec (Qnum p ÷ Z.pos (Qden p)) 0); lia.
  - lia.
Qed.

Lemma lt_len_nonpos (n : nat) (i : Number) :
  nonpos i → 0 < n → lt_len i n = true.
Proof.
  destruct i as [a|p| | |]; simpl; try done.
  - intros Ha Hn. apply Z.ltb_lt. lia.
  - intros Hp Hn. apply negb_true_iff. apply not_true_is_false. intros Hle.
    apply Qle_bool_iff in Hle.
    assert (Hpos : (inject_Z (Z.of_nat n) <= inject_Z 0)%Q) by (by apply Qle_trans with p).
    rewrite <- Zle_Qle in Hpos. lia.
Qed.

Lemma index_nonneg (b : Number) (k : nat) : positive b → nonneg (index b k).
Proof.
  intros Hb. induction k as [|k IH]; simpl; [done | by apply add_nonneg].
Qed.

Lemma index_nonpos (b : Number) (k : nat) : negative b → nonpos (index b k).
Proof.
  intros Hb. induction k as [|k IH]; simpl; [done | by apply add_nonpos].
Qed.

Lemma index_Int (b : Z) (k : nat) : index (Int b) k = Int (Z.of_nat k * b).
Proof.
  induction k as [|k IH]; [done|]. cbn [index]. rewrite IH. simpl. f_equal. lia.
Qed.

(** *** Slices *)

Lemma slice_take {A : Type} (l : list A) (x y : Number) :
  slice l x y
  = take (Z.to_nat (relative (Z.of_nat (length l)) y)
          - Z.to_nat (relative (Z.of_nat (length l)) x))
      (drop (Z.to_nat (relative (Z.of_nat (length l)) x)) l).
Proof.
  unfold slice. f_equal.
  pose proof (relative_range (Z.of_nat (length l)) x ltac:(lia)). lia.
Qed.

Lemma slice_length_le {A : Type} (l : list A) (i j : Number) :
  length (slice l i j) ≤ length l.
Proof.
  unfold slice. rewrite length_take, length_drop. lia.
Qed.



(** *** What the batches cover *)

Lemma signed_cases (b : Number) : falsy b = false → positive b ∨ negative b.
Proof.
  destruct b as [z|q| | |]; simpl; try done; try (by left); try (by right).
  - intros Hz. apply Z.eqb_neq in Hz. lia.
  - intros Hq. apply Z.eqb_neq in Hq. unfold Qlt. simpl. lia.
Qed.

(** The batch the loop cuts next is empty when, with a negative batch
    size, the index already counts from the end. *)
Lemma slice_backward {A : Type} (l : list A) (i b : Number) :
  negative b → nonpos i → toIntegerOrInfinity i ≠ Int 0 → slice l i (add i b) = [].
Proof.
  intros Hb Hi Hlater. rewrite slice_take.
  pose proof (relative_add_le (Z.of_nat (length l)) i b Hb Hi Hlater).
  replace (_ - _) with 0 by lia. done.
Qed.

Lemma covered_nil {A : Type} (l : list A) (b : Number) : covered l b [].
Proof.
  split; intros Hb; simpl.
  - unfold relative. simpl. replace (Z.to_nat _) with 0 by lia. done.
  - split; [done | exists 0; split; [lia | done]].
Qed.

Lemma covered_snoc {A : Type} (l : list A) (b : Number) (batches : list (list A)) :
  covered l b batches →
  covered l b
    (batches ++ [slice l (index b (length batches)) (index b (S (length batches)))]).
Proof.
  intros [Hpos Hneg].
  set (batch := slice l (index b (length batches)) (index b (S (length batches)))).
  pose proof (relative_range (Z.of_nat (length l)) (index b (length batches))
                ltac:(lia)) as Hr1.
  pose proof (relative_range (Z.of_nat (length l)) (index b (S (length batches)))
                ltac:(lia)) as Hr2.
  assert (Hlast : length (batches ++ [batch]) = S (length batches))
    by (rewrite length_app; simpl; lia).
  unfold covered. rewrite Hlast, concat_app. simpl. rewrite app_nil_r. split.
  - intros Hb. rewrite (Hpos Hb). subst batch. rewrite slice_take.
    pose proof (relative_add_ge (Z.of_nat (length l)) (index b (length batches)) b Hb
                  (index_nonneg b _ Hb)) as Hmono.
    cbn [index] in Hr2 |- *. rewrite take_take_drop. f_equal. lia.
  - intros Hb. destruct (Hneg Hb) as [Hnone (m & Hm & Hcat)].
    pose proof (index_nonpos b (length batches) Hb) as Hi.
    destruct (toInteger_zero_dec (index b (length batches))) as [Hzero|Hlater].
    + rewrite (Hnone Hzero). subst batch. rewrite slice_take.
      rewrite (relative_start (Z.of_nat (length l)) _ ltac:(lia) Hzero).
      simpl. rewrite drop_0, Nat.sub_0_r.
      split.
      * intros Hnext.
        rewrite (relative_start (Z.of_nat (length l)) _ ltac:(lia) Hnext). done.
      * eexists. split; [|done].
        pose proof (relative_nonpos (Z.of_nat (length l)) _
                      (index_nonpos b (S (length batches)) Hb) ltac:(lia)).
        cbn [index] in *. lia.
    + assert (Hempty : batch = []) by (by apply slice_backward).
      rewrite Hempty, app_nil_r. split; [|by exists m].
      intros Hnext. cbn [index] in Hnext.
      by destruct Hlater; apply (toInteger_add_zero _ b).
Qed.

(** The batches launched so far are, together, a prefix of the items,
    whatever the batch size. *)
Lemma covered_prefix {A : Type} (l : list A) (b : Number) (batches : list (list A)) :
  covered l b batches → positive b ∨ negative b → concat batches `prefix_of` l.
Proof.
  intros [Hpos Hneg] [Hb|Hb].
  - rewrite (Hpos Hb). apply prefix_take.
  - destruct (Hneg Hb) as [_ (m & _ & ->)]. apply prefix_take.
Qed.

Lemma covered_le {A : Type} (l : list A) (b : Number) (batches : list (list A)) :
  covered l b batches → positive b ∨ negative b → length (concat batches) ≤ length l.
Proof. intros Hcover Hb. by apply prefix_length, (covered_prefix l b). Qed.

Lemma covered_room {A : Type} (l : list A) (b : Number) (batches : list (list A)) :
  covered l b batches → positive b ∨ negative b →
  length (concat batches)
  + length (slice l (index b (length batches)) (index b (S (length batches))))
  ≤ length l.
Proof.
  intros Hcover Hb.
  pose proof (covered_le l b _ (covered_snoc l b batches Hcover) Hb) as Hle.
  by rewrite concat_app, length_app in Hle; simpl in Hle; rewrite app_nil_r in Hle.
Qed.

(** Once the loop test fails, every item has been handed out. *)
Lemma covered_all {A : Type} (l : list A) (b : Number) (batches : list (list A)) :
  covered l b batches → positive b ∨ negative b →
  lt_len (index b (length batches)) (length l) = false →
  concat batches = l.
Proof.
  intros [Hpos Hneg] [Hb|Hb] Hout.
  - rewrite (Hpos Hb), (relative_end _ _ (index_nonneg b _ Hb) Hout).
    apply take_ge. lia.
  - destruct l as [|x l].
    + destruct (Hneg Hb) as [_ (m & _ & ->)]. by rewrite take_nil.
    + rewrite (lt_len_nonpos _ _ (index_nonpos b _ Hb)) in Hout by (simpl; lia). done.
Qed.

(** With a negative batch size an item is always left. *)
Lemma covered_short {A : Type} (l : list A) (b : Number) (batches : list (list A)) :
  covered l b batches → negative b → l ≠ [] → length (concat batches) < length l.
Proof.
  intros [_ Hneg] Hb Hl. destruct (Hneg Hb) as [_ (m & Hm & ->)].
  rewrite length_take. destruct l; [done|]. simpl in *. lia.
Qed.


(** *** The end of the loop *)

(** After as many additions of a positive integer as there are items,
    the index is beyond the list. *)
Lemma index_beyond (b : Number) (n : nat) :
  positive b → whole b → lt_len (index b n) n = false.
Proof.
  destruct b as [z|q| | |]; try done; intros Hb _; simpl in Hb.
  - rewrite index_Int. simpl. apply Z.ltb_ge. nia.
  - destruct n as [|n]; [done|]. simpl. by destruct (index Infinity _).
Qed.

(** *** Counting *)

Lemma successes_snoc (rs : list AgentResult) (r : AgentResult) :
  successes (rs ++ [r]) = successes rs + (if success r then 1 else 0).
Proof.
  unfold successes. rewrite filter_app, length_app. f_equal.
  destruct (success r) eqn:Hr.
  - rewrite filter_cons_True by done. done.
  - rewrite filter_cons_False by (rewrite Hr; done). done.
Qed.

Section Facts.

Context {W : Type} (now : W → Z * W) (agents : gmap string (@Agent W)).

Local Abbreviation BulkOperation := (@BulkOperation W).
Local Abbreviation Run := (@Run W).
Local Abbreviation BulkOperationConfig := (@BulkOperationConfig W).

Lemma same_frame_refl (o : BulkOperation) : same_frame o o.
Proof. by repeat split. Qed.

Lemma same_frame_trans (o1 o2 o3 : BulkOperation) :
  same_frame o1 o2 → same_frame o2 o3 → same_frame o1 o3.
Proof.
  unfold same_frame. intros (?&?&?&?&?&?&?&?) (?&?&?&?&?&?&?&?).
  conjs; congruence.
Qed.

Lemma entry_success (item : Value) (outcome : Settled) :
  success (entry item outcome) = succeeded outcome.
Proof.
  destruct outcome as [value|reason]; simpl; [|done].
  by destruct (success value) eqn:Hv.
Qed.

Lemma tally_frame (item : Value) (outcome : Settled) (o : BulkOperation) :
  same_frame o (tally item outcome o).
Proof. by repeat split. Qed.

Lemma tally_results (item : Value) (outcome : Settled) (o : BulkOperation) :
  op_results (tally item outcome o) = op_results o ++ [entry item outcome]
  ∧ processedItems (op_status (tally item outcome o)) = S (processedItems (op_status o)).
Proof. by destruct outcome. Qed.

Lemma tally_sound (item : Value) (outcome : Settled) (o : BulkOperation) :
  sound o → sound (tally item outcome o).
Proof.
  intros (Hc & Hp & Hs). unfold sound, consistent in *.
  destruct (tally_results item outcome o) as [Hres Hproc].
  rewrite Hres, Hproc, length_app, successes_snoc, entry_success. simpl.
  destruct (succeeded outcome); simpl; lia.
Qed.

Lemma forEach_cons (k : nat) (item : Value) (outcome : Settled)
    (rest : list (Value * Settled)) (r : Run) (w : W) :
  forEach k ((item, outcome) :: rest) r w =
  match onProgress (config (op r)) with
  | None =>
      forEach k rest {| op := tally item outcome (op r); pc := pc r;
                        trace := trace r; launched := launched r |} w
  | Some callback =>
      match callback (getStatus (tally item outcome (op r))) w with
      | (Some e, w') =>
          ({| op := tally item outcome (op r); pc := pc r;
              trace := trace r ++ [Progress k (getStatus (tally item outcome (op r)))];
              launched := launched r |}, w', Some e)
      | (None, w') =>
          forEach k rest
            {| op := tally item outcome (op r); pc := pc r;
               trace := trace r ++ [Progress k (getStatus (tally item outcome (op r)))];
               launched := launched r |} w'
      end
  end.
Proof. reflexivity. Qed.

(** [forEach] handles a prefix of the settled items, all of them unless
    a callback throws. *)
Lemma forEach_spec (k : nat) (settled : list (Value * Settled)) (r : Run) (w : W) :
  sound (op r) →
  processedItems (op_status (op r)) + length settled ≤ totalItems (op_status (op r)) →
  ∃ j evs,
    let '(r', w', exn) := forEach k settled r w in
    j ≤ length settled
    ∧ (exn = None → j = length settled)
    ∧ (onProgress (config (op r)) = None → exn = None ∧ evs = [] ∧ w' = w)
    ∧ same_frame (op r) (op r')
    ∧ sound (op r')
    ∧ processedItems (op_status (op r')) = processedItems (op_status (op r)) + j
    ∧ op_results (op r') = op_results (op r) ++ (uncurry entry <$> take j settled)
    ∧ pc r' = pc r
    ∧ launched r' = launched r
    ∧ trace r' = trace r ++ evs
    ∧ Forall observed_ok evs
    ∧ Forall (λ ev, ∃ snapshot, ev = Progress k snapshot) evs.
Proof.
  revert r w. induction settled as [|[item outcome] rest IH]; intros r w Hsound Hroom.
  - exists 0, []. simpl. rewrite !app_nil_r, Nat.add_0_r.
    conjs; auto using same_frame_refl.
  - rewrite forEach_cons. simpl length in Hroom.
    pose proof (tally_frame item outcome (op r)) as Hframe.
    pose proof (tally_sound item outcome (op r) Hsound) as Hsound'.
    destruct (tally_results item outcome (op r)) as [Hres Hproc].
    assert (Hcfg : config (tally item outcome (op r)) = config (op r)) by apply Hframe.
    assert (Htot : totalItems (op_status (tally item outcome (op r))) =
                   totalItems (op_status (op r))) by apply Hframe.
    destruct (onProgress (config (op r))) as [callback|] eqn:Hcb.
    + assert (Hok : observed_ok (Progress k (getStatus (tally item outcome (op r))))).
      { unfold getStatus. split; [apply Hsound'|]. rewrite Hproc, Htot. lia. }
      destruct (callback (getStatus (tally item outcome (op r))) w) as [[e|] w'] eqn:Hcall.
      * exists 1, [Progress k (getStatus (tally item outcome (op r)))].
        cbn [op pc trace launched take fmap list_fmap uncurry length].
        conjs; first [done | lia | by constructor
                     | constructor; [eauto | constructor] ].
      * set (r1 := {| op := tally item outcome (op r); pc := pc r;
                      trace := trace r ++ [Progress k (getStatus (tally item outcome (op r)))];
                      launched := launched r |}).
        destruct (IH r1 w') as (j & evs & Hrec).
        { exact Hsound'. }
        { cbn [r1 op]. rewrite Hproc, Htot. lia. }
        exists (S j), (Progress k (getStatus (tally item outcome (op r))) :: evs).
        destruct (forEach k rest r1 w') as [[r' w''] exn].
        destruct Hrec as (Hj & Hall & _ & Hfr & Hs & Hp & Hr & Hpc & Hl & Ht & Ho & Hk).
        cbn [r1 op pc trace launched] in *.
        cbn [take fmap list_fmap uncurry length].
        conjs; first [done | lia | by constructor | by eapply same_frame_trans
                     | (intros Hn; by rewrite (Hall Hn))
                     | (rewrite Hr, Hres, <- app_assoc; done)
                     | (rewrite Ht, <- app_assoc; done)
                     | constructor; [eauto | done] ].
    + set (r1 := {| op := tally item outcome (op r); pc := pc r;
                    trace := trace r; launched := launched r |}).
      destruct (IH r1 w) as (j & evs & Hrec).
      { exact Hsound'. }
      { cbn [r1 op]. rewrite Hproc, Htot. lia. }
      exists (S j), evs.
      destruct (forEach k rest r1 w) as [[r' w''] exn].
      destruct Hrec as (Hj & Hall & Hnone & Hfr & Hs & Hp & Hr & Hpc & Hl & Ht & Ho & Hk).
      cbn [r1 op pc trace launched] in *.
      cbn [take fmap list_fmap uncurry length].
      rewrite Hcfg in Hnone. destruct (Hnone Hcb) as (-> & -> & ->).
      conjs; first [done | lia | by eapply same_frame_trans
                   | (intros Hn; by rewrite (Hall Hn))
                   | (rewrite Hr, Hres, <- app_assoc; done) ].
Qed.

Lemma settle_all_length (cfg : BulkOperationConfig) (batch : list Value) (w : W) :
  length (settle_all agents cfg batch w).1 = length batch.
Proof.
  revert w. induction batch as [|item rest IH]; intros w; simpl; [done|].
  destruct (processItem agents cfg item w) as [outcome w1].
  specialize (IH w1). destruct (settle_all agents cfg rest w1) as [outcomes w2].
  simpl in *. by rewrite IH.
Qed.

(** What one batch does to a run: every item is dispatched and settles;
    the results of a prefix of the batch are counted, of the whole batch
    unless a callback throws. *)
Lemma processBatch_spec (k : nat) (batch : list Value) (r : Run) (w : W) :
  sound (op r) →
  processedItems (op_status (op r)) + length batch ≤ totalItems (op_status (op r)) →
  ∃ j evs,
    let outcomes := (settle_all agents (config (op r)) batch w).1 in
    let '(r', w', exn) := processBatch agents k batch r w in
    j ≤ length batch
    ∧ (exn = None → j = length batch)
    ∧ (onProgress (config (op r)) = None → exn = None)
    ∧ same_frame (op r) (op r')
    ∧ sound (op r')
    ∧ processedItems (op_status (op r')) = processedItems (op_status (op r)) + j
    ∧ op_results (op r') =
      op_results (op r) ++ (uncurry entry <$> take j (zip batch outcomes))
    ∧ pc r' = pc r
    ∧ launched r' = launched r ++ [batch]
    ∧ trace r' = trace r ++ (Dispatched k <$> batch)
                         ++ (uncurry (SettledItem k) <$> zip batch outcomes)
                         ++ evs
    ∧ Forall observed_ok evs
    ∧ Forall (λ ev, ∃ snapshot, ev = Progress k snapshot) evs.
Proof.
  intros Hsound Hroom. unfold processBatch.
  pose proof (settle_all_length (config (op r)) batch w) as Hlen.
  destruct (settle_all agents (config (op r)) batch w) as [outcomes w1].
  simpl in Hlen.
  set (r1 := {| op := op r; pc := pc r;
                trace := trace r ++ (Dispatched k <$> batch)
                         ++ (uncurry (SettledItem k) <$> zip batch outcomes);
                launched := launched r ++ [batch] |}).
  assert (Hzip : length (zip batch outcomes) = length batch)
    by (rewrite length_zip; lia).
  destruct (forEach_spec k (zip batch outcomes) r1 w1) as (j & evs & Hspec).
  { exact Hsound. }
  { cbn [r1 op]. lia. }
  exists j, evs. cbn zeta.
  destruct (forEach k (zip batch outcomes) r1 w1) as [[r' w'] exn].
  destruct Hspec as (Hj & Hall & Hnone & Hfr & Hs & Hp & Hr & Hpc & Hl & Ht & Ho & Hk).
  cbn [r1 op pc trace launched fst] in *. rewrite Hzip in *.
  conjs; try done.
  - intros Hcb. by destruct (Hnone Hcb).
  - rewrite Ht, <- !app_assoc. done.
Qed.

(** [this.config.batchSize || 5] is neither zero nor [NaN]. *)
Lemma effectiveBatchSize_signed (cfg : BulkOperationConfig) :
  positive (effectiveBatchSize cfg) ∨ negative (effectiveBatchSize cfg).
Proof.
  unfold effectiveBatchSize. destruct (batchSize cfg) as [b|]; [|left; simpl; lia].
  destruct (falsy b) eqn:Hb; [left; simpl; lia | by apply signed_cases].
Qed.

Lemma steady_bounded (r : Run) :
  steady r → processedItems (op_status (op r)) ≤ totalItems (op_status (op r)).
Proof.
  intros H. rewrite (steady_total r H).
  etrans; [apply (steady_counted r H)|].
  apply (covered_le _ _ _ (steady_cover r H)), effectiveBatchSize_signed.
Qed.

Lemma start_steady (ident : string) (cfg : BulkOperationConfig) (w0 w : W) :
  steady (start now (create now ident cfg w0) w).
Proof.
  split; simpl; try done. apply covered_nil.
Qed.

Lemma request_cancel_steady (wanted : bool) (r : Run) :
  steady r → steady (request_cancel wanted r).
Proof. intros H. destruct wanted; [|done]. destruct H. by split. Qed.

Lemma set_status_sound (st : RunStatus) (t : option Z) (o : BulkOperation) :
  sound o → sound (set_status st t o).
Proof. done. Qed.

(** [iteration] at a loop head, case by case. *)
Lemma iteration_head (r : Run) (w : W) (i : Number) (k : nat) :
  pc r = AtLoopHead i k →
  iteration now agents r w =
  let cfg := config (op r) in
  if lt_len i (length (items cfg)) then
    if op_cancelled (op r) then
      (finish now {| op := set_status cancelled None (op r); pc := pc r;
                     trace := trace r; launched := launched r |} w, (now w).2)
    else
      match processBatch agents k
              (slice (items cfg) i (add i (effectiveBatchSize cfg))) r w with
      | (r', w', Some e) =>
          ({| op := set_status failed (Some (now w').1) (op r');
              pc := Thrown e; trace := trace r'; launched := launched r' |}, (now w').2)
      | (r', w', None) =>
          ({| op := op r'; pc := AtLoopHead (add i (effectiveBatchSize cfg)) (S k);
              trace := trace r' ++
                match delayBetweenBatches cfg with
                | Some ms =>
                    if lt_len (add i (effectiveBatchSize cfg)) (length (items cfg))
                       && negb (falsy ms)
                    then [Delay k ms] else []
                | None => []
                end;
              launched := launched r' |}, w')
      end
  else (finish now r w, (now w).2).
Proof. intros Hpc. unfold iteration. by rewrite Hpc. Qed.

(** The batch the loop cuts at a loop head fits in what is left of the
    items. *)
Lemma steady_room (r : Run) (i : Number) (k : nat) :
  steady r →
  pc r = AtLoopHead i k →
  processedItems (op_status (op r))
  + length (slice (items (config (op r))) i (add i (effectiveBatchSize (config (op r)))))
  ≤ totalItems (op_status (op r)).
Proof.
  intros H Hpc. pose proof (steady_pc r H) as Hhead. rewrite Hpc in Hhead.
  destruct Hhead as (Hi & Hk & Hproc & _).
  rewrite (steady_total r H), Hproc, Hi, Hk.
  apply (covered_room _ _ _ (steady_cover r H)), effectiveBatchSize_signed.
Qed.

Lemma iteration_steady (r : Run) (w : W) :
  steady r → steady (iteration now agents r w).1.
Proof.
  intros H. destruct (pc r) as [i k| |e] eqn:Hpc;
    [|unfold iteration; by rewrite Hpc..].
  rewrite (iteration_head r w i k Hpc). cbn zeta.
  pose proof (steady_room r i k H Hpc) as Hroom.
  pose proof (steady_pc r H) as Hhead. rewrite Hpc in Hhead.
  destruct Hhead as (Hi & Hk & Hproc & Hrun).
  set (b := effectiveBatchSize (config (op r))) in *.
  set (n := length (items (config (op r)))) in *.
  destruct (lt_len i n) eqn:Hin.
  - destruct (op_cancelled (op r)) eqn:Hcancel.
    + (* the cancellation check breaks out of the loop *)
      destruct H. split; simpl; try done.
      rewrite Hcancel. simpl. split; [done|]. split; [by right | done].
    + (* a batch is launched *)
      destruct (processBatch_spec k (slice (items (config (op r))) i (add i b)) r w
                  (steady_sound r H) Hroom) as (j & evs & Hspec).
      cbn zeta in Hspec.
      destruct (processBatch agents k (slice (items (config (op r))) i (add i b)) r w)
        as [[r' w'] exn].
      destruct Hspec as (Hj & Hall & _ & Hfr & Hs & Hp & _ & _ & Hl & Ht & Ho & _).
      destruct Hfr as (_ & Hcfg & _ & _ & Htot & Hst & _ & _).
      assert (Hbatches : ∀ j' batch, launched r' !! j' = Some batch →
                batch = slice (items (config (op r))) (index b j') (index b (S j'))
                ∧ lt_len (index b j') n = true).
      { intros j' batch. rewrite Hl. intros Hlook.
        apply lookup_snoc_Some in Hlook. destruct Hlook as [[_ Hold]|[Hlast <-]].
        - by apply (steady_batches r H).
        - rewrite Hlast, <- Hk. cbn [index]. rewrite <- Hi. done. }
      assert (Hcover : covered (items (config (op r))) b (launched r')).
      { rewrite Hl, Hi, Hk. apply covered_snoc, H. }
      assert (Hobs : Forall observed_ok (trace r')).
      { rewrite Ht. repeat (apply Forall_app; split); try apply H; try done.
        - apply Forall_forall. intros ev Hev.
          apply list_elem_of_fmap in Hev. by destruct Hev as (? & -> & _).
        - apply Forall_forall. intros ev Hev.
          apply list_elem_of_fmap in Hev. by destruct Hev as ([? ?] & -> & _). }
      assert (Hcount : processedItems (op_status (op r')) ≤ length (concat (launched r'))
                       ∧ (exn = None → processedItems (op_status (op r'))
                                        = length (concat (launched r')))).
      { rewrite Hp, Hl, concat_app, length_app. simpl. rewrite app_nil_r.
        split; [lia|]. intros Hn. rewrite (Hall Hn). lia. }
      destruct exn as [e|].
      * split; simpl; rewrite ?Hcfg; try done; try apply Hcount.
        by rewrite Htot, (steady_total r H).
      * split; simpl; rewrite ?Hcfg; try done; try apply Hcount.
        -- by rewrite Htot, (steady_total r H).
        -- apply Forall_app. split; [done|].
           destruct (delayBetweenBatches (config (op r))) as [ms|]; [|done].
           destruct (_ && _); [|done]. by repeat constructor.
        -- conjs.
           ++ fold b. by rewrite Hi.
           ++ rewrite Hl, length_app. simpl. lia.
           ++ by apply Hcount.
           ++ by rewrite Hst.
  - (* the loop test fails *)
    destruct H. split; simpl; try done.
    split; [done|]. split.
    + destruct (op_cancelled (op r)); simpl; auto.
    + intros _. rewrite <- Hk. fold b. fold n. by rewrite <- Hi.
Qed.

Lemma loop_steady (cancelDuring : nat → bool) (fuel : nat) (r : Run) (w : W) :
  steady r → steady (loop now agents cancelDuring fuel r w).1.
Proof.
  revert r w. induction fuel as [|fuel IH]; intros r w H; simpl; [done|].
  destruct (pc r) as [i k| |e]; [|done..].
  pose proof (iteration_steady r w H) as H'.
  destruct (iteration now agents r w) as [r' w'].
  apply IH. by apply request_cancel_steady.
Qed.

Lemma forEach_quiet (k : nat) (settled : list (Value * Settled)) (r : Run) (w : W) :
  quiet (config (op r)) → (forEach k settled r w).2 = None.
Proof.
  intros Hquiet. revert r w Hquiet.
  induction settled as [|[item outcome] rest IH]; intros r w Hquiet; [done|].
  rewrite forEach_cons.
  destruct (onProgress (config (op r))) as [callback|] eqn:Hcb.
  - pose proof (Hquiet callback Hcb (getStatus (tally item outcome (op r))) w) as Hcall.
    destruct (callback (getStatus (tally item outcome (op r))) w) as [[e|] w'];
      [done|]. by apply IH.
  - by apply IH.
Qed.

Lemma processBatch_quiet (k : nat) (batch : list Value) (r : Run) (w : W) :
  quiet (config (op r)) → (processBatch agents k batch r w).2 = None.
Proof.
  intros Hquiet. unfold processBatch.
  destruct (settle_all agents (config (op r)) batch w) as [outcomes w1].
  by apply forEach_quiet.
Qed.

(** *** One step of the loop, seen from outside *)

Lemma iteration_launch (r : Run) (w : W) (i : Number) (k : nat) :
  steady r →
  pc r = AtLoopHead i k →
  lt_len i (length (items (config (op r)))) = true →
  op_cancelled (op r) = false →
  let b := effectiveBatchSize (config (op r)) in
  let batch := slice (items (config (op r))) i (add i b) in
  let r' := (iteration now agents r w).1 in
  config (op r') = config (op r)
  ∧ op_id (op r') = op_id (op r)
  ∧ op_cancelled (op r') = false
  ∧ launched r' = launched r ++ [batch]
  ∧ (∃ evs, trace r' = trace r ++ evs ∧ batch_events k batch evs)
  ∧ (pc r' = AtLoopHead (add i b) (S k) ∨ ∃ e, pc r' = Thrown e)
  ∧ (quiet (config (op r)) → pc r' = AtLoopHead (add i b) (S k)).
Proof.
  intros H Hpc Hin Hcancel b batch.
  rewrite (iteration_head r w i k Hpc). cbn zeta.
  rewrite Hin, Hcancel. fold b. fold batch.
  pose proof (steady_room r i k H Hpc) as Hroom. fold b batch in Hroom.
  destruct (processBatch_spec k batch r w (steady_sound r H) Hroom) as (j & evs & Hspec).
  cbn zeta in Hspec.
  pose proof (processBatch_quiet k batch r w) as Hquiet.
  pose proof (settle_all_length (config (op r)) batch w) as Hlen.
  destruct (processBatch agents k batch r w) as [[r' w'] exn].
  destruct Hspec as (_ & _ & _ & Hfr & _ & _ & _ & _ & Hl & Ht & _ & Hk').
  destruct Hfr as (Hid & Hcfg & Hcan & _).
  assert (Hprog : Forall (λ ev, (∃ snapshot, ev = Progress k snapshot)
                               ∨ (∃ ms, ev = Delay k ms)) evs).
  { eapply Forall_impl; [exact Hk'|]. intros ev Hev. by left. }
  destruct exn as [e|]; simpl.
  - conjs; try done; try congruence.
    + exists ((Dispatched k <$> batch)
              ++ (uncurry (SettledItem k)
                    <$> zip batch (settle_all agents (config (op r)) batch w).1) ++ evs).
      split; [done|]. eexists _, evs. by conjs.
    + right. eauto.
    + intros Hq. specialize (Hquiet Hq). done.
  - conjs; try done; try congruence.
    + eexists. split; [rewrite Ht, <- !app_assoc; reflexivity|].
      eexists _, _. conjs; [exact Hlen | reflexivity |].
      apply Forall_app. split; [done|].
      destruct (delayBetweenBatches (config (op r))) as [ms|]; [|done].
      destruct (_ && _); [|done]. constructor; [right; eauto | done].
    + by left.
Qed.

Lemma iteration_exit (r : Run) (w : W) (i : Number) (k : nat) :
  pc r = AtLoopHead i k →
  lt_len i (length (items (config (op r)))) = false ∨ op_cancelled (op r) = true →
  let r' := (iteration now agents r w).1 in
  pc r' = Returned
  ∧ config (op r') = config (op r)
  ∧ op_id (op r') = op_id (op r)
  ∧ op_cancelled (op r') = op_cancelled (op r)
  ∧ op_results (op r') = op_results (op r)
  ∧ processedItems (op_status (op r')) = processedItems (op_status (op r))
  ∧ launched r' = launched r
  ∧ trace r' = trace r
  ∧ status (op_status (op r')) = (if op_cancelled (op r) then cancelled else completed)
  ∧ (iteration now agents r w).2 = (now w).2.
Proof.
  intros Hpc Hwhy. rewrite (iteration_head r w i k Hpc). cbn zeta.
  destruct (lt_len i (length (items (config (op r))))) eqn:Hin; [|by conjs].
  destruct Hwhy as [Hout|Hcancel]; [done|].
  rewrite Hcancel. simpl. rewrite ?Hcancel. by conjs.
Qed.

Lemma chronological_app (t1 t2 : list (@Event)) (m : nat) :
  chronological t1 → chronological t2 →
  Forall (λ ev, rank ev ≤ m) t1 → Forall (λ ev, m ≤ rank ev) t2 →
  chronological (t1 ++ t2).
Proof.
  intros H1 H2 Hlow Hhigh p q a b Hpq Ha Hb.
  apply lookup_app_Some in Ha. apply lookup_app_Some in Hb.
  rewrite Forall_forall in Hlow. rewrite Forall_forall in Hhigh.
  destruct Ha as [Ha|[Hp Ha]], Hb as [Hb|[Hq Hb]].
  - by apply (H1 p q).
  - apply list_elem_of_lookup_2 in Ha. apply list_elem_of_lookup_2 in Hb.
    specialize (Hlow a Ha). specialize (Hhigh b Hb). lia.
  - apply lookup_lt_Some in Hb. lia.
  - apply (H2 (p - length t1) (q - length t1)); [lia | done | done].
Qed.

Lemma chronological_level (t : list (@Event)) (m : nat) :
  Forall (λ ev, rank ev = m) t → chronological t.
Proof.
  intros Hall p q a b _ Ha Hb. rewrite Forall_forall in Hall.
  apply list_elem_of_lookup_2 in Ha. apply list_elem_of_lookup_2 in Hb.
  by rewrite (Hall a Ha), (Hall b Hb).
Qed.

Lemma elem_of_zip_left {A B : Type} (l : list A) (k : list B) (x : A) :
  x ∈ l → length k = length l → ∃ y, (x, y) ∈ zip l k.
Proof.
  revert k. induction l as [|a l IH]; intros k Hin Hlen; [by inversion Hin|].
  destruct k as [|b k]; [done|]. simpl in *.
  apply elem_of_cons in Hin. destruct Hin as [->|Hin].
  - exists b. apply list_elem_of_here.
  - destruct (IH k Hin) as [y Hy]; [lia|]. exists y. by apply list_elem_of_further.
Qed.

Lemma batch_events_shape (k : nat) (batch : list Value) (evs : list Event) :
  batch_events k batch evs →
  chronological evs
  ∧ Forall (λ ev, 2 * k ≤ rank ev ∧ batch_of ev = k) evs
  ∧ ∀ item, item ∈ batch →
      Dispatched k item ∈ evs ∧ ∃ outcome, SettledItem k item outcome ∈ evs.
Proof.
  intros (outcomes & rest & Hlen & -> & Hrest).
  assert (Hd : Forall (λ ev, rank ev = 2 * k ∧ batch_of ev = k) (Dispatched k <$> batch)).
  { apply Forall_forall. intros ev Hev. apply list_elem_of_fmap in Hev.
    by destruct Hev as (? & -> & _). }
  assert (Hs : Forall (λ ev, rank ev = 2 * k + 1 ∧ batch_of ev = k)
                 ((uncurry (SettledItem k) <$> zip batch outcomes) ++ rest)).
  { apply Forall_app. split.
    - apply Forall_forall. intros ev Hev. apply list_elem_of_fmap in Hev.
      by destruct Hev as ([? ?] & -> & _).
    - eapply Forall_impl; [exact Hrest|]. by intros ev [[? ->]|[? ->]]. }
  conjs.
  - apply (chronological_app _ _ (2 * k)).
    + apply (chronological_level _ (2 * k)). by eapply Forall_impl; [exact Hd|intros ? []].
    + apply (chronological_level _ (2 * k + 1)).
      by eapply Forall_impl; [exact Hs|intros ? []].
    + eapply Forall_impl; [exact Hd|]. intros ? []. lia.
    + eapply Forall_impl; [exact Hs|]. intros ? []. lia.
  - apply Forall_app. split.
    + eapply Forall_impl; [exact Hd|]. intros ? []. split; [lia | done].
    + eapply Forall_impl; [exact Hs|]. intros ? []. split; [lia | done].
  - intros item Hitem. split.
    + apply elem_of_app. left. by apply list_elem_of_fmap_2.
    + destruct (elem_of_zip_left batch outcomes item Hitem Hlen) as [outcome Hin].
      exists outcome. apply elem_of_app. right. apply elem_of_app. left.
      by apply (list_elem_of_fmap_2 (uncurry (SettledItem k)) _ (item, outcome)).
Qed.

Lemma start_traced (o : BulkOperation) (w : W) : traced (start now o w).
Proof.
  split; simpl.
  - intros p q a b _ Ha. done.
  - done.
  - intros j batch item Hj. done.
Qed.

Lemma request_cancel_traced (wanted : bool) (r : Run) :
  traced r → traced (request_cancel wanted r).
Proof. intros H. destruct wanted; [|done]. destruct H. by split. Qed.

Lemma iteration_traced (r : Run) (w : W) :
  steady r → traced r → traced (iteration now agents r w).1.
Proof.
  intros H Ht. destruct (pc r) as [i k| |e] eqn:Hpc;
    [|unfold iteration; by rewrite Hpc..].
  pose proof (steady_pc r H) as Hhead. rewrite Hpc in Hhead.
  destruct Hhead as (_ & Hk & _ & _).
  destruct (lt_len i (length (items (config (op r))))) eqn:Hin.
  - destruct (op_cancelled (op r)) eqn:Hcancel.
    + destruct (iteration_exit r w i k Hpc (or_intror Hcancel))
        as (_ & _ & _ & _ & _ & _ & Hl & Htr & _).
      destruct Ht. split; rewrite ?Hl, ?Htr; done.
    + destruct (iteration_launch r w i k H Hpc Hin Hcancel)
        as (_ & _ & _ & Hl & (evs & Htr & Hevs) & _).
      destruct (batch_events_shape k _ evs Hevs) as (Hchrono & Hlevel & Hitems).
      destruct Ht as [Hc He Hs]. split; rewrite ?Hl, ?Htr.
      * apply (chronological_app _ _ (2 * k)); [done | done | |].
        -- eapply Forall_impl; [exact He|]. intros ev Hev. simpl in Hev.
           destruct ev; simpl in *; lia.
        -- eapply Forall_impl; [exact Hlevel|]. by intros ev [? _].
      * rewrite length_app. simpl. apply Forall_app. split.
        -- eapply Forall_impl; [exact He|]. intros ev Hev. simpl in Hev. lia.
        -- eapply Forall_impl; [exact Hlevel|]. intros ev [_ ->]. lia.
      * intros j batch item Hlook Hitem.
        apply lookup_snoc_Some in Hlook. destruct Hlook as [[_ Hold]|[Hlast <-]].
        -- destruct (Hs j batch item Hold Hitem) as [Hd [outcome Hout]].
           split; [apply elem_of_app; by left|].
           exists outcome. apply elem_of_app. by left.
        -- rewrite Hlast, <- Hk. destruct (Hitems item Hitem) as [Hd [outcome Hout]].
           split; [apply elem_of_app; by right|].
           exists outcome. apply elem_of_app. by right.
  - destruct (iteration_exit r w i k Hpc (or_introl Hin))
      as (_ & _ & _ & _ & _ & _ & Hl & Htr & _).
    destruct Ht. split; rewrite ?Hl, ?Htr; done.
Qed.

Lemma loop_traced (cancelDuring : nat → bool) (fuel : nat) (r : Run) (w : W) :
  steady r → traced r → traced (loop now agents cancelDuring fuel r w).1.
Proof.
  revert r w. induction fuel as [|fuel IH]; intros r w H Ht; simpl; [done|].
  destruct (pc r) as [i k| |e]; [|done..].
  pose proof (iteration_steady r w H) as H'.
  pose proof (iteration_traced r w H Ht) as Ht'.
  destruct (iteration now agents r w) as [r' w'].
  apply IH; [by apply request_cancel_steady | by apply request_cancel_traced].
Qed.

(** The configuration and the identifier of the operation never
    change. *)
Lemma iteration_config (r : Run) (w : W) :
  steady r →
  config (op (iteration now agents r w).1) = config (op r)
  ∧ op_id (op (iteration now agents r w).1) = op_id (op r).
Proof.
  intros H. destruct (pc r) as [i k| |e] eqn:Hpc;
    [|unfold iteration; by rewrite Hpc..].
  destruct (lt_len i (length (items (config (op r))))) eqn:Hin.
  - destruct (op_cancelled (op r)) eqn:Hcancel.
    + by destruct (iteration_exit r w i k Hpc (or_intror Hcancel)) as (_ & ? & ? & _).
    + by destruct (iteration_launch r w i k H Hpc Hin Hcancel) as (? & ? & _).
  - by destruct (iteration_exit r w i k Hpc (or_introl Hin)) as (_ & ? & ? & _).
Qed.

Lemma loop_config (cancelDuring : nat → bool) (fuel : nat) (r : Run) (w : W) :
  steady r →
  config (op (loop now agents cancelDuring fuel r w).1) = config (op r)
  ∧ op_id (op (loop now agents cancelDuring fuel r w).1) = op_id (op r).
Proof.
  revert r w. induction fuel as [|fuel IH]; intros r w H; simpl; [done|].
  destruct (pc r) as [i k| |e]; [|done..].
  pose proof (iteration_steady r w H) as H'.
  destruct (iteration_config r w H) as [Hcfg Hid].
  destruct (iteration now agents r w) as [r' w']. simpl in *.
  destruct (IH (request_cancel (cancelDuring k) r') w'
              (request_cancel_steady _ _ H')) as [Hcfg' Hid'].
  rewrite Hcfg', Hid'. by destruct (cancelDuring k).
Qed.

Lemma execute_steady (cancelDuring : nat → bool) (fuel : nat) (ident : string)
    (cfg : BulkOperationConfig) (w0 w : W) :
  let r := (execute now agents cancelDuring fuel (create now ident cfg w0) w).1 in
  steady r ∧ traced r ∧ config (op r) = cfg ∧ op_id (op r) = ident.
Proof.
  unfold execute. conjs.
  - apply loop_steady, start_steady.
  - apply loop_traced; [apply start_steady | apply start_traced].
  - by destruct (loop_config cancelDuring fuel _ (now w).2 (start_steady ident cfg w0 w))
      as [-> _].
  - by destruct (loop_config cancelDuring fuel _ (now w).2 (start_steady ident cfg w0 w))
      as [_ ->].
Qed.


(** Every operation a manager holds satisfies the invariant, whatever
    was done to the manager. *)
Lemma act_steady (a : Action) (m : @Manager W) (w : W) :
  (∀ operationId r, activeOperations m !! operationId = Some r → steady r) →
  ∀ operationId r,
    activeOperations (act now agents a m w).1 !! operationId = Some r → steady r.
Proof.
  intros Hall operationId r. destruct a as [ident cfg|ident|ident|ident]; simpl.
  - unfold executeBulkOperation_begin. cbn zeta.
    pose proof (iteration_steady (start now (create now ident cfg w) (now w).2)
                  (now (now w).2).2 (start_steady ident cfg w (now w).2)) as Hnew.
    destruct (iteration now agents (start now (create now ident cfg w) (now w).2)
                (now (now w).2).2) as [r' w'].
    simpl. intros Hlook. apply lookup_insert_Some in Hlook.
    destruct Hlook as [[_ <-]|[_ Hold]]; [done | by eapply Hall].
  - unfold resume. destruct (activeOperations m !! ident) as [r0|] eqn:Hr0;
      [|by apply Hall].
    pose proof (iteration_steady r0 w (Hall ident r0 Hr0)) as Hnew.
    destruct (iteration now agents r0 w) as [r' w'].
    simpl. intros Hlook. apply lookup_insert_Some in Hlook.
    destruct Hlook as [[_ <-]|[_ Hold]]; [done | by eapply Hall].
  - unfold executeBulkOperation_finally.
    destruct (activeOperations m !! ident) as [r0|]; [|by apply Hall].
    destruct (pc r0); [by apply Hall | |]; simpl; intros Hlook;
      apply lookup_delete_Some in Hlook; destruct Hlook as [_ Hold]; by eapply Hall.
  - unfold cancelOperation. destruct (activeOperations m !! ident) as [r0|] eqn:Hr0;
      [|by apply Hall].
    simpl. intros Hlook. apply lookup_insert_Some in Hlook.
    destruct Hlook as [[_ <-]|[_ Hold]]; [|by eapply Hall].
    apply (request_cancel_steady true r0). by eapply Hall.
Qed.

Lemma perform_steady (script : list Action) (m : @Manager W) (w : W) :
  (∀ operationId r, activeOperations m !! operationId = Some r → steady r) →
  ∀ operationId r,
    activeOperations (perform now agents script m w).1 !! operationId = Some r → steady r.
Proof.
  revert m w. induction script as [|a rest IH]; intros m w Hall; simpl; [done|].
  pose proof (act_steady a m w Hall) as Hstep.
  destruct (act now agents a m w) as [m' w']. by apply IH.
Qed.



(** *** Running the loop forward *)

Lemma loop_step (cancelDuring : nat → bool) (fuel : nat) (r : Run) (w : W)
    (i : Number) (k : nat) :
  pc r = AtLoopHead i k →
  loop now agents cancelDuring (S fuel) r w =
  loop now agents cancelDuring fuel
    (request_cancel (cancelDuring k) (iteration now agents r w).1)
    (iteration now agents r w).2.
Proof.
  intros Hpc. simpl. rewrite Hpc. by destruct (iteration now agents r w).
Qed.

Lemma loop_settled (cancelDuring : nat → bool) (fuel : nat) (r : Run) (w : W) :
  (∀ i k, pc r ≠ AtLoopHead i k) →
  loop now agents cancelDuring fuel r w = (r, w).
Proof.
  intros Hpc. destruct fuel as [|fuel]; [done|]. simpl.
  destruct (pc r) as [i k| |e] eqn:Heq; [by destruct (Hpc i k) | done | done].
Qed.


Lemma request_cancel_keeps (wanted : bool) (r : Run) :
  pc (request_cancel wanted r) = pc r
  ∧ config (op (request_cancel wanted r)) = config (op r)
  ∧ launched (request_cancel wanted r) = launched r
  ∧ trace (request_cancel wanted r) = trace r
  ∧ op_status (op (request_cancel wanted r)) = op_status (op r)
  ∧ op_results (op (request_cancel wanted r)) = op_results (op r)
  ∧ op_cancelled (op (request_cancel wanted r)) = wanted || op_cancelled (op r).
Proof. by destruct wanted. Qed.

(** Once the index has passed the items at some batch [last], the loop
    is over after at most as many tests as there are batches up to
    [last], plus one. *)
Lemma loop_terminates (cancelDuring : nat → bool) (fuel : nat) (r : Run) (w : W)
    (i : Number) (k last : nat) :
  steady r →
  pc r = AtLoopHead i k →
  lt_len (index (effectiveBatchSize (config (op r))) last)
    (length (items (config (op r)))) = false →
  k ≤ last →
  last - k < fuel →
  let r' := (loop now agents cancelDuring fuel r w).1 in
  pc r' = Returned ∨ ∃ e, pc r' = Thrown e.
Proof.
  revert r w i k. induction fuel as [|fuel IH]; intros r w i k H Hpc Hlast Hk Hfuel; [lia|].
  rewrite (loop_step _ _ r w i k Hpc).
  pose proof (iteration_steady r w H) as H'.
  destruct (request_cancel_keeps (cancelDuring k) (iteration now agents r w).1)
    as (Hpc' & Hcfg' & _).
  pose proof (steady_pc r H) as Hhead. rewrite Hpc in Hhead. destruct Hhead as (Hi & _).
  destruct (lt_len i (length (items (config (op r))))) eqn:Hin.
  - destruct (op_cancelled (op r)) eqn:Hcancel.
    + destruct (iteration_exit r w i k Hpc (or_intror Hcancel)) as (Hret & _).
      rewrite loop_settled by (rewrite Hpc', Hret; done). cbn zeta. simpl.
      rewrite Hpc'. by left.
    + destruct (iteration_launch r w i k H Hpc Hin Hcancel)
        as (Hcfg & _ & _ & _ & _ & [Hnext|[e Hthrown]] & _).
      * assert (Hmore : k ≠ last) by (intros ->; congruence).
        eapply (IH _ _ (add i (effectiveBatchSize (config (op r)))) (S k)).
        -- by apply request_cancel_steady.
        -- by rewrite Hpc'.
        -- by rewrite Hcfg', Hcfg.
        -- lia.
        -- lia.
      * rewrite loop_settled by (rewrite Hpc', Hthrown; done). cbn zeta. simpl.
        rewrite Hpc'. right. eauto.
  - destruct (iteration_exit r w i k Hpc (or_introl Hin)) as (Hret & _).
    rewrite loop_settled by (rewrite Hpc', Hret; done). cbn zeta. simpl.
    rewrite Hpc'. by left.
Qed.


(** A run nobody cancels and whose callbacks do not throw is never left
    by an exception, and is [completed] when it returns. *)
Lemma loop_clean (cancelDuring : nat → bool) (fuel : nat) (r : Run) (w : W)
    (i : Number) (k : nat) :
  steady r →
  quiet (config (op r)) →
  pc r = AtLoopHead i k →
  op_cancelled (op r) = false →
  (∀ j, cancelDuring j = false) →
  let r' := (loop now agents cancelDuring fuel r w).1 in
  (∀ e, pc r' ≠ Thrown e)
  ∧ (pc r' = Returned → status (op_status (op r')) = completed)
  ∧ op_cancelled (op r') = false.
Proof.
  revert r w i k. induction fuel as [|fuel IH]; intros r w i k H Hquiet Hpc Hcancel Hfree.
  - simpl. rewrite Hpc. by conjs.
  - rewrite (loop_step _ _ r w i k Hpc), (Hfree k). cbn [request_cancel].
    destruct (lt_len i (length (items (config (op r))))) eqn:Hin.
    + destruct (iteration_launch r w i k H Hpc Hin Hcancel)
        as (Hcfg & _ & Hcan & _ & _ & _ & Hnext).
      apply (IH _ _ (add i (effectiveBatchSize (config (op r)))) (S k));
        [by apply iteration_steady | by rewrite Hcfg | by apply Hnext | done | done].
    + destruct (iteration_exit r w i k Hpc (or_introl Hin))
        as (Hret & _ & _ & Hcan & _ & _ & _ & _ & Hstatus & _).
      rewrite loop_settled by (rewrite Hret; done). cbn zeta. simpl.
      rewrite Hret, Hstatus, Hcan, Hcancel. by conjs.
Qed.


(** With a batch size that is a positive integer, or [Infinity], the
    loop is over within [items.length + 1] loop tests, and an
    uncancelled run whose callbacks do not throw returns [completed],
    having processed every item. *)
Lemma positive_size_completes (cancelDuring : nat → bool) (fuel : nat)
    (ident : string) (cfg : BulkOperationConfig) (w0 w : W) :
  positive (effectiveBatchSize cfg) →
  whole (effectiveBatchSize cfg) →
  length (items cfg) < fuel →
  let r := (execute now agents cancelDuring fuel (create now ident cfg w0) w).1 in
  (pc r = Returned ∨ ∃ e, pc r = Thrown e)
  ∧ (quiet cfg → (∀ j, cancelDuring j = false) →
     pc r = Returned
     ∧ status (op_status (op r)) = completed
     ∧ processedItems (op_status (op r)) = length (items cfg)
     ∧ concat (launched r) = items cfg).
Proof.
  intros Hb Hwhole Hfuel r.
  pose proof (start_steady ident cfg w0 w) as Hstart.
  destruct (execute_steady cancelDuring fuel ident cfg w0 w) as (H & _ & Hcfg & _).
  fold r in H, Hcfg.
  assert (Hterm : pc r = Returned ∨ ∃ e, pc r = Thrown e).
  { subst r. unfold execute.
    apply (loop_terminates _ _ _ _ (Int 0) 0 (length (items cfg)));
      [done | done | by apply index_beyond | lia | lia]. }
  split; [done|]. intros Hquiet Hfree.
  destruct (loop_clean cancelDuring fuel (start now (create now ident cfg w0) w)
              (now w).2 (Int 0) 0) as (Hnothrow & Hdone & _); [done..|].
  fold (execute now agents cancelDuring fuel (create now ident cfg w0) w) in Hnothrow, Hdone.
  fold r in Hnothrow, Hdone.
  destruct Hterm as [Hret|[e He]]; [|by destruct (Hnothrow e)].
  pose proof (steady_pc r H) as Hend. rewrite Hret, Hcfg in Hend.
  destruct Hend as (Hproc & _ & Hfull). specialize (Hfull (Hdone Hret)).
  pose proof (steady_cover r H) as Hcover. rewrite Hcfg in Hcover.
  pose proof (covered_all _ _ _ Hcover (or_introl Hb) Hfull) as Hall.
  conjs; [done | by apply Hdone | by rewrite Hproc, Hall | done].
Qed.

(** With a negative batch size and an item to process, the items are
    never all processed and the run is never [completed]; unless it is
    cancelled or a callback throws, the loop does not end. *)
Lemma negative_size_stalls (cancelDuring : nat → bool) (fuel : nat)
    (ident : string) (cfg : BulkOperationConfig) (w0 w : W) :
  negative (effectiveBatchSize cfg) →
  items cfg ≠ [] →
  let r := (execute now agents cancelDuring fuel (create now ident cfg w0) w).1 in
  processedItems (op_status (op r)) < totalItems (op_status (op r))
  ∧ status (op_status (op r)) ≠ completed
  ∧ (quiet cfg → (∀ j, cancelDuring j = false) →
     (∃ i k, pc r = AtLoopHead i k) ∧ status (op_status (op r)) = running).
Proof.
  intros Hb Hitems r.
  pose proof (start_steady ident cfg w0 w) as Hstart.
  destruct (execute_steady cancelDuring fuel ident cfg w0 w) as (H & _ & Hcfg & _).
  fold r in H, Hcfg.
  pose proof (steady_cover r H) as Hcover. rewrite Hcfg in Hcover.
  assert (Hinside : ∀ k, lt_len (index (effectiveBatchSize cfg) k) (length (items cfg)) = true).
  { intros k. apply lt_len_nonpos; [by apply index_nonpos|].
    destruct (items cfg); [done | simpl; lia]. }
  assert (Hnever : status (op_status (op r)) ≠ completed).
  { intros Hdone. pose proof (steady_pc r H) as Hpc.
    destruct (pc r) as [i k| |e]; [destruct Hpc as (_ & _ & _ & Hrun); congruence | |
                                   congruence].
    destruct Hpc as (_ & _ & Hfull). specialize (Hfull Hdone).
    rewrite Hcfg, Hinside in Hfull. done. }
  conjs; [|done|].
  - rewrite (steady_total r H), Hcfg.
    eapply Nat.le_lt_trans; [apply (steady_counted r H)|].
    by apply (covered_short _ (effectiveBatchSize cfg)).
  - intros Hquiet Hfree.
    destruct (loop_clean cancelDuring fuel (start now (create now ident cfg w0) w)
                (now w).2 (Int 0) 0) as (Hnothrow & Hdone & _); [done..|].
    fold (execute now agents cancelDuring fuel (create now ident cfg w0) w) in Hnothrow, Hdone.
    fold r in Hnothrow, Hdone.
    pose proof (steady_pc r H) as Hpc.
    destruct (pc r) as [i k| |e]; [|by destruct Hnever; apply Hdone | by destruct (Hnothrow e)].
    split; [by eauto | apply Hpc].
Qed.

(** C4, in the form the code satisfies — whatever the configuration,
    the agents, the callbacks and the cancel requests, and however far
    the run has gone ([fuel] loop tests): the status record satisfies
    [successCount + failureCount = processedItems] and
    [processedItems ≤ totalItems = items.length]; so does every snapshot
    handed to [onProgress], and every snapshot [getActiveOperations]
    gives after anything was done to a manager; a run that returns is
    [completed] or [cancelled], and a [completed] one has processed
    every item; a run left by an exception is [failed].  The effective
    batch size is positive or negative.  When it is a positive integer
    (or [Infinity]) the loop ends, within [items.length + 1] loop
    tests, and a run that nobody cancels and whose callbacks do not
    throw returns [completed] with [processedItems = totalItems].  When
    it is negative and there is an item, [processedItems] stays below
    [totalItems] and the run is never [completed]: unless it is
    cancelled or a callback throws, [execute] does not return. *)
Theorem counters_agree_at_every_observation (cancelDuring : nat → bool) (fuel : nat)
    (ident : string) (cfg : BulkOperationConfig) (w0 w : W) :
  let r := (execute now agents cancelDuring fuel (create now ident cfg w0) w).1 in
  let s := getStatus (op r) in
  let b := effectiveBatchSize cfg in
  successCount s + failureCount s = processedItems s
  ∧ processedItems s ≤ totalItems s
  ∧ totalItems s = length (items cfg)
  ∧ (∀ k snapshot, Progress k snapshot ∈ trace r →
       successCount snapshot + failureCount snapshot = processedItems snapshot
       ∧ processedItems snapshot ≤ totalItems snapshot)
  ∧ (pc r = Returned →
       (status s = completed ∨ status s = cancelled)
       ∧ (status s = completed → processedItems s = totalItems s))
  ∧ (∀ e, pc r = Thrown e → status s = failed)
  ∧ (∀ script w' operationId snapshot,
       getActiveOperations (perform now agents script idle w').1 !! operationId
       = Some snapshot →
       successCount snapshot + failureCount snapshot = processedItems snapshot
       ∧ processedItems snapshot ≤ totalItems snapshot)
  ∧ (positive b ∨ negative b)
  ∧ (positive b → whole b → length (items cfg) < fuel →
       (pc r = Returned ∨ ∃ e, pc r = Thrown e)
       ∧ (quiet cfg → (∀ j, cancelDuring j = false) →
          pc r = Returned
          ∧ status s = completed
          ∧ processedItems s = totalItems s))
  ∧ (negative b → items cfg ≠ [] →
       processedItems s < totalItems s
       ∧ status s ≠ completed
       ∧ (quiet cfg → (∀ j, cancelDuring j = false) →
          (∃ i k, pc r = AtLoopHead i k) ∧ status s = running)).
Proof.
  intros r s b.
  destruct (execute_steady cancelDuring fuel ident cfg w0 w) as (H & _ & Hcfg & _).
  fold r in H, Hcfg. subst s. unfold getStatus. conjs.
  - apply H.
  - by apply steady_bounded.
  - by rewrite (steady_total r H), Hcfg.
  - intros k snapshot Hin.
    pose proof (steady_observed r H) as Hobs. rewrite Forall_forall in Hobs.
    apply (Hobs _ Hin).
  - intros Hpc. pose proof (steady_pc r H) as Hend. rewrite Hpc in Hend.
    destruct Hend as (Hproc & Hstatus & Hfull). split; [done|].
    intros Hdone. rewrite (steady_total r H), Hproc. f_equal.
    apply (covered_all _ _ _ (steady_cover r H));
      [apply effectiveBatchSize_signed | by apply Hfull].
  - intros e Hpc. pose proof (steady_pc r H) as Hend. by rewrite Hpc in Hend.
  - intros script w' operationId snapshot Hlook. unfold getActiveOperations in Hlook.
    rewrite lookup_fmap in Hlook.
    destruct (activeOperations (perform now agents script idle w').1 !! operationId)
      as [held|] eqn:Hheld; [|done].
    injection Hlook as <-.
    assert (Hsteady : steady held).
    { eapply (perform_steady script idle w'); [|exact Hheld].
      intros ? ? Hempty. simpl in Hempty. by rewrite lookup_empty in Hempty. }
    split; [apply Hsteady | by apply steady_bounded].
  - apply effectiveBatchSize_signed.
  - intros Hb Hwhole Hfuel.
    destruct (positive_size_completes cancelDuring fuel ident cfg w0 w Hb Hwhole Hfuel)
      as [Hterm Hclean].
    split; [done|]. intros Hquiet Hfree.
    destruct (Hclean Hquiet Hfree) as (Hret & Hdone & Hall & _).
    fold r in Hret, Hdone, Hall.
    conjs; [done | done |]. by rewrite (steady_total r H), Hcfg.
  - intros Hb Hitems. apply (negative_size_stalls cancelDuring fuel ident cfg w0 w Hb Hitems).
Qed.




(** *** Cancellation *)






End Facts.



(** The twelve-item run by batches of five, to its end. *)
Lemma counters_agree_at_every_observation_witness :
  let r := (execute Samples.clock Samples.bulkAgents Samples.never 13
              (create Samples.clock "bulk-op-1" (Samples.twelve (Some (Int 5))) tt) tt).1 in
  pc r = Returned
  ∧ status (getStatus (op r)) = completed
  ∧ processedItems (getStatus (op r)) = totalItems (getStatus (op r))
  ∧ successCount (getStatus (op r)) + failureCount (getStatus (op r)) = 12.
Proof.
  intros r.
  destruct (counters_agree_at_every_observation Samples.clock Samples.bulkAgents
              Samples.never 13 "bulk-op-1" (Samples.twelve (Some (Int 5))) tt tt)
    as (Hcounters & _ & _ & _ & _ & _ & _ & _ & Hpositive & _).
  destruct Hpositive as [_ Hclean].
  { simpl. lia. }
  { exact I. }
  { simpl. lia. }
  destruct Hclean as (Hret & Hdone & Hall).
  { intros callback Hcallback. discriminate Hcallback. }
  { reflexivity. }
  split; [exact Hret|]. split; [exact Hdone|]. split; [exact Hall|].
  etrans; [exact Hcounters|]. reflexivity.
Defined.

(** Twelve items with [batchSize: -2], nobody cancelling and no
    callback: the first batch is [slice(0, -2)], the first ten items;
    the index then goes down from [-2], every later batch is empty, and
    the loop test never fails.  However many loop tests are made, the
    run is [running] with items left. *)
Lemma negative_batch_size_never_processes_every_item :
  let cfg := Samples.twelve (Some (Int (-2))) in
  effectiveBatchSize cfg = Int (-2)
  ∧ (let r := (execute Samples.clock Samples.bulkAgents Samples.never 3
                 (create Samples.clock "bulk-op-1" cfg tt) tt).1 in
     length <$> launched r = [10; 0; 0]
     ∧ processedItems (getStatus (op r)) = 10)
  ∧ ∀ fuel,
      let r := (execute Samples.clock Samples.bulkAgents Samples.never fuel
                  (create Samples.clock "bulk-op-1" cfg tt) tt).1 in
      (∃ i k, pc r = AtLoopHead i k)
      ∧ status (getStatus (op r)) = running
      ∧ processedItems (getStatus (op r)) < totalItems (getStatus (op r)).
Proof.
  intros cfg. split; [reflexivity|]. split; [by split|]. intros fuel r.
  destruct (negative_size_stalls Samples.clock Samples.bulkAgents Samples.never fuel
              "bulk-op-1" cfg tt tt) as (Hshort & _ & Hruns); [simpl; lia | done |].
  destruct Hruns as [Hhead Hrunning];
    [intros callback Hcallback; discriminate Hcallback | done |].
  by conjs.
Qed.






End BulkProps.

(** * Properties of the agent registry *)

Module FactoryProps.

Import Factory FactorySpec.

Local Open Scope list_scope.
Local Open Scope nat_scope.

(** *** The cache as a map *)

Lemma map_has_get {A : Type} (key : string) (m : list (string * A)) :
  map_has key m = false ↔ map_get key m = None.
Proof.
  unfold map_has, map_get. induction m as [|[k v] m IH]; simpl; [done|].
  destruct (String.eqb k key); simpl; [split; discriminate | exact IH].
Qed.

Lemma map_get_elem {A : Type} (key : string) (m : list (string * A)) (v : A) :
  map_get key m = Some v → (key, v) ∈ m.
Proof.
  unfold map_get. induction m as [|[k a] m IH]; simpl; [done|].
  destruct (String.eqb_spec k key) as [->|Hne]; simpl.
  - intros [= ->]. apply list_elem_of_here.
  - intros Hfind. apply list_elem_of_further. by apply IH.
Qed.

Lemma map_set_get_eq {A : Type} (key : string) (v : A) (m : list (string * A)) :
  map_get key (map_set key v m) = Some v ∧ map_has key (map_set key v m) = true.
Proof.
  unfold map_set. destruct (map_has key m) eqn:Hhas.
  - unfold map_has, map_get in *. induction m as [|[k a] m IH]; simpl in *; [done|].
    destruct (String.eqb_spec k key) as [->|Hne]; simpl.
    + by rewrite String.eqb_refl.
    + destruct (String.eqb_spec k key); [done|]. by apply IH.
  - apply map_has_get in Hhas. unfold map_has, map_get in *.
    induction m as [|[k a] m IH]; simpl in *.
    + by rewrite String.eqb_refl.
    + destruct (String.eqb_spec k key); simpl in *; [done|]. by apply IH.
Qed.

Lemma map_set_get_ne {A : Type} (key key' : string) (v : A) (m : list (string * A)) :
  key ≠ key' →
  map_get key' (map_set key v m) = map_get key' m
  ∧ map_has key' (map_set key v m) = map_has key' m.
Proof.
  intros Hne. unfold map_set. destruct (map_has key m).
  - unfold map_has, map_get. induction m as [|[k a] m IH]; simpl; [done|].
    destruct IH as [IHget IHhas].
    destruct (String.eqb_spec k key) as [->|Hk]; simpl.
    + destruct (String.eqb_spec key key'); [done|]. simpl. by split.
    + destruct (String.eqb_spec k key'); simpl; by split.
  - unfold map_has, map_get. induction m as [|[k a] m IH]; simpl.
    + destruct (String.eqb_spec key key'); [done | by split].
    + destruct IH as [IHget IHhas].
      destruct (String.eqb_spec k key'); simpl; by split.
Qed.

(** *** Cache keys *)


Lemma cacheKey_mock (t : AgentType) (ctx : AgentContext) :
  is_mock t = false → cacheKey t ctx ≠ cacheKey (mock_of t) ctx.
Proof.
  unfold cacheKey. destruct t; intros Hmock Heq; try discriminate Hmock;
    discriminate Heq.
Qed.

Lemma mock_of_is_mock (t : AgentType) : is_mock (mock_of t) = true.
Proof. by destruct t. Qed.

Section Facts.

Variable on_square_host : bool.
Variable constructs : AgentClass → bool.
Variable catalog_has_destroy : bool.

Local Abbreviation createAgent := (createAgent on_square_host constructs).
Local Abbreviation getAgent_body := (getAgent_body on_square_host constructs).
Local Abbreviation getAgent_fallback := (getAgent_fallback on_square_host constructs).
Local Abbreviation getAgent := (getAgent on_square_host constructs).
Local Abbreviation getAgent_begin := (getAgent_begin on_square_host constructs).
Local Abbreviation getAgent_resume := (getAgent_resume on_square_host constructs).
Local Abbreviation proceed := (proceed on_square_host constructs).
Local Abbreviation resolve := (resolve on_square_host constructs).
Local Abbreviation updateContext := (updateContext catalog_has_destroy).
Local Abbreviation sweep := (sweep catalog_has_destroy).
Local Abbreviation eviction := (eviction catalog_has_destroy).

(** *** Creation *)

(** A creation that throws leaves the factory as it was, and throws
    again on any factory with the same page type. *)
Lemma createAgent_throws (t : AgentType) (f f' : AgentFactory) :
  createAgent t f = (None, f') →
  f' = f
  ∧ ∀ g, pageType (page (context g)) = pageType (page (context f)) →
         createAgent t g = (None, g).
Proof.
  unfold Factory.createAgent, construct.
  destruct t; simpl;
    try (intros Hmock; discriminate Hmock);
    match goal with
    | |- context [if ?valid then _ else _] => destruct valid eqn:Hvalid
    end;
    try (match goal with
         | |- context [if constructs ?c then _ else _] => destruct (constructs c) eqn:Hc
         end);
    try (intros Hthrow; discriminate Hthrow);
    intros [= <-]; (split; [done|]); intros g ->; rewrite ?Hvalid, ?Hc; done.
Qed.

(** A created instance is ready and newly allocated; the cache and the
    context are not touched. *)
Lemma createAgent_creates (t : AgentType) (f f' : AgentFactory) (a : AgentInstance) :
  createAgent t f = (Some a, f') →
  ready a = true
  ∧ type a = t
  ∧ built_with (instance a) = context f
  ∧ next_oid f ≤ oid (instance a) < next_oid f'
  ∧ Constructed (oid (instance a)) ∈ effects f'
  ∧ agents f' = agents f
  ∧ context f' = context f.
Proof.
  unfold Factory.createAgent, construct, createMockAgent.
  destruct t; simpl;
    try (match goal with
         | |- context [if ?valid then _ else _] => destruct valid
         end; [|intros Hthrow; discriminate Hthrow];
         match goal with
         | |- context [if constructs ?c then _ else _] => destruct (constructs c)
         end; [|intros Hthrow; discriminate Hthrow]);
    intros [= <- <-]; simpl;
    (split; [done|]); (split; [done|]); (split; [done|]); (split; [lia|]);
    (split; [|done]);
    apply elem_of_app; right; rewrite ?Nat.add_0_r;
    repeat (first [apply list_elem_of_here | apply list_elem_of_further]).
Qed.

(** *** Resolution *)

Lemma cacheKey_same_page (t : AgentType) (g g' : AgentFactory) :
  same_page g g' → cacheKey t (context g') = cacheKey t (context g).
Proof. unfold same_page, cacheKey. by intros ->. Qed.

Lemma lookup_ready_agree (key : string) (g g' : AgentFactory) :
  map_get key (agents g') = map_get key (agents g) →
  map_has key (agents g') = map_has key (agents g) →
  lookup_ready key false g' = lookup_ready key false g.
Proof. unfold lookup_ready. by intros -> ->. Qed.

Lemma stable_none : stable (λ _ f, (None, f)).
Proof. intros t g. simpl. by conjs. Qed.

Lemma getAgent_body_stable
    (again : AgentType → AgentFactory → option AgentInstance * AgentFactory) :
  stable again → stable (λ t g, getAgent_body again t false g).
Proof.
  intros Hagain t g. unfold Factory.getAgent_body.
  destruct (lookup_ready (cacheKey t (context g)) false g) as [cached|] eqn:Hhit.
  - (* served from the cache *)
    simpl. conjs; [done | | done].
    intros g2 Hagents Hpage.
    rewrite (cacheKey_same_page t g g2 Hpage).
    rewrite (lookup_ready_agree _ g g2), Hhit by (by rewrite Hagents). done.
  - destruct (createAgent t g) as [[created|] f'] eqn:Hcreate.
    + (* created and cached *)
      destruct (createAgent_creates t g f' created Hcreate)
        as (Hready & _ & _ & _ & _ & Hsame & Hctx).
      set (key := cacheKey t (context g)) in *.
      simpl. conjs.
      * unfold same_page. by rewrite Hctx.
      * intros g2 Hagents Hpage. simpl in Hagents.
        rewrite (cacheKey_same_page t g g2 Hpage). fold key.
        destruct (map_set_get_eq key created (agents f')) as [Hget Hhas].
        unfold lookup_ready. rewrite Hagents, Hhas, Hget, Hready. done.
      * intros key' Hne _. rewrite <- Hsame. by apply map_set_get_ne.
    + (* creation threw *)
      destruct (createAgent_throws t g f' Hcreate) as [-> Hthrows].
      destruct (is_mock t) eqn:Hmock; simpl.
      * conjs; [done | | done].
        intros g2 Hagents Hpage.
        rewrite (cacheKey_same_page t g g2 Hpage).
        rewrite (lookup_ready_agree _ g g2), Hhit by (by rewrite Hagents).
        by rewrite (Hthrows g2 Hpage).
      * destruct (Hagain (mock_of t) g) as (Hpage1 & Hrepeat & Hframe).
        assert (Hmm : mock_of (mock_of t) = mock_of t) by (by destruct t).
        rewrite Hmm in Hframe.
        conjs; [done | | ].
        -- intros g2 Hagents Hpage.
           rewrite (cacheKey_same_page t g g2 Hpage).
           destruct (Hframe (cacheKey t (context g))) as [Hget Hhas];
             [by apply cacheKey_mock | by apply cacheKey_mock |].
           rewrite (lookup_ready_agree _ g g2), Hhit
             by (rewrite Hagents; done).
           rewrite (Hthrows g2 Hpage). by apply Hrepeat.
        -- intros key' Hne1 Hne2. by apply Hframe.
Qed.

Lemma getAgent_stable : stable (λ t g, getAgent t false g).
Proof.
  unfold Factory.getAgent.
  apply getAgent_body_stable. unfold Factory.getAgent_fallback.
  apply getAgent_body_stable, stable_none.
Qed.

Lemma getAgent_body_traceable
    (again : AgentType → AgentFactory → option AgentInstance * AgentFactory) :
  traceable again → traceable (λ t g, getAgent_body again t false g).
Proof.
  intros Hagain t g inst. unfold Factory.getAgent_body.
  destruct (lookup_ready (cacheKey t (context g)) false g) as [cached|] eqn:Hhit.
  - simpl. intros [= ->]. left. exists (cacheKey t (context g)).
    unfold lookup_ready in Hhit.
    destruct (negb false && map_has _ _); [|done].
    destruct (map_get (cacheKey t (context g)) (agents g)) as [c|] eqn:Hget; [|done].
    destruct (ready c); [|done]. injection Hhit as ->. by apply map_get_elem.
  - destruct (createAgent t g) as [[created|] f'] eqn:Hcreate.
    + destruct (createAgent_creates t g f' created Hcreate)
        as (_ & _ & Hbuilt & Hfresh & Hlog & _ & _).
      simpl. intros [= ->]. right. conjs; [lia | done | done].
    + destruct (createAgent_throws t g f' Hcreate) as [-> _].
      destruct (is_mock t); simpl; [done|]. apply Hagain.
Qed.

Lemma getAgent_traceable : traceable (λ t g, getAgent t false g).
Proof.
  unfold Factory.getAgent.
  apply getAgent_body_traceable. unfold Factory.getAgent_fallback.
  apply getAgent_body_traceable. by intros t g inst.
Qed.

(** *** Change of context *)

Lemma sweep_keeps (q : string) (entries : list (string * AgentInstance))
    (f : AgentFactory) :
  context (sweep q entries f) = context f
  ∧ next_oid (sweep q entries f) = next_oid f
  ∧ effects (sweep q entries f) = effects f ++ flat_map (eviction q) entries.
Proof.
  revert f. induction entries as [|[key agent] rest IH]; intros f; simpl.
  - by rewrite app_nil_r.
  - destruct (IH (if negb (includes q key)
                  then {| agents := map_delete key (agents f); context := context f;
                          next_oid := next_oid f;
                          effects := effects f
                            ++ (if has_destroy catalog_has_destroy (class (instance agent))
                                then [Destroyed (oid (instance agent))] else [])
                            ++ [Evicted key] |}
                  else f)) as (-> & -> & ->).
    unfold eviction at 2. simpl.
    destruct (includes q key); simpl; [done|]. by rewrite <- !app_assoc.
Qed.

Lemma filter_twice {A : Type} (keep1 keep2 : A → bool) (l : list A) :
  List.filter keep2 (List.filter keep1 l) = List.filter (λ x, keep1 x && keep2 x) l.
Proof.
  induction l as [|x l IH]; simpl; [done|].
  destruct (keep1 x); simpl; [|done]. destruct (keep2 x); simpl; by rewrite IH.
Qed.


Lemma sweep_agents (q : string) (entries : list (string * AgentInstance))
    (f : AgentFactory) :
  agents (sweep q entries f) =
  List.filter
    (λ kv, negb (existsb (λ e, String.eqb e.1 kv.1 && negb (includes q e.1)) entries))
    (agents f).
Proof.
  revert f. induction entries as [|[key agent] rest IH]; intros f; simpl.
  - induction (agents f) as [|x l IHl]; simpl; [done|]. by rewrite <- IHl.
  - rewrite IH. destruct (includes q key) eqn:Hmatch; simpl.
    + apply List.filter_ext. intros kv. by rewrite andb_false_r.
    + unfold map_delete. rewrite filter_twice. apply List.filter_ext. intros kv.
      rewrite andb_true_r, negb_orb. by rewrite (String.eqb_sym key).
Qed.

(** [updateContext] keeps exactly the entries whose key contains the
    new page type, in their order. *)
Lemma updateContext_agents (newContext : AgentContext) (f : AgentFactory) :
  agents (updateContext newContext f) =
  List.filter (λ kv, includes (page_name (pageType (page newContext))) kv.1) (agents f).
Proof.
  unfold Factory.updateContext. rewrite sweep_agents. simpl.
  set (q := page_name (pageType (page newContext))).
  apply List.filter_ext_in. intros kv Hin.
  destruct (includes q kv.1) eqn:Hmatch.
  - apply negb_true_iff, not_true_is_false. intros Hex.
    apply existsb_exists in Hex. destruct Hex as (e & _ & He).
    apply andb_true_iff in He. destruct He as [Hkey Hno].
    apply String.eqb_eq in Hkey. rewrite Hkey, Hmatch in Hno. done.
  - apply negb_false_iff, existsb_exists. exists kv. split; [done|].
    by rewrite String.eqb_refl, Hmatch.
Qed.

(** *** What a call returns *)

Lemma lookup_ready_get (key : string) (forceRecreate : bool) (f : AgentFactory)
    (cached : AgentInstance) :
  lookup_ready key forceRecreate f = Some cached →
  map_get key (agents f) = Some cached ∧ ready cached = true.
Proof.
  unfold lookup_ready. destruct (negb forceRecreate && map_has key (agents f)); [|done].
  destruct (map_get key (agents f)) as [c|]; [|done].
  destruct (ready c) eqn:Hready; [|done]. by intros [= <-].
Qed.

(** The creation of a mock agent does not throw. *)
Lemma createAgent_mock (t : AgentType) (f f' : AgentFactory) :
  createAgent t f = (None, f') → is_mock t = false.
Proof.
  unfold Factory.createAgent. destruct t; simpl; try done; intros Hmock; discriminate Hmock.
Qed.

(** The call [getAgent] makes on itself returns an instance, which the
    cache then holds under the key of the mock type. *)
Lemma fallback_cached (t : AgentType) (f : AgentFactory) :
  is_mock t = true →
  ∃ inst, (getAgent_fallback t f).1 = Some inst
          ∧ ready inst = true
          ∧ map_get (cacheKey t (context f)) (agents (getAgent_fallback t f).2) = Some inst.
Proof.
  intros Hmock. unfold Factory.getAgent_fallback, Factory.getAgent_body.
  destruct (lookup_ready (cacheKey t (context f)) false f) as [cached|] eqn:Hhit.
  - apply lookup_ready_get in Hhit. destruct Hhit as [Hget Hready]. by exists cached.
  - destruct (createAgent t f) as [[a|] f'] eqn:Hcreate.
    + destruct (createAgent_creates t f f' a Hcreate) as (Hready & _).
      exists a. simpl. conjs; [done | done | apply map_set_get_eq].
    + apply createAgent_mock in Hcreate. congruence.
Qed.

(** [getAgent] never answers [null]: it returns a ready instance, which
    the cache then holds under the key of the type asked for or under
    the key of its mock. *)
Lemma getAgent_cached (t : AgentType) (forceRecreate : bool) (f : AgentFactory) :
  ∃ inst key,
    (getAgent t forceRecreate f).1 = Some inst
    ∧ ready inst = true
    ∧ (key = cacheKey t (context f) ∨ key = cacheKey (mock_of t) (context f))
    ∧ map_get key (agents (getAgent t forceRecreate f).2) = Some inst.
Proof.
  unfold Factory.getAgent, Factory.getAgent_body.
  destruct (lookup_ready (cacheKey t (context f)) forceRecreate f) as [cached|] eqn:Hhit.
  - apply lookup_ready_get in Hhit. destruct Hhit as [Hget Hready].
    exists cached, (cacheKey t (context f)). simpl. conjs; [done | done | by left | done].
  - destruct (createAgent t f) as [[a|] f'] eqn:Hcreate.
    + destruct (createAgent_creates t f f' a Hcreate) as (Hready & _).
      exists a, (cacheKey t (context f)). simpl.
      conjs; [done | done | by left | apply map_set_get_eq].
    + destruct (createAgent_throws t f f' Hcreate) as [-> _].
      rewrite (createAgent_mock t f f Hcreate). simpl.
      destruct (fallback_cached (mock_of t) f (mock_of_is_mock t))
        as (inst & Hinst & Hready & Hget).
      exists inst, (cacheKey (mock_of t) (context f)). conjs; [done | done | by right | done].
Qed.

(** A call of [getAgent] that nothing interrupts is its first part
    followed by the parts that resume it: there are at most two, the
    second being the wait of the call it makes on itself. *)
Lemma getAgent_uninterrupted (t : AgentType) (forceRecreate : bool) (f : AgentFactory) :
  getAgent t forceRecreate f
  = answer (proceed (proceed (getAgent_begin t forceRecreate f))).
Proof.
  unfold Factory.getAgent, Factory.getAgent_body, Factory.getAgent_begin.
  destruct (lookup_ready (cacheKey t (context f)) forceRecreate f) as [cached|]; [done|].
  destruct (createAgent t f) as [[a|] f'] eqn:Hcreate; [done|].
  unfold Factory.proceed at 2. simpl. unfold Factory.getAgent_resume. simpl.
  destruct (is_mock t); simpl; [done|].
  unfold Factory.getAgent_fallback, Factory.getAgent_body, Factory.getAgent_begin.
  destruct (lookup_ready (cacheKey (mock_of t) (context f')) false f') as [cached|]; [done|].
  destruct (createAgent (mock_of t) f') as [[a|] f''] eqn:Hmock; [done|].
  apply createAgent_mock in Hmock. by rewrite mock_of_is_mock in Hmock.
Qed.


End Facts.



End FactoryProps.

(** * Further properties of the bulk executor *)

Module BulkManagerProps.

Import Bulk BulkSpec BulkManager.

Local Open Scope list_scope.
Local Open Scope nat_scope.

Section Facts.

Context {W : Type} (now : W → Z * W) (agents : gmap string (@Agent W)).

Local Abbreviation BulkOperation := (@BulkOperation W).
Local Abbreviation Run := (@Run W).
Local Abbreviation BulkOperationConfig := (@BulkOperationConfig W).

(** An invariant of the loop is a property that [iteration] and
    [cancel()] keep. *)
Lemma loop_preserves (I : Run → Prop) (cancelDuring : nat → bool) (fuel : nat)
    (r : Run) (w : W) :
  (∀ r w, steady r → I r → I (iteration now agents r w).1) →
  (∀ r, I r → I (request_cancel true r)) →
  steady r → I r → I (loop now agents cancelDuring fuel r w).1.
Proof.
  intros Hiter Hcancel. revert r w.
  induction fuel as [|fuel IH]; intros r w H HI; simpl; [done|].
  destruct (pc r) as [i k| |e]; [|done..].
  pose proof (BulkProps.iteration_steady now agents r w H) as H'.
  pose proof (Hiter r w H HI) as HI'.
  destruct (iteration now agents r w) as [r' w'].
  apply IH; [by apply BulkProps.request_cancel_steady|].
  destruct (cancelDuring k); [by apply Hcancel | done].
Qed.

(** *** The result list follows the items *)

Lemma settle_all_ok (ok : Value → Settled → Prop) (cfg : BulkOperationConfig)
    (batch : list Value) (w : W) :
  (∀ item w, ok item (processItem agents cfg item w).1) →
  Forall2 ok batch (settle_all agents cfg batch w).1.
Proof.
  intros Hok. revert w. induction batch as [|item rest IH]; intros w; simpl; [constructor|].
  pose proof (Hok item w) as Hitem.
  destruct (processItem agents cfg item w) as [outcome w1].
  specialize (IH w1). destruct (settle_all agents cfg rest w1) as [outcomes w2].
  simpl in *. by constructor.
Qed.

Lemma entries_accounted (ok : Value → Settled → Prop) (batch : list Value)
    (outcomes : list Settled) (j : nat) :
  Forall2 ok batch outcomes →
  Forall2 (λ item result, ∃ outcome, ok item outcome ∧ result = entry item outcome)
    (take j batch) (uncurry entry <$> take j (zip batch outcomes)).
Proof.
  intros Hall. revert j. induction Hall as [|item outcome batch outcomes Hok Hall IH];
    intros j; [by destruct j|].
  destruct j as [|j]; simpl; [constructor|].
  constructor; [by exists outcome | apply IH].
Qed.

Lemma accounted_same (ok : Value → Settled → Prop) (r r' : Run) :
  op_results (op r') = op_results (op r) → launched r' = launched r →
  accounted ok r → accounted ok r'.
Proof. unfold accounted. by intros -> ->. Qed.

Lemma iteration_accounted (ok : Value → Settled → Prop) (r : Run) (w : W) :
  (∀ item w, ok item (processItem agents (config (op r)) item w).1) →
  steady r → accounted ok r → accounted ok (iteration now agents r w).1.
Proof.
  intros Hok H Hacc. destruct (pc r) as [i k| |e] eqn:Hpc;
    [|unfold iteration; by rewrite Hpc..].
  destruct (lt_len i (length (items (config (op r))))) eqn:Hin.
  - destruct (op_cancelled (op r)) eqn:Hcancel.
    + destruct (BulkProps.iteration_exit now agents r w i k Hpc (or_intror Hcancel))
        as (_ & _ & _ & _ & Hres & _ & Hl & _).
      by apply (accounted_same ok r).
    + rewrite (BulkProps.iteration_head now agents r w i k Hpc). cbn zeta.
      rewrite Hin, Hcancel.
      pose proof (steady_pc r H) as Hhead. rewrite Hpc in Hhead.
      destruct Hhead as (Hi & Hk & Hproc & Hrun).
      set (batch := slice (items (config (op r))) i
                      (add i (effectiveBatchSize (config (op r))))).
      pose proof (BulkProps.steady_room r i k H Hpc) as Hroom. fold batch in Hroom.
      destruct (BulkProps.processBatch_spec agents k batch r w (steady_sound r H) Hroom)
        as (j & evs & Hspec).
      cbn zeta in Hspec.
      pose proof (settle_all_ok ok (config (op r)) batch w Hok) as Hall.
      destruct (processBatch agents k batch r w) as [[r' w'] exn].
      destruct Hspec as (Hj & _ & _ & _ & _ & _ & Hr & _ & Hl & _).
      assert (Hgoal : accounted ok r').
      { unfold accounted in *. rewrite Hr, Hl, concat_app. simpl. rewrite app_nil_r.
        destruct (steady_sound r H) as (_ & Hlen & _).
        rewrite take_ge in Hacc by lia.
        rewrite length_app, length_fmap, length_take, length_zip.
        rewrite (BulkProps.settle_all_length agents (config (op r)) batch w).
        rewrite take_app_add' by lia.
        apply Forall2_app; [done|].
        replace (j `min` (length batch `min` length batch)) with j by lia.
        by apply entries_accounted. }
      destruct exn as [e|]; by apply (accounted_same ok r').
  - destruct (BulkProps.iteration_exit now agents r w i k Hpc (or_introl Hin))
      as (_ & _ & _ & _ & Hres & _ & Hl & _).
    by apply (accounted_same ok r).
Qed.

Lemma loop_accounted (ok : Value → Settled → Prop) (cancelDuring : nat → bool)
    (fuel : nat) (r : Run) (w : W) :
  (∀ item w, ok item (processItem agents (config (op r)) item w).1) →
  steady r → accounted ok r →
  accounted ok (loop now agents cancelDuring fuel r w).1.
Proof.
  intros Hok H Hacc.
  apply (loop_preserves (λ r', config (op r') = config (op r) ∧ accounted ok r'));
    [| |done|done].
  - intros r1 w1 H1 [Hcfg Hacc1]. split.
    + destruct (BulkProps.iteration_config now agents r1 w1 H1) as [-> _]. done.
    + apply iteration_accounted; [by rewrite Hcfg | done | done].
  - intros r1 [Hcfg Hacc1]. split; [done|]. by apply (accounted_same ok r1).
Qed.

Lemma start_accounted (ok : Value → Settled → Prop) (ident : string)
    (cfg : BulkOperationConfig) (w0 w : W) :
  accounted ok (start now (create now ident cfg w0) w).
Proof. unfold accounted. simpl. constructor. Qed.

(** X1 — Every result of a run answers the item at its own position: it was
    made from the outcome of [processItem] for that item, and when it is
    a failure it carries the item in [data.item]. *)
Theorem results_answer_items_in_order (cancelDuring : nat → bool) (fuel : nat)
    (ident : string) (cfg : BulkOperationConfig) (w0 w : W) :
  let r := (execute now agents cancelDuring fuel (create now ident cfg w0) w).1 in
  length (op_results (op r)) = processedItems (op_status (op r))
  ∧ ∀ i result, op_results (op r) !! i = Some result →
      ∃ item w1,
        items cfg !! i = Some item
        ∧ result = entry item (processItem agents cfg item w1).1
        ∧ (success result = false → data result = Some (VObj [("item", item)])).
Proof.
  intros r.
  destruct (BulkProps.execute_steady now agents cancelDuring fuel ident cfg w0 w)
    as (H & _ & Hcfg & _).
  fold r in H, Hcfg.
  assert (Hacc : accounted (λ item outcome, ∃ w1, outcome = (processItem agents cfg item w1).1) r).
  { apply loop_accounted;
      [by eauto | apply BulkProps.start_steady | apply start_accounted]. }
  split; [symmetry; apply (steady_sound r H)|].
  intros i result Hlook. unfold accounted in Hacc.
  destruct (Forall2_lookup_r _ _ _ i result Hacc Hlook)
    as (item & Hitem & outcome & [w1 ->] & ->).
  exists item, w1. conjs.
  - apply lookup_take_Some in Hitem. destruct Hitem as [Hitem _].
    pose proof (BulkProps.covered_prefix _ _ _ (steady_cover r H)
                  (BulkProps.effectiveBatchSize_signed (config (op r)))) as Hprefix.
    rewrite Hcfg in Hprefix. by apply (prefix_lookup_Some _ _ _ _ Hitem).
  - done.
  - destruct (processItem agents cfg item w1).1 as [value|reason]; simpl; [|done].
    destruct (success value) eqn:Hv; simpl; [by rewrite Hv | done].
Qed.

(** *** A missing agent *)

Lemma successes_none (rs : list AgentResult) :
  Forall (λ r, success r = false) rs → successes rs = 0.
Proof.
  induction 1 as [|r rs Hr _ IH]; [done|].
  unfold successes in *. rewrite filter_cons_False by (rewrite Hr; done). done.
Qed.

(** X2 — When no agent is registered under [config.agentType], every item
    handled is answered by the failure ["Agent not found: ..."] and
    nothing ever succeeds; when the effective batch size is a positive
    integer (or [Infinity]), a run that nobody cancels and whose
    callbacks do not throw still goes through all the items and returns
    [completed] with [success == false]. *)
Theorem missing_agent_fails_every_item (cancelDuring : nat → bool) (fuel : nat)
    (ident : string) (cfg : BulkOperationConfig) (w0 w : W) :
  agents !! agentType cfg = None →
  let r := (execute now agents cancelDuring fuel (create now ident cfg w0) w).1 in
  op_results (op r)
  = agent_not_found cfg <$> take (processedItems (op_status (op r))) (items cfg)
  ∧ successCount (op_status (op r)) = 0
  ∧ failureCount (op_status (op r)) = processedItems (op_status (op r))
  ∧ (∀ res, returned r = Some res → res_success res = false)
  ∧ (positive (effectiveBatchSize cfg) →
     whole (effectiveBatchSize cfg) →
     length (items cfg) < fuel →
     quiet cfg → (∀ k, cancelDuring k = false) →
     pc r = Returned
     ∧ status (op_status (op r)) = completed
     ∧ processedItems (op_status (op r)) = length (items cfg)
     ∧ returned r
       = Some {| res_success := false; operationId := ident;
                 res_totalItems := length (items cfg);
                 res_successCount := 0;
                 res_failureCount := length (items cfg);
                 res_results := agent_not_found cfg <$> items cfg;
                 duration := default 0%Z (endTime (op_status (op r)))
                             - startTime (op_status (op r)) |}).
Proof.
  intros Hmissing r.
  destruct (BulkProps.execute_steady now agents cancelDuring fuel ident cfg w0 w)
    as (H & _ & Hcfg & _).
  fold r in H, Hcfg.
  assert (Hacc : accounted
            (λ item outcome, outcome = Rejected ("Agent not found: " +:+ agentType cfg)) r).
  { apply loop_accounted;
      [| apply BulkProps.start_steady | apply start_accounted].
    intros item w1. change (config (op (start now (create now ident cfg w0) w))) with cfg.
    unfold processItem. unfold Agent in Hmissing |- *. by rewrite Hmissing. }
  destruct (steady_sound r H) as (Hcons & Hlen & Hsucc).
  pose proof (BulkProps.covered_prefix _ _ _ (steady_cover r H)
                (BulkProps.effectiveBatchSize_signed (config (op r)))) as [rest Hrest].
  rewrite Hcfg in Hrest.
  assert (Hres : op_results (op r)
                 = agent_not_found cfg <$> take (processedItems (op_status (op r))) (items cfg)).
  { unfold accounted in Hacc. rewrite <- Hlen in Hacc.
    rewrite Hrest, take_app_le by apply (steady_counted r H).
    clear -Hacc. induction Hacc as [|item result l rs (outcome & -> & ->) _ IH]; [done|].
    simpl. by rewrite IH. }
  assert (Hzero : successCount (op_status (op r)) = 0).
  { rewrite Hsucc, Hres. apply successes_none, Forall_forall.
    intros x Hx. apply list_elem_of_fmap in Hx. by destruct Hx as (? & -> & _). }
  conjs; [done | done | unfold consistent in Hcons; lia | |].
  - unfold returned. destruct (pc r); [done | | done].
    intros res [= <-]. simpl. by rewrite Hzero.
  - intros Hb Hwhole Hfuel Hquiet Hfree.
    destruct (BulkProps.positive_size_completes now agents cancelDuring fuel ident cfg w0 w
                Hb Hwhole Hfuel) as [_ Hclean].
    destruct (Hclean Hquiet Hfree) as (Hret & Hdone & Hall & _).
    fold r in Hret, Hdone, Hall.
    conjs; [done | done | done |].
    unfold returned. rewrite Hret. f_equal.
    destruct (BulkProps.execute_steady now agents cancelDuring fuel ident cfg w0 w)
      as (_ & _ & _ & Hid).
    fold r in Hid. unfold consistent in Hcons.
    rewrite Hzero, Hid, (steady_total r H), Hcfg, Hres, Hall, take_ge by lia.
    f_equal. lia.
Qed.

(** *** An empty item list *)

(** X3 — With no item the loop test fails at once: the run returns
    [completed] without launching a batch or calling a callback,
    whatever the batch size; the clock is read twice and nothing else
    is touched; the [success] of the result is [false] although nothing
    failed, and its [duration] is the time between the two readings of
    the clock. *)
Theorem empty_run_completes_at_once (cancelDuring : nat → bool) (fuel : nat)
    (ident : string) (cfg : BulkOperationConfig) (w0 w : W) :
  items cfg = [] →
  let run := execute now agents cancelDuring (S fuel) (create now ident cfg w0) w in
  run.2 = (now (now w).2).2
  ∧ status (op_status (op run.1)) = completed
  ∧ startTime (op_status (op run.1)) = (now w).1
  ∧ endTime (op_status (op run.1)) = Some (now (now w).2).1
  ∧ trace run.1 = []
  ∧ launched run.1 = []
  ∧ returned run.1
    = Some {| res_success := false; operationId := ident; res_totalItems := 0;
              res_successCount := 0; res_failureCount := 0; res_results := [];
              duration := (now (now w).2).1 - (now w).1 |}.
Proof.
  intros Hitems. unfold execute.
  set (r0 := start now (create now ident cfg w0) w).
  rewrite (BulkProps.loop_step now agents _ _ r0 (now w).2 (Int 0) 0 eq_refl).
  rewrite (BulkProps.iteration_head now agents r0 (now w).2 (Int 0) 0 eq_refl). cbn zeta.
  change (config (op r0)) with cfg. rewrite Hitems. simpl.
  rewrite BulkProps.loop_settled by (by destruct (cancelDuring 0)).
  simpl. destruct (cancelDuring 0); simpl; rewrite ?Hitems; simpl.
  all: conjs; try done.
  all: unfold returned; simpl; by rewrite ?Hitems.
Qed.

(** *** Pauses between batches *)

Lemma pauses_app (t1 t2 : list (@Event)) : pauses (t1 ++ t2) = pauses t1 + pauses t2.
Proof. unfold pauses. by rewrite List.filter_app, length_app. Qed.

Lemma pauses_none (t : list (@Event)) :
  Forall (λ ev, is_pause ev = false) t → pauses t = 0.
Proof.
  induction 1 as [|ev t Hev _ IH]; [done|].
  unfold pauses in *. simpl. by rewrite Hev.
Qed.

Lemma iteration_paced (r : Run) (w : W) :
  steady r → paced r → paced (iteration now agents r w).1.
Proof.
  intros H [Hallowed Hcount]. destruct (pc r) as [i k| |e] eqn:Hpc;
    [|unfold iteration; rewrite Hpc; simpl; unfold paced; rewrite Hpc; by split..].
  pose proof (steady_pc r H) as Hhead. rewrite Hpc in Hhead.
  destruct Hhead as (Hi & Hk & Hproc & Hrun).
  destruct (lt_len i (length (items (config (op r))))) eqn:Hin.
  - destruct (op_cancelled (op r)) eqn:Hcancel.
    + destruct (BulkProps.iteration_exit now agents r w i k Hpc (or_intror Hcancel))
        as (Hret & Hcfg & _ & _ & _ & _ & Hl & Htr & Hst & _).
      unfold paced. rewrite Hret, Hcfg, Htr, Hst, Hcancel. by split.
    + rewrite (BulkProps.iteration_head now agents r w i k Hpc). cbn zeta.
      rewrite Hin, Hcancel.
      set (b := effectiveBatchSize (config (op r))) in *.
      set (batch := slice (items (config (op r))) i (add i b)).
      pose proof (BulkProps.steady_room r i k H Hpc) as Hroom. fold b batch in Hroom.
      destruct (BulkProps.processBatch_spec agents k batch r w (steady_sound r H) Hroom)
        as (j & evs & Hspec).
      cbn zeta in Hspec.
      destruct (processBatch agents k batch r w) as [[r' w'] exn].
      destruct Hspec as (_ & _ & _ & Hfr & _ & _ & _ & _ & _ & Ht & _ & Hprog).
      destruct Hfr as (_ & Hcfg & _).
      assert (Hquiet : Forall (λ ev, is_pause ev = false)
                ((Dispatched k <$> batch)
                 ++ (uncurry (SettledItem k)
                       <$> zip batch (settle_all agents (config (op r)) batch w).1)
                 ++ evs)).
      { repeat (apply Forall_app; split).
        - apply Forall_forall. intros ev Hev.
          apply list_elem_of_fmap in Hev. by destruct Hev as (? & -> & _).
        - apply Forall_forall. intros ev Hev.
          apply list_elem_of_fmap in Hev. by destruct Hev as ([? ?] & -> & _).
        - eapply Forall_impl; [exact Hprog|]. by intros ev [? ->]. }
      assert (Hfree : Forall (pause_allowed (config (op r))) (trace r')).
      { rewrite Ht. apply Forall_app. split; [done|].
        eapply Forall_impl; [exact Hquiet|]. intros ev Hev. by destruct ev. }
      assert (Hsame : pauses (trace r') = pauses (trace r)).
      { rewrite Ht, pauses_app, (pauses_none _ Hquiet). lia. }
      destruct exn as [e|]; unfold paced; simpl; rewrite Hcfg; [by split|].
      unfold pausing in *.
      destruct (delayBetweenBatches (config (op r))) as [ms|] eqn:Hdelay.
      * destruct (lt_len (add i b) (length (items (config (op r))))) eqn:Hmore;
          destruct (falsy ms) eqn:Hms;
          cbn [negb andb] in Hcount |- *; rewrite ?app_nil_r.
        -- split; [done | by rewrite Hsame, Hcount].
        -- split.
           ++ apply Forall_app. split; [done|]. constructor; [|done].
              simpl. conjs; [done | done |]. fold b. by rewrite <- Hi.
           ++ rewrite pauses_app, Hsame, Hcount. unfold pauses. simpl. lia.
        -- split; [done | by rewrite Hsame, Hcount].
        -- split; [done|]. rewrite Hsame, Hcount. lia.
      * rewrite app_nil_r. split; [done | by rewrite Hsame, Hcount].
  - destruct (BulkProps.iteration_exit now agents r w i k Hpc (or_introl Hin))
      as (Hret & Hcfg & _ & _ & _ & _ & Hl & Htr & Hst & _).
    unfold paced. rewrite Hret, Hcfg, Htr, Hl. split; [done|]. intros _.
    by rewrite Hcount, <- Hk.
Qed.

(** X4 — A pause is taken only for a configured delay that is neither
    zero nor [NaN], and only after a batch that leaves items behind
    it: never after the last batch.  A run that returns [completed]
    has paused once after every batch but the last when a delay is
    configured, and never otherwise. *)
Theorem pauses_only_between_batches (cancelDuring : nat → bool) (fuel : nat)
    (ident : string) (cfg : BulkOperationConfig) (w0 w : W) :
  let r := (execute now agents cancelDuring fuel (create now ident cfg w0) w).1 in
  (∀ k ms, Delay k ms ∈ trace r →
     delayBetweenBatches cfg = Some ms
     ∧ falsy ms = false
     ∧ (whole (effectiveBatchSize cfg) →
        lt_len (index (effectiveBatchSize cfg) (S k)) (length (items cfg)) = true)
     ∧ (pc r = Returned → status (op_status (op r)) = completed →
        S k < length (launched r)))
  ∧ (pc r = Returned → status (op_status (op r)) = completed →
     pauses (trace r) = if pausing cfg then length (launched r) - 1 else 0).
Proof.
  intros r.
  destruct (BulkProps.execute_steady now agents cancelDuring fuel ident cfg w0 w)
    as (H & Ht & Hcfg & _).
  fold r in H, Ht, Hcfg.
  assert (Hpaced : paced r).
  { apply (loop_preserves paced); [apply iteration_paced | | apply BulkProps.start_steady |].
    - intros r1 Hr1. exact Hr1.
    - split; [constructor|]. simpl. by repeat case_match. }
  destruct Hpaced as [Hallowed Hcount]. rewrite Hcfg in Hallowed, Hcount. split.
  - intros k ms Hev. rewrite Forall_forall in Hallowed.
    destruct (Hallowed _ Hev) as (Hdelay & Hms & Hmore). conjs; [done | done | done |].
    intros Hret Hdone.
    pose proof (traced_events r Ht) as Hevents. rewrite Forall_forall in Hevents.
    specialize (Hevents _ Hev). simpl in Hevents.
    pose proof (steady_pc r H) as Hend. rewrite Hret, Hcfg in Hend.
    destruct Hend as (_ & _ & Hfull). specialize (Hfull Hdone).
    destruct (decide (S k = length (launched r))) as [Heq|]; [|lia].
    rewrite <- Heq in Hfull. congruence.
  - intros Hret. by rewrite Hret in Hcount.
Qed.

(** *** The manager *)

(** X5 — [cleanup] removes exactly the registered operations that are
    completed, failed or cancelled: afterwards [cancelOperation]
    answers [true] for the registered operations that were not
    terminal, and for no other identifier.  A second [cleanup] changes
    nothing. *)
Theorem cleanup_removes_terminal_operations (m : @Manager W) (operationId : string) :
  (∀ r, activeOperations (cleanup m) !! operationId = Some r
        ↔ activeOperations m !! operationId = Some r ∧ isCompleted (op r) = false)
  ∧ ((cancelOperation operationId (cleanup m)).1 = true
     ↔ ∃ r, activeOperations m !! operationId = Some r ∧ isCompleted (op r) = false)
  ∧ cleanup (cleanup m) = cleanup m.
Proof.
  assert (Hlook : ∀ r, activeOperations (cleanup m) !! operationId = Some r
            ↔ activeOperations m !! operationId = Some r ∧ isCompleted (op r) = false).
  { intros r. unfold cleanup. simpl. by rewrite map_lookup_filter_Some. }
  conjs; [exact Hlook | |].
  - unfold cancelOperation.
    destruct (activeOperations (cleanup m) !! operationId) as [r|] eqn:Hr; simpl.
    + split; [|done]. intros _. exists r. by apply Hlook.
    + split; [done|]. intros (r & Hin). apply Hlook in Hin. congruence.
  - unfold cleanup. simpl. f_equal. apply map_filter_id.
    intros i x Hx. by apply map_lookup_filter_Some in Hx as [_ ?].
Qed.

Lemma iteration_settled (r : Run) (w : W) :
  (∀ i k, pc r ≠ AtLoopHead i k) → iteration now agents r w = (r, w).
Proof.
  intros Hpc. unfold iteration.
  destruct (pc r) as [i k| |e] eqn:Heq; [by destruct (Hpc i k) | done | done].
Qed.

(** The continuations of [execute], taken one after the other with
    nobody cancelling, are the loop. *)
Lemma perform_resumes (operationId : string) (turns : nat) (m : @Manager W)
    (r : Run) (w : W) :
  activeOperations m !! operationId = Some r →
  perform now agents (repeat (Resume operationId) turns) m w
  = ({| activeOperations :=
          <[operationId := (loop now agents (λ _, false) turns r w).1]>
            (activeOperations m) |},
     (loop now agents (λ _, false) turns r w).2).
Proof.
  revert m r w. induction turns as [|turns IH]; intros m r w Hr.
  - simpl. destruct m as [am]. simpl in *. by rewrite insert_id.
  - cbn [repeat perform act]. unfold resume. rewrite Hr.
    assert (Hloop : loop now agents (λ _, false) (S turns) r w
                    = loop now agents (λ _, false) turns
                        (iteration now agents r w).1 (iteration now agents r w).2).
    { destruct (pc r) as [i k| |e] eqn:Hpc.
      - by rewrite (BulkProps.loop_step now agents _ _ r w i k Hpc).
      - rewrite iteration_settled by (rewrite Hpc; done).
        cbn [fst snd]. rewrite !BulkProps.loop_settled by (rewrite Hpc; done). done.
      - rewrite iteration_settled by (rewrite Hpc; done).
        cbn [fst snd]. rewrite !BulkProps.loop_settled by (rewrite Hpc; done). done. }
    rewrite Hloop. destruct (iteration now agents r w) as [r' w']. simpl.
    rewrite (IH _ r' w') by (simpl; apply lookup_insert_eq).
    simpl. by rewrite insert_insert_eq.
Qed.

(** X6 — An operation submitted to the manager is registered while it runs
    and is no longer once [executeBulkOperation] has settled, whether
    [execute] returned or threw: the registry is then what it was
    before, without the identifier. *)
Theorem manager_forgets_settled_operation (m : @Manager W) (operationId : string)
    (cfg : BulkOperationConfig) (w : W) (turns : nat) :
  positive (effectiveBatchSize cfg) →
  whole (effectiveBatchSize cfg) →
  length (items cfg) ≤ turns →
  let running_ :=
    perform now agents (Submit operationId cfg :: repeat (Resume operationId) turns) m w in
  let settled :=
    perform now agents [Finally operationId] running_.1 running_.2 in
  (∃ r, activeOperations running_.1 !! operationId = Some r
        ∧ (pc r = Returned ∨ ∃ e, pc r = Thrown e))
  ∧ activeOperations settled.1 = delete operationId (activeOperations m).
Proof.
  intros Hb Hwhole Hturns. cbn [perform act]. unfold executeBulkOperation_begin. cbn zeta.
  set (w1 := (now w).2).
  set (r0 := start now (create now operationId cfg w) w1).
  pose proof (BulkProps.start_steady now operationId cfg w w1) as Hstart. fold r0 in Hstart.
  pose proof (BulkProps.loop_terminates now agents (λ _, false) (S turns) r0 (now w1).2
                (Int 0) 0 (length (items cfg)) Hstart eq_refl) as Hend.
  specialize (Hend (BulkProps.index_beyond _ _ Hb Hwhole) ltac:(lia) ltac:(lia)).
  cbn zeta in Hend.
  rewrite (BulkProps.loop_step now agents _ _ r0 (now w1).2 (Int 0) 0 eq_refl) in Hend.
  cbn [request_cancel] in Hend.
  destruct (iteration now agents r0 (now w1).2) as [r1 w2]. simpl in Hend.
  rewrite (perform_resumes operationId turns _ r1 w2) by (simpl; apply lookup_insert_eq).
  set (r := (loop now agents (λ _, false) turns r1 w2).1) in *.
  cbn [fst snd activeOperations]. split.
  - exists r. by rewrite lookup_insert_eq.
  - unfold executeBulkOperation_finally. simpl. rewrite lookup_insert_eq.
    destruct Hend as [Hret|[e He]]; [rewrite Hret | rewrite He]; simpl;
      by rewrite !delete_insert_eq.
Qed.

End Facts.

(** Three items, no catalog agent. *)
Lemma missing_agent_fails_every_item_witness :
  let r := (execute Samples.clock Samples.bulkAgents Samples.never 4
              (create Samples.clock "bulk-op-2" Inputs.orphaned tt) tt).1 in
  Samples.bulkAgents !! agentType Inputs.orphaned = None
  ∧ pc r = Returned
  ∧ op_results (op r)
    = agent_not_found Inputs.orphaned <$> [VNum 1; VNum 2; VNum 3].
Proof.
  intros r.
  assert (Hmissing : Samples.bulkAgents !! agentType Inputs.orphaned = None)
    by reflexivity.
  destruct (missing_agent_fails_every_item Samples.clock Samples.bulkAgents
              Samples.never 4 "bulk-op-2" Inputs.orphaned tt tt Hmissing)
    as (Hres & _ & _ & _ & Hrun).
  destruct Hrun as (Hret & _ & Hall & _).
  { simpl. lia. }
  { exact I. }
  { simpl. lia. }
  { intros callback Hcallback. discriminate Hcallback. }
  { reflexivity. }
  split; [exact Hmissing|]. split; [exact Hret|].
  fold r in Hres, Hall. rewrite Hres, Hall. reflexivity.
Defined.

(** No item, [batchSize: -1], and a clock that takes a millisecond to
    read: the operation is made at 1000 and runs from 1001 on. *)
Lemma empty_run_completes_at_once_witness :
  let run := execute Samples.ticking ∅ Samples.never 1
               (create Samples.ticking "bulk-op-3" Inputs.nothing 1000%Z) 1001%Z in
  items (@Inputs.nothing Z) = []
  ∧ status (op_status (op run.1)) = completed
  ∧ run.2 = 1003%Z
  ∧ res_success <$> returned run.1 = Some false
  ∧ duration <$> returned run.1 = Some 1%Z.
Proof.
  intros run.
  destruct (empty_run_completes_at_once Samples.ticking ∅
              Samples.never 0 "bulk-op-3" Inputs.nothing 1000%Z 1001%Z eq_refl)
    as (Hworld & Hstatus & _ & _ & _ & _ & Hres).
  split; [reflexivity|]. split; [exact Hstatus|]. split; [exact Hworld|].
  fold run in Hres. rewrite Hres. split; reflexivity.
Defined.

(** One item, one continuation, then the [finally] block. *)
Lemma manager_forgets_settled_operation_witness :
  positive (effectiveBatchSize Samples.single)
  ∧ whole (effectiveBatchSize Samples.single)
  ∧ length (items Samples.single) ≤ 1
  ∧ activeOperations
      (perform Samples.clock Samples.bulkAgents
         [Submit "bulk-op-1" Samples.single; Resume "bulk-op-1"; Finally "bulk-op-1"]
         idle tt).1
    = ∅.
Proof.
  assert (Hpositive : positive (effectiveBatchSize Samples.single)) by reflexivity.
  assert (Hwhole : whole (effectiveBatchSize Samples.single)) by exact I.
  assert (Hturns : length (items Samples.single) ≤ 1) by (simpl; lia).
  destruct (manager_forgets_settled_operation Samples.clock Samples.bulkAgents
              idle "bulk-op-1" Samples.single tt 1 Hpositive Hwhole Hturns) as [_ Hgone].
  split; [exact Hpositive|]. split; [exact Hwhole|]. split; [exact Hturns|].
  etrans; [exact Hgone|]. reflexivity.
Defined.

End BulkManagerProps.

(** * Further properties of the coordinator *)

Module RoutingProps.

Import Workflow WorkflowSpec Routing.

Local Open Scope list_scope.
Local Open Scope nat_scope.

Lemma latest_cons (name : string) (s : Step) (r : AgentResult)
    (recorded : list (Step * AgentResult)) :
  latest name ((s, r) :: recorded)
  = match latest name recorded with
    | Some r' => Some r'
    | None => if decide (operation s = name) then Some r else None
    end.
Proof.
  unfold latest. destruct (decide (operation s = name)) as [Heq|Hne].
  - rewrite filter_cons_True by done. rewrite last_cons.
    by destruct (last (filter (λ sr, operation sr.1 = name) recorded)).
  - rewrite filter_cons_False by done.
    by destruct (last (filter (λ sr, operation sr.1 = name) recorded)).
Qed.

(** Looking a name up in [stepResults] after the insertions of a run. *)
Lemma lookup_recorded (name : string) (recorded : list (Step * AgentResult))
    (known : gmap string AgentResult) :
  foldl (λ m sr, <[operation sr.1 := sr.2]> m) known recorded !! name
  = match latest name recorded with
    | Some r => Some r
    | None => known !! name
    end.
Proof.
  revert known. induction recorded as [|[s r] recorded IH]; intros known; [done|].
  simpl foldl. rewrite IH, latest_cons.
  destruct (latest name recorded) as [r'|]; [done|]. simpl.
  destruct (decide (operation s = name)) as [<-|Hne].
  - apply lookup_insert_eq.
  - by apply lookup_insert_ne.
Qed.

Section Facts.

Context {W : Type} (agents : gmap string (@Agent W)).

(** What the loop adds to the results and to [stepResults]. *)
Lemma run_steps_ledger (todo : list Step) (st : RunState) :
  ∃ rs,
    results (run_steps agents todo st).1 = results st ++ rs
    ∧ stepResults (run_steps agents todo st).1
      = foldl (λ m sr, <[operation sr.1 := sr.2]> m) (stepResults st) (zip todo rs)
    ∧ length rs ≤ length todo
    ∧ ((run_steps agents todo st).2 = Next → length rs = length todo).
Proof.
  revert st. induction todo as [|s todo IH]; intros st; simpl.
  - exists []. by rewrite app_nil_r.
  - unfold exec_step. destruct (blocked s (stepResults st)).
    + destruct (critical s).
      * exists [failedResult s]. simpl. rewrite zip_with_nil_r.
        conjs; [done | done | lia | done].
      * destruct (IH (record s (failedResult s) (world st) false st))
          as (rs & Hres & Hmap & Hlen & Hall).
        exists (failedResult s :: rs). simpl in *.
        rewrite Hres, <- app_assoc. conjs; [done | done | lia |].
        intros Hn. by rewrite (Hall Hn).
    + destruct (dispatch agents s (world st)) as [[r|e] w'].
      * destruct (negb (success r) && critical s).
        -- exists [r]. simpl. rewrite zip_with_nil_r.
           conjs; [done | done | lia | done].
        -- destruct (IH (record s r w' true st)) as (rs & Hres & Hmap & Hlen & Hall).
           exists (r :: rs). simpl in *.
           rewrite Hres, <- app_assoc. conjs; [done | done | lia |].
           intros Hn. by rewrite (Hall Hn).
      * exists []. simpl. rewrite app_nil_r. conjs; [done | done | lia | done].
Qed.

Lemma latest_none (name : string) (recorded : list (@Step * AgentResult)) :
  name ∉ (operation <$> recorded.*1) → latest name recorded = None.
Proof.
  induction recorded as [|[s r] recorded IH]; intros Hnot; [done|].
  rewrite latest_cons, IH.
  - destruct (decide (operation s = name)) as [<-|]; [|done].
    destruct Hnot. simpl. apply list_elem_of_here.
  - intros Hin. apply Hnot. simpl. by apply list_elem_of_further.
Qed.

Lemma zip_fst_sub {A B : Type} (l : list A) (k : list B) (x : A) :
  x ∈ (zip l k).*1 → x ∈ l.
Proof.
  revert k. induction l as [|a l IH]; intros k Hin; [done|].
  destruct k as [|b k]; [by inversion Hin|]. simpl in Hin.
  apply elem_of_cons in Hin. destruct Hin as [->|Hin].
  - apply list_elem_of_here.
  - apply list_elem_of_further. by apply (IH k).
Qed.

(** X7 — When several steps share an operation name, the entry of
    [stepResults] under that name is the result of the latest of them:
    after the steps [pre] have all been visited there is one result per
    step, and a dependency on [name] is judged by the last result a
    step named [name] got. *)
Theorem dependency_reads_latest_result (pre : list Step) (w : W) (st : RunState) :
  run_steps agents pre (initial w) = (st, Next) →
  length (results st) = length pre
  ∧ (∀ name, stepResults st !! name = latest name (zip pre (results st)))
  ∧ ∀ step deps, dependsOn step = Some deps →
      (blocked step (stepResults st) = false
       ↔ ∀ dep, dep ∈ deps →
           ∃ r, latest dep (zip pre (results st)) = Some r ∧ success r = true).
Proof.
  intros Hrun.
  destruct (run_steps_ledger pre (initial w)) as (rs & Hres & Hmap & _ & Hall).
  rewrite Hrun in Hres, Hmap, Hall. simpl in Hres, Hmap, Hall.
  specialize (Hall eq_refl). subst rs.
  assert (Hlook : ∀ name, stepResults st !! name = latest name (zip pre (results st))).
  { intros name. rewrite Hmap, lookup_recorded.
    by destruct (latest name (zip pre (results st))). }
  conjs; [done | done |].
  intros step deps Hdeps. unfold blocked. rewrite Hdeps, negb_false_iff.
  unfold dependenciesMet. rewrite forallb_forall. split.
  - intros Hmet dep Hdep. specialize (Hmet dep (proj1 (list_elem_of_In _ _) Hdep)).
    rewrite Hlook in Hmet.
    destruct (latest dep (zip pre (results st))) as [r|]; [eauto | done].
  - intros Hmet dep Hdep. apply list_elem_of_In in Hdep.
    destruct (Hmet dep Hdep) as (r & Hr & Hok). by rewrite Hlook, Hr.
Qed.

(** X8 — A dependency on an operation name that no earlier step of the
    workflow bears (the name of a later step, of the step itself, or a
    name that does not occur) is never met: the step is answered by the
    "dependencies not met" failure and is not dispatched. *)
Theorem undeclared_dependency_blocks_step (pre : list Step) (step : Step) (w : W)
    (st : RunState) (deps : list string) (dep : string) :
  run_steps agents pre (initial w) = (st, Next) →
  dependsOn step = Some deps →
  dep ∈ deps →
  dep ∉ (operation <$> pre) →
  exec_step agents step st
  = (record step (failedResult step) (world st) false st,
     if critical step then Break else Next).
Proof.
  intros Hrun Hdeps Hdep Hnew.
  destruct (run_steps_ledger pre (initial w)) as (rs & Hres & Hmap & _ & _).
  rewrite Hrun in Hres, Hmap. simpl in Hres, Hmap.
  apply WorkflowProps.exec_step_blocked.
  apply (WorkflowProps.blocked_by_unmet step _ deps dep Hdeps Hdep).
  intros r Hr. rewrite Hmap, lookup_recorded, latest_none in Hr; [done|].
  intros Hin. apply Hnew. apply list_elem_of_fmap in Hin.
  destruct Hin as (s & -> & Hs). apply list_elem_of_fmap. exists s.
  split; [done|]. by apply (zip_fst_sub pre rs).
Qed.

(** The state of a run in which no step of the names [cycle] has been
    dispatched or has a successful result. *)
Lemma exec_step_starved (cycle : list string) (s : Step) (st : RunState) :
  (operation s ∈ cycle →
     ∃ deps dep, dependsOn s = Some deps ∧ dep ∈ deps ∧ dep ∈ cycle) →
  (∀ name r, name ∈ cycle → stepResults st !! name = Some r → success r = false) →
  (∀ s', s' ∈ dispatched st → operation s' ∉ cycle) →
  let st' := (exec_step agents s st).1 in
  (∀ name r, name ∈ cycle → stepResults st' !! name = Some r → success r = false)
  ∧ (∀ s', s' ∈ dispatched st' → operation s' ∉ cycle).
Proof.
  intros Hcyc Hres Hdisp.
  assert (Hins : ∀ r w sent, (operation s ∈ cycle → success r = false) →
            ∀ name r', name ∈ cycle →
              stepResults (record s r w sent st) !! name = Some r' → success r' = false).
  { intros r w sent Hr name r' Hname. simpl.
    destruct (decide (operation s = name)) as [<-|Hne].
    - rewrite lookup_insert_eq. intros [= <-]. by apply Hr.
    - rewrite lookup_insert_ne by done. by apply Hres. }
  destruct (decide (operation s ∈ cycle)) as [Hin|Hout].
  - destruct (Hcyc Hin) as (deps & dep & Hdeps & Hdep & Hdepc).
    rewrite WorkflowProps.exec_step_blocked
      by (apply (WorkflowProps.blocked_by_unmet s _ deps dep Hdeps Hdep);
          intros r; by apply Hres).
    cbn zeta. split; [by apply Hins | done].
  - cbn zeta. unfold exec_step. destruct (blocked s (stepResults st)).
    + split; [apply Hins; by intros ? | done].
    + destruct (dispatch agents s (world st)) as [[r|e] w'].
      * split; [apply Hins; by intros ?|]. simpl. intros s' Hs'.
        apply elem_of_app in Hs'. destruct Hs' as [Hs'|Hs']; [by apply Hdisp|].
        apply list_elem_of_singleton in Hs'. by subst s'.
      * split; [done|]. simpl. intros s' Hs'.
        apply elem_of_app in Hs'. destruct Hs' as [Hs'|Hs']; [by apply Hdisp|].
        apply list_elem_of_singleton in Hs'. by subst s'.
Qed.

Lemma run_steps_starved (cycle : list string) (todo : list Step) (st : RunState) :
  (∀ s, s ∈ todo → operation s ∈ cycle →
        ∃ deps dep, dependsOn s = Some deps ∧ dep ∈ deps ∧ dep ∈ cycle) →
  (∀ name r, name ∈ cycle → stepResults st !! name = Some r → success r = false) →
  (∀ s', s' ∈ dispatched st → operation s' ∉ cycle) →
  let st' := (run_steps agents todo st).1 in
  (∀ name r, name ∈ cycle → stepResults st' !! name = Some r → success r = false)
  ∧ (∀ s', s' ∈ dispatched st' → operation s' ∉ cycle).
Proof.
  revert st. induction todo as [|s todo IH]; intros st Hcyc Hres Hdisp; [done|].
  simpl.
  destruct (exec_step_starved cycle s st (Hcyc s (list_elem_of_here _ _)) Hres Hdisp)
    as [Hres' Hdisp'].
  destruct (exec_step agents s st) as [st1 []]; [|done..].
  apply IH; [|done|done].
  intros s' Hs'. apply Hcyc. by apply list_elem_of_further.
Qed.

(** X9 — Steps that wait for each other are never run: when every step
    whose operation name is in [cycle] depends on some name of [cycle]
    (a step that depends on itself, two steps that depend on each
    other, ...), no step with such a name is ever dispatched, and what
    is recorded under these names is never a success. *)
Theorem dependency_cycle_is_never_dispatched (cycle : list string)
    (workflow : WorkflowDef) (w : W) :
  (∀ s, s ∈ steps workflow → operation s ∈ cycle →
        ∃ deps dep, dependsOn s = Some deps ∧ dep ∈ deps ∧ dep ∈ cycle) →
  let st := (run agents workflow w).1 in
  (∀ s, s ∈ dispatched st → operation s ∉ cycle)
  ∧ (∀ name r, name ∈ cycle → stepResults st !! name = Some r → success r = false).
Proof.
  intros Hcyc. cbn zeta. unfold run.
  destruct (run_steps_starved cycle (steps workflow) (initial w) Hcyc) as [Hres Hdisp].
  - intros name r _ Hr. simpl in Hr. by rewrite lookup_empty in Hr.
  - intros s' Hs'. by inversion Hs'.
  - by split.
Qed.

(** X10 — A step reaches an agent only when an agent is registered under its
    type and its operation is one of the four listed for that type; one
    method is then called, with the data of the step.  In every other
    case the step is answered by a failure result and the world is left
    as it was: [dispatch] itself never throws. *)
Theorem dispatch_calls_listed_method_or_fails (step : Step) (w : W) :
  match agents !! agentType step, method_of (agentType step) (operation step) with
  | Some agent, Some method =>
      dispatch agents step w = agent method (step_data step) w
  | _, _ => ∃ msg, dispatch agents step w = (Fulfilled (failure msg), w)
  end.
Proof.
  unfold dispatch, method_of, executeSEOOperation, executeNavigationOperation,
    executeCatalogOperation. cbn [op_type op_data]. unfold Agent in *.
  destruct (String.eqb_spec (agentType step) "seo") as [->|_].
  { destruct (agents !! "seo"); repeat case_match; simplify_eq; eauto. }
  destruct (String.eqb_spec (agentType step) "navigation") as [->|_].
  { destruct (agents !! "navigation"); repeat case_match; simplify_eq; eauto. }
  destruct (String.eqb_spec (agentType step) "catalog") as [->|_].
  { destruct (agents !! "catalog"); repeat case_match; simplify_eq; eauto. }
  destruct (agents !! agentType step); eauto.
Qed.

(** X11 — [routeTaskToEnhancedAgent] serves eight task kinds; any other kind,
    among them seven of the kinds [AgentTaskSchema] accepts, is
    answered by ["Unknown task type: ..."] without any agent being
    touched.  A kind that is served is handled as the workflow step of
    the agent type and operation it is mapped to, and that pair always
    names a method. *)
Theorem router_serves_eight_task_kinds (task_type : string) (task_data : Value) (w : W) :
  match route task_type with
  | None =>
      routeTaskToEnhancedAgent agents task_type task_data w
      = (Fulfilled (failure ("Unknown task type: " +:+ task_type)), w)
  | Some (agentType, operationType) =>
      routeTaskToEnhancedAgent agents task_type task_data w
      = dispatch agents {| agentType := agentType; operation := operationType;
                           step_data := task_data; dependsOn := None;
                           critical := false |} w
      ∧ is_Some (method_of agentType operationType)
  end
  ∧ filter (λ kind, route kind = None) task_types
    = ["seo-bulk-update"; "seo-extract"; "validate-page"; "extract-results";
       "pricing-update"; "extract-catalog"; "workflow"].
Proof.
  split; [|reflexivity].
  unfold routeTaskToEnhancedAgent, route.
  repeat case_match; simplify_eq; by eauto.
Qed.

End Facts.

(** The SEO extraction fails, the catalog extraction under the same
    name succeeds: the step that waits for ["extract"] may run. *)
Lemma dependency_reads_latest_result_witness :
  let st := (run_steps Samples.agents [Inputs.extractSeo; Inputs.extractCatalog]
               (initial tt)).1 in
  success <$> results st = [false; true]
  ∧ stepResults st !! "extract" = Some Samples.done
  ∧ blocked Inputs.afterExtract (stepResults st) = false.
Proof.
  intros st.
  destruct (dependency_reads_latest_result Samples.agents
              [Inputs.extractSeo; Inputs.extractCatalog] tt st eq_refl)
    as (_ & Hlatest & Hblocked).
  split; [reflexivity|]. split.
  - rewrite Hlatest. reflexivity.
  - apply (Hblocked Inputs.afterExtract ["extract"] eq_refl).
    intros dep Hdep. apply list_elem_of_singleton in Hdep. subst dep.
    exists Samples.done. split; reflexivity.
Defined.

(** [stepB] waits for ["validate"], which no earlier step bears. *)
Lemma undeclared_dependency_blocks_step_witness :
  let st := (run_steps Samples.agents [Samples.syncStep] (initial tt)).1 in
  ("validate" ∉ (operation <$> [Samples.syncStep]))
  ∧ (exec_step Samples.agents Samples.stepB st).2 = Next
  ∧ dispatched (exec_step Samples.agents Samples.stepB st).1 = [Samples.syncStep].
Proof.
  intros st.
  assert (Hnew : "validate" ∉ (operation <$> [Samples.syncStep])).
  { intros Hin. apply list_elem_of_singleton in Hin. discriminate Hin. }
  assert (Hdep : "validate" ∈ ["validate"]) by apply list_elem_of_here.
  pose proof (undeclared_dependency_blocks_step Samples.agents [Samples.syncStep]
                Samples.stepB tt st ["validate"] "validate" eq_refl eq_refl Hdep Hnew)
    as Hstep.
  split; [exact Hnew|]. rewrite Hstep. split; reflexivity.
Defined.

(** Neither of two steps that wait for each other is dispatched. *)
Lemma dependency_cycle_is_never_dispatched_witness :
  let st := (run Samples.agents Inputs.deadlock tt).1 in
  dispatched st = []
  ∧ ∀ s, s ∈ dispatched st → operation s ∉ ["sync"; "inventory"].
Proof.
  intros st. split; [reflexivity|].
  apply (dependency_cycle_is_never_dispatched Samples.agents ["sync"; "inventory"]
           Inputs.deadlock tt).
  intros s Hs _. apply elem_of_cons in Hs. destruct Hs as [->|Hs].
  - exists ["inventory"], "inventory". split; [reflexivity|].
    split; [apply list_elem_of_here | apply list_elem_of_further, list_elem_of_here].
  - apply list_elem_of_singleton in Hs. subst s.
    exists ["sync"], "sync". split; [reflexivity|].
    split; apply list_elem_of_here.
Defined.

End RoutingProps.

(** * Further properties of the agent registry *)

Module FactoryStatusProps.

Import Factory FactorySpec FactoryStatus.

Local Open Scope list_scope.
Local Open Scope nat_scope.

(** Cache keys tell the agent type and the page type apart. *)
Lemma key_injective (t t' : AgentType) (p p' : PageType) :
  type_name t +:+ "-" +:+ page_name p = type_name t' +:+ "-" +:+ page_name p' →
  t = t' ∧ p = p'.
Proof.
  destruct t, t'; destruct p, p'; intros H; first [by split | discriminate H].
Qed.

(** *** The cache as a list of entries *)

Lemma map_has_keys {A : Type} (key : string) (m : list (string * A)) :
  map_has key m = true ↔ key ∈ m.*1.
Proof.
  unfold map_has. induction m as [|[k v] m IH]; simpl.
  - split; [done | by inversion 1].
  - rewrite orb_true_iff, IH, elem_of_cons. split.
    + intros [Heq|Hin]; [left; symmetry; by apply String.eqb_eq | by right].
    + intros [->|Hin]; [left; apply String.eqb_refl | by right].
Qed.

Lemma map_set_elem {A : Type} (key k : string) (v a : A) (m : list (string * A)) :
  (k, a) ∈ map_set key v m → (k = key ∧ a = v) ∨ ((k, a) ∈ m ∧ k ≠ key).
Proof.
  unfold map_set. destruct (map_has key m) eqn:Hhas.
  - intros Hin. apply list_elem_of_fmap in Hin. destruct Hin as ([k' a'] & Heq & Hin).
    simpl in Heq. destruct (String.eqb_spec k' key) as [->|Hne].
    + left. by injection Heq.
    + right. injection Heq as -> ->. by split.
  - intros Hin. apply elem_of_app in Hin. destruct Hin as [Hin|Hin].
    + right. split; [done|]. intros ->.
      assert (Hkey : key ∈ m.*1) by (apply list_elem_of_fmap; by exists (key, a)).
      apply map_has_keys in Hkey. congruence.
    + apply list_elem_of_singleton in Hin. left. by injection Hin.
Qed.

Lemma map_set_elem_new {A : Type} (key : string) (v : A) (m : list (string * A)) :
  (key, v) ∈ map_set key v m.
Proof.
  apply FactoryProps.map_get_elem. apply FactoryProps.map_set_get_eq.
Qed.

Lemma map_set_keys {A : Type} (key : string) (v : A) (m : list (string * A)) :
  (map_set key v m).*1 = if map_has key m then m.*1 else m.*1 ++ [key].
Proof.
  unfold map_set. destruct (map_has key m).
  - rewrite <- list_fmap_compose. apply list_fmap_ext. intros i [k a] _. simpl.
    by destruct (String.eqb_spec k key) as [->|].
  - by rewrite fmap_app.
Qed.

Lemma map_set_NoDup {A : Type} (key : string) (v : A) (m : list (string * A)) :
  NoDup m.*1 → NoDup (map_set key v m).*1.
Proof.
  intros Hm. rewrite map_set_keys. destruct (map_has key m) eqn:Hhas; [done|].
  apply NoDup_app. split; [done|]. split; [|apply NoDup_singleton].
  intros k Hk Hk'. apply list_elem_of_singleton in Hk'. subst k.
  apply map_has_keys in Hk. congruence.
Qed.

(** Replacing or adding one entry keeps a projection of the entries
    free of duplicates when the projection of the new entry is new. *)
Lemma map_set_NoDup_on {A B : Type} (g : string * A → B) (key : string) (v : A)
    (m : list (string * A)) :
  NoDup m.*1 → NoDup (g <$> m) → g (key, v) ∉ g <$> m →
  NoDup (g <$> map_set key v m).
Proof.
  intros Hkeys Hg Hnew. unfold map_set. destruct (map_has key m) eqn:Hhas.
  - clear Hhas. induction m as [|[k a] m IH]; [constructor|].
    rewrite !fmap_cons in *. cbn [fst] in *.
    apply NoDup_cons in Hkeys. destruct Hkeys as [Hk Hkeys].
    apply NoDup_cons in Hg. destruct Hg as [Ha Hg].
    apply not_elem_of_cons in Hnew. destruct Hnew as [Hne Hnew].
    assert (Hin : ∀ y, y ∈ g <$> ((λ kv, if String.eqb kv.1 key then (key, v) else kv) <$> m) →
                       y = g (key, v) ∨ y ∈ g <$> m).
    { intros y Hy. apply list_elem_of_fmap in Hy. destruct Hy as (kv & -> & Hkv).
      apply list_elem_of_fmap in Hkv. destruct Hkv as (kv' & -> & Hkv').
      destruct (String.eqb kv'.1 key); [by left|].
      right. by apply list_elem_of_fmap_2. }
    apply NoDup_cons. split; [|by apply IH].
    destruct (String.eqb_spec k key) as [->|Hk'].
    + (* the key occurs once: nothing else is replaced *)
      assert (Hsame : (λ kv : string * A, if String.eqb kv.1 key then (key, v) else kv) <$> m = m).
      { rewrite <- (list_fmap_id m) at 2. apply list_fmap_ext. intros i kv Hi.
        destruct (String.eqb_spec kv.1 key) as [Heq|]; [|done].
        destruct Hk. apply list_elem_of_lookup_2 in Hi.
        apply list_elem_of_fmap. by exists kv. }
      by rewrite Hsame.
    + intros Hy. apply Hin in Hy. destruct Hy as [Hy|Hy]; [by symmetry in Hy | done].
  - rewrite fmap_app. apply NoDup_app. split; [done|]. split; [|apply NoDup_singleton].
    intros y Hy Hy'. apply list_elem_of_singleton in Hy'. by subst y.
Qed.

Lemma filter_NoDup_on {A B : Type} (g : A → B) (keep : A → bool) (l : list A) :
  NoDup (g <$> l) → NoDup (g <$> List.filter keep l).
Proof.
  induction l as [|x l IH]; [done|].
  rewrite fmap_cons. intros Hl. apply NoDup_cons in Hl. destruct Hl as [Hx Hl].
  cbn [List.filter]. destruct (keep x); [|by apply IH].
  rewrite fmap_cons. apply NoDup_cons. split; [|by apply IH].
  intros Hin. apply Hx. apply list_elem_of_fmap in Hin. destruct Hin as (y & -> & Hy).
  apply list_elem_of_fmap_2. apply list_elem_of_In, List.filter_In in Hy.
  apply list_elem_of_In, Hy.
Qed.

Lemma filter_everything {A : Type} (keep : A → bool) (l : list A) :
  (∀ x, x ∈ l → keep x = true) → List.filter keep l = l.
Proof.
  induction l as [|x l IH]; intros Hall; simpl; [done|].
  rewrite (Hall x) by apply list_elem_of_here. f_equal.
  apply IH. intros y Hy. apply Hall. by apply list_elem_of_further.
Qed.

Lemma NoDup_on_inj {A B : Type} (g : A → B) (l : list A) (x y : A) :
  NoDup (g <$> l) → x ∈ l → y ∈ l → g x = g y → x = y.
Proof.
  induction l as [|a l IH]; [by inversion 2|].
  rewrite fmap_cons. intros Hl Hx Hy Heq.
  apply NoDup_cons in Hl. destruct Hl as [Ha Hl].
  apply elem_of_cons in Hx. apply elem_of_cons in Hy.
  destruct Hx as [->|Hx], Hy as [->|Hy]; [done | | | by apply IH].
  - destruct Ha. rewrite Heq. by apply list_elem_of_fmap_2.
  - destruct Ha. rewrite <- Heq. by apply list_elem_of_fmap_2.
Qed.

Section Facts.

Variable on_square_host : bool.
Variable constructs : AgentClass → bool.
Variable catalog_has_destroy : bool.

Local Abbreviation createAgent := (createAgent on_square_host constructs).
Local Abbreviation getAgent_body := (getAgent_body on_square_host constructs).
Local Abbreviation getAgent_fallback := (getAgent_fallback on_square_host constructs).
Local Abbreviation getAgent := (getAgent on_square_host constructs).
Local Abbreviation updateContext := (updateContext catalog_has_destroy).
Local Abbreviation destroy := (destroy catalog_has_destroy).
Local Abbreviation valid_for := (valid_for on_square_host).
Local Abbreviation kept := (kept on_square_host constructs).
Local Abbreviation well_kept := (well_kept on_square_host constructs).
Local Abbreviation reachable := (reachable on_square_host constructs catalog_has_destroy).
Local Abbreviation served := (served on_square_host constructs).
Local Abbreviation isAgentAvailable := (isAgentAvailable on_square_host).
Local Abbreviation getStatus := (getStatus on_square_host).

(** *** Creation *)

Lemma createAgent_kept (t : AgentType) (f f' : AgentFactory) (a : AgentInstance) :
  createAgent t f = (Some a, f') →
  valid_for t (pageType (page (context f))) = true
  ∧ enhanced a = negb (is_mock t)
  ∧ class (instance a) = class_of t
  ∧ (is_mock t = false → constructs (class_of t) = true)
  ∧ capabilities a
    = match t with
      | mock_seo => ["Mock seo operations for testing"]
      | t => getAgentCapabilities t
      end.
Proof.
  unfold Factory.createAgent, construct, createMockAgent, FactoryStatus.valid_for.
  destruct t; simpl;
    try (match goal with
         | |- context [if ?valid then _ else _] => destruct valid
         end; [|intros Hthrow; discriminate Hthrow];
         match goal with
         | |- context [if constructs ?c then _ else _] => destruct (constructs c)
         end; [|intros Hthrow; discriminate Hthrow]);
    intros [= <- <-]; simpl; by conjs.
Qed.

Lemma createAgent_none (t : AgentType) (f f' : AgentFactory) :
  createAgent t f = (None, f') →
  is_mock t = false
  ∧ valid_for t (pageType (page (context f))) && constructs (class_of t) = false.
Proof.
  unfold Factory.createAgent, construct, createMockAgent, FactoryStatus.valid_for.
  destruct t; simpl;
    try (intros Hmock; discriminate Hmock);
    match goal with
    | |- context [if ?valid then _ else _] => destruct valid
    end;
    try (match goal with
         | |- context [if constructs ?c then _ else _] => destruct (constructs c)
         end);
    try (intros Hthrow; discriminate Hthrow); by intros _.
Qed.

Lemma lookup_ready_Some (key : string) (forceRecreate : bool) (f : AgentFactory)
    (cached : AgentInstance) :
  lookup_ready key forceRecreate f = Some cached →
  forceRecreate = false ∧ (key, cached) ∈ agents f.
Proof.
  unfold lookup_ready. destruct forceRecreate; simpl; [done|].
  destruct (map_has key (agents f)); [|done].
  destruct (map_get key (agents f)) as [c|] eqn:Hget; [|done].
  destruct (ready c); [|done]. intros [= ->]. split; [done|].
  by apply FactoryProps.map_get_elem.
Qed.

(** *** The invariant of the cache *)

Lemma kept_mono (f f' : AgentFactory) (key : string) (a : AgentInstance) :
  next_oid f ≤ next_oid f' → kept f key a → kept f' key a.
Proof.
  intros Hle (Hready & Hkey & Henh & Hclass & Hcons & Hoid & Hcap).
  unfold FactoryStatus.kept. conjs; try done. lia.
Qed.

Lemma getAgent_body_well_kept
    (again : AgentType → AgentFactory → option AgentInstance * AgentFactory)
    (t : AgentType) (forceRecreate : bool) (f : AgentFactory) :
  (∀ t g, well_kept g → well_kept (again t g).2) →
  well_kept f → well_kept (getAgent_body again t forceRecreate f).2.
Proof.
  intros Hagain Hf. unfold Factory.getAgent_body.
  destruct (lookup_ready (cacheKey t (context f)) forceRecreate f) as [cached|]; [done|].
  destruct (createAgent t f) as [[a|] f'] eqn:Hcreate.
  - destruct (FactoryProps.createAgent_creates _ _ t f f' a Hcreate)
      as (Hready & Htype & _ & Hfresh & _ & Hagents & Hctx).
    destruct (createAgent_kept t f f' a Hcreate) as (Hvalid & Henh & Hclass & Hcons & Hcap).
    destruct Hf as (Hkeys & Hoids & Hall). simpl. rewrite Hagents.
    assert (Hold : ∀ key b, (key, b) ∈ agents f → oid (instance b) < next_oid f).
    { intros key b Hb. by destruct (Hall key b Hb) as (_ & _ & _ & _ & _ & ? & _). }
    split; [|split]; simpl.
    + by apply map_set_NoDup.
    + apply (map_set_NoDup_on (λ kv, oid (instance kv.2))); [done | done |].
      simpl. intros Hin. apply list_elem_of_fmap in Hin.
      destruct Hin as ([key b] & Heq & Hb). simpl in Heq.
      specialize (Hold key b Hb). lia.
    + intros key b Hb. apply map_set_elem in Hb. destruct Hb as [[-> ->]|[Hb _]].
      * unfold FactoryStatus.kept. simpl. rewrite Htype.
        conjs; [done | | done | done | done | lia | rewrite Hcap; by destruct t].
        exists (pageType (page (context f))). by split.
      * apply (kept_mono f); [simpl; lia | by apply Hall].
  - destruct (FactoryProps.createAgent_throws _ _ t f f' Hcreate) as [-> _].
    destruct (is_mock t); simpl; [done | by apply Hagain].
Qed.

Lemma getAgent_well_kept (t : AgentType) (forceRecreate : bool) (f : AgentFactory) :
  well_kept f → well_kept (getAgent t forceRecreate f).2.
Proof.
  unfold Factory.getAgent. apply getAgent_body_well_kept.
  intros t' g. unfold Factory.getAgent_fallback. by apply getAgent_body_well_kept.
Qed.

Lemma updateContext_well_kept (newContext : AgentContext) (f : AgentFactory) :
  well_kept f → well_kept (updateContext newContext f).
Proof.
  intros (Hkeys & Hoids & Hall).
  pose proof (FactoryProps.updateContext_agents catalog_has_destroy newContext f) as Hagents.
  destruct (FactoryProps.sweep_keeps catalog_has_destroy
              (page_name (pageType (page newContext))) (agents f)
              {| agents := agents f; context := newContext;
                 next_oid := next_oid f; effects := effects f |}) as (_ & Hnext & _).
  fold (updateContext newContext f) in Hnext. simpl in Hnext.
  unfold FactoryStatus.well_kept. rewrite Hagents. conjs.
  - by apply filter_NoDup_on.
  - by apply filter_NoDup_on.
  - intros key a Hin. apply list_elem_of_In, List.filter_In in Hin.
    destruct Hin as [Hin _]. apply list_elem_of_In in Hin.
    apply (kept_mono f); [lia | by apply Hall].
Qed.

Lemma reachable_well_kept (f : AgentFactory) : reachable f → well_kept f.
Proof.
  induction 1 as [ctx|ctx f _ IH|t forceRecreate f _ IH|newContext f _ IH|f _ IH].
  - split; [constructor|]. split; [constructor|]. intros key a Hin. by inversion Hin.
  - destruct IH as (Hkeys & Hoids & Hall). split; [done|]. split; [done|].
    intros key a Hin. apply (kept_mono f); [done | by apply Hall].
  - by apply getAgent_well_kept.
  - by apply updateContext_well_kept.
  - split; [constructor|]. split; [constructor|]. intros key a Hin. by inversion Hin.
Qed.

(** X12 — In every state the registry can reach: the cache has one entry per
    key and no two entries share an agent object; every entry is ready,
    so [getStatus] reports as many active agents as agents; the entry
    under a key is an instance of the agent type the key names, of the
    class of that type, built when the page type of the key was valid
    for it, and flagged [enhanced] exactly when it is not a mock. *)
Theorem reachable_cache_is_well_kept (f : AgentFactory) :
  reachable f →
  well_kept f
  ∧ activeAgents (getStatus f) = totalAgents (getStatus f).
Proof.
  intros Hf. pose proof (reachable_well_kept f Hf) as Hkept. split; [done|].
  simpl. f_equal. apply filter_everything. intros [key a] Hin.
  destruct Hkept as (_ & _ & Hall). by destruct (Hall key a Hin) as (? & _).
Qed.

(** *** What [getAgent] answers *)

Lemma isAgentAvailable_valid (t : AgentType) (f : AgentFactory) :
  isAgentAvailable t f = valid_for t (pageType (page (context f))).
Proof.
  unfold FactoryStatus.isAgentAvailable, getAvailableAgentTypes, FactoryStatus.valid_for.
  destruct (isValidForSEO (pageType (page (context f))));
    destruct (isValidForNavigation on_square_host (pageType (page (context f))));
    destruct (isValidForCatalog (pageType (page (context f))));
    by destruct t.
Qed.

Lemma cached_type (t : AgentType) (f : AgentFactory) (cached : AgentInstance) :
  well_kept f →
  (cacheKey t (context f), cached) ∈ agents f →
  type cached = t
  ∧ valid_for t (pageType (page (context f))) = true
  ∧ (is_mock t = false → constructs (class_of t) = true).
Proof.
  intros (_ & _ & Hall) Hin.
  destruct (Hall _ _ Hin) as (_ & (p & Hkey & Hvalid) & _ & _ & Hcons & _).
  unfold cacheKey in Hkey. destruct (key_injective _ _ _ _ Hkey) as [Ht Hp].
  rewrite <- Ht in Hvalid, Hcons. rewrite <- Hp in Hvalid. by conjs.
Qed.

Lemma fallback_serves (t : AgentType) (f : AgentFactory) :
  is_mock t = true → well_kept f →
  ∃ inst, (getAgent_fallback t f).1 = Some inst ∧ type inst = t.
Proof.
  intros Hmock Hf. unfold Factory.getAgent_fallback, Factory.getAgent_body.
  destruct (lookup_ready (cacheKey t (context f)) false f) as [cached|] eqn:Hhit.
  - exists cached. split; [done|]. apply lookup_ready_Some in Hhit. destruct Hhit as [_ Hin].
    by destruct (cached_type t f cached Hf Hin) as [? _].
  - destruct (createAgent t f) as [[a|] f'] eqn:Hcreate.
    + exists a. split; [done|].
      by destruct (FactoryProps.createAgent_creates _ _ t f f' a Hcreate) as (_ & ? & _).
    + destruct (createAgent_none t f f' Hcreate) as [Hreal _]. congruence.
Qed.

Lemma getAgent_serves (t : AgentType) (forceRecreate : bool) (f : AgentFactory) :
  well_kept f →
  ∃ inst, (getAgent t forceRecreate f).1 = Some inst ∧ type inst = served t f.
Proof.
  intros Hf. unfold Factory.getAgent, Factory.getAgent_body, FactoryStatus.served.
  destruct (lookup_ready (cacheKey t (context f)) forceRecreate f) as [cached|] eqn:Hhit.
  - exists cached. split; [done|]. apply lookup_ready_Some in Hhit. destruct Hhit as [_ Hin].
    destruct (cached_type t f cached Hf Hin) as (Htype & -> & Hcons).
    destruct (is_mock t); simpl; [done|]. by rewrite Hcons.
  - destruct (createAgent t f) as [[a|] f'] eqn:Hcreate.
    + exists a. split; [done|].
      destruct (FactoryProps.createAgent_creates _ _ t f f' a Hcreate) as (_ & Htype & _).
      destruct (createAgent_kept t f f' a Hcreate) as (-> & _ & _ & Hcons & _).
      destruct (is_mock t); simpl; [done|]. by rewrite Hcons.
    + destruct (createAgent_none t f f' Hcreate) as [Hreal Hno].
      destruct (FactoryProps.createAgent_throws _ _ t f f' Hcreate) as [-> _].
      rewrite Hreal. simpl. rewrite Hno.
      apply fallback_serves; [apply FactoryProps.mock_of_is_mock | done].
Qed.

Lemma getAgent_body_result_cached
    (again : AgentType → AgentFactory → option AgentInstance * AgentFactory)
    (t : AgentType) (forceRecreate : bool) (f : AgentFactory) (inst : AgentInstance) :
  (∀ t g inst, (again t g).1 = Some inst → ∃ key, (key, inst) ∈ agents (again t g).2) →
  (getAgent_body again t forceRecreate f).1 = Some inst →
  ∃ key, (key, inst) ∈ agents (getAgent_body again t forceRecreate f).2.
Proof.
  intros Hagain. unfold Factory.getAgent_body.
  destruct (lookup_ready (cacheKey t (context f)) forceRecreate f) as [cached|] eqn:Hhit.
  - simpl. intros [= ->]. apply lookup_ready_Some in Hhit. destruct Hhit as [_ Hin]. eauto.
  - destruct (createAgent t f) as [[a|] f'] eqn:Hcreate.
    + simpl. intros [= ->]. eexists. apply map_set_elem_new.
    + destruct (negb (is_mock t)); [apply Hagain | done].
Qed.

Lemma getAgent_result_cached (t : AgentType) (forceRecreate : bool) (f : AgentFactory)
    (inst : AgentInstance) :
  (getAgent t forceRecreate f).1 = Some inst →
  ∃ key, (key, inst) ∈ agents (getAgent t forceRecreate f).2.
Proof.
  unfold Factory.getAgent. apply getAgent_body_result_cached.
  intros t' g inst'. unfold Factory.getAgent_fallback.
  apply getAgent_body_result_cached. by intros ? ? ?.
Qed.

(** X13 — [getAgent] never answers [null]: it returns a ready instance, of
    the type asked for when that type is available on the current page
    and its constructor completes, and of the mock of that type
    otherwise; the instance is flagged [enhanced] exactly when it is not
    a mock, and its object is of the class of its type. *)
Theorem getAgent_serves_enhanced_or_mock (t : AgentType) (forceRecreate : bool)
    (f : AgentFactory) :
  reachable f →
  ∃ inst,
    (getAgent t forceRecreate f).1 = Some inst
    ∧ ready inst = true
    ∧ type inst = (if isAgentAvailable t f && (is_mock t || constructs (class_of t))
                   then t else mock_of t)
    ∧ enhanced inst = negb (is_mock (type inst))
    ∧ class (instance inst) = class_of (type inst).
Proof.
  intros Hf. pose proof (reachable_well_kept f Hf) as Hkept.
  destruct (getAgent_serves t forceRecreate f Hkept) as (inst & Hinst & Htype).
  exists inst. split; [done|].
  destruct (getAgent_result_cached t forceRecreate f inst Hinst) as [key Hin].
  destruct (getAgent_well_kept t forceRecreate f Hkept) as (_ & _ & Hall).
  destruct (Hall key inst Hin) as (Hready & _ & Henh & Hclass & _).
  conjs; [done | | done | done].
  rewrite Htype. unfold FactoryStatus.served. by rewrite isAgentAvailable_valid.
Qed.

(** X14 — The capabilities an instance is created with are those
    [getAgentCapabilities] lists for its type, except for the SEO mock:
    [createMockAgent] writes ["Mock seo operations for testing"] where
    the table has ["Mock SEO operations for testing"]. *)
Theorem mock_seo_capabilities_disagree (t : AgentType) (forceRecreate : bool)
    (f : AgentFactory) (inst : AgentInstance) :
  reachable f →
  (getAgent t forceRecreate f).1 = Some inst →
  (type inst ≠ mock_seo → capabilities inst = getAgentCapabilities (type inst))
  ∧ (type inst = mock_seo →
     capabilities inst = ["Mock seo operations for testing"]
     ∧ getAgentCapabilities (type inst) = ["Mock SEO operations for testing"]).
Proof.
  intros Hf Hinst. pose proof (reachable_well_kept f Hf) as Hkept.
  destruct (getAgent_result_cached t forceRecreate f inst Hinst) as [key Hin].
  destruct (getAgent_well_kept t forceRecreate f Hkept) as (_ & _ & Hall).
  destruct (Hall key inst Hin) as (_ & _ & _ & _ & _ & _ & Hcap).
  rewrite Hcap. by destruct (type inst).
Qed.

(** *** Teardown *)

Lemma destroyed_effects (l : list (string * AgentInstance)) :
  flat_map (λ kv, if has_destroy catalog_has_destroy (class (instance kv.2))
                  then [Destroyed (oid (instance kv.2))] else []) l
  = Destroyed <$> ((λ kv, oid (instance kv.2))
                     <$> List.filter
                           (λ kv, has_destroy catalog_has_destroy (class (instance kv.2))) l).
Proof.
  induction l as [|kv l IH]; [done|]. cbn [flat_map List.filter].
  destruct (has_destroy catalog_has_destroy (class (instance kv.2)));
    [rewrite !fmap_cons|]; simpl; by rewrite IH.
Qed.

(** X15 — [destroy()] empties the cache after calling [destroy] on every
    cached instance that has the method, in cache order, once each and
    on nothing else: the calls are those of the cache entries whose
    instance has the method, in the order of the entries, and no two of
    them are on the same object.  An agent resolved afterwards is
    constructed anew. *)
Theorem destroy_releases_every_cached_agent (f : AgentFactory) :
  reachable f →
  let f' := destroy f in
  let released :=
    (λ kv : string * AgentInstance, oid (instance kv.2))
      <$> List.filter (λ kv, has_destroy catalog_has_destroy (class (instance kv.2)))
            (agents f) in
  agents f' = []
  ∧ totalAgents (getStatus f') = 0
  ∧ effects f' = effects f ++ (Destroyed <$> released) ++ (Evicted <$> (agents f).*1)
  ∧ NoDup released
  ∧ (∀ o, o ∈ released
          ↔ ∃ key a, (key, a) ∈ agents f
                     ∧ oid (instance a) = o
                     ∧ has_destroy catalog_has_destroy (class (instance a)) = true)
  ∧ ∀ t, ∃ inst,
      (getAgent t false f').1 = Some inst
      ∧ next_oid f ≤ oid (instance inst)
      ∧ Constructed (oid (instance inst)) ∈ effects (getAgent t false f').2.
Proof.
  intros Hf f' released. destruct (reachable_well_kept f Hf) as (_ & Hoids & _).
  conjs; [done | done | | | |].
  - unfold f', released, FactoryStatus.destroy. simpl. by rewrite destroyed_effects.
  - by apply filter_NoDup_on.
  - intros o. unfold released. rewrite list_elem_of_fmap. split.
    + intros ([key a] & -> & Hin). apply list_elem_of_In, List.filter_In in Hin.
      destruct Hin as [Hin Hhas]. exists key, a. by rewrite <- list_elem_of_In in Hin.
    + intros (key & a & Hin & <- & Hhas). exists (key, a). split; [done|].
      apply list_elem_of_In, List.filter_In. by rewrite <- list_elem_of_In.
  - intros t.
    destruct (FactoryProps.getAgent_cached on_square_host constructs t false f')
      as (inst & _ & Hinst & _).
    exists inst. split; [done|].
    destruct (FactoryProps.getAgent_traceable on_square_host constructs t f' inst Hinst)
      as [[key Hin]|(Hfresh & Hlog & _)]; [by inversion Hin | done].
Qed.

(** *** Context changes *)

Lemma flat_map_nothing {A B : Type} (g : A → list B) (l : list A) :
  (∀ x, x ∈ l → g x = []) → flat_map g l = [].
Proof.
  induction l as [|x l IH]; intros Hnone; simpl; [done|].
  rewrite (Hnone x) by apply list_elem_of_here.
  apply IH. intros y Hy. apply Hnone. by apply list_elem_of_further.
Qed.

(** X16 — A second [updateContext] with the same context does nothing: the
    entries the first one kept all match the page type, so nothing is
    destroyed or evicted again. *)
Theorem updateContext_twice_changes_nothing (newContext : AgentContext)
    (f : AgentFactory) :
  let f1 := updateContext newContext f in
  let f2 := updateContext newContext f1 in
  agents f2 = agents f1
  ∧ effects f2 = effects f1
  ∧ context f2 = context f1
  ∧ next_oid f2 = next_oid f1.
Proof.
  intros f1 f2. set (q := page_name (pageType (page newContext))).
  assert (Hsweep : ∀ g, context (updateContext newContext g) = newContext
                        ∧ next_oid (updateContext newContext g) = next_oid g
                        ∧ effects (updateContext newContext g)
                          = effects g ++ flat_map (FactorySpec.eviction catalog_has_destroy q)
                                           (agents g)).
  { intros g. apply (FactoryProps.sweep_keeps catalog_has_destroy q (agents g)
                       {| agents := agents g; context := newContext;
                          next_oid := next_oid g; effects := effects g |}). }
  assert (Hmatch : ∀ kv, kv ∈ agents f1 → includes q kv.1 = true).
  { intros kv Hkv. unfold f1 in Hkv.
    rewrite FactoryProps.updateContext_agents in Hkv.
    apply list_elem_of_In, List.filter_In in Hkv. apply Hkv. }
  destruct (Hsweep f) as (Hc1 & Hn1 & He1). destruct (Hsweep f1) as (Hc2 & Hn2 & He2).
  fold f1 in Hc1, Hn1, He1. fold f2 in Hc2, Hn2, He2. conjs.
  - unfold f2. rewrite FactoryProps.updateContext_agents.
    apply filter_everything. intros kv Hkv. by apply Hmatch.
  - rewrite He2, flat_map_nothing; [by rewrite app_nil_r|].
    intros kv Hkv. unfold FactorySpec.eviction. by rewrite (Hmatch kv Hkv).
  - by rewrite Hc1, Hc2.
  - done.
Qed.

(** *** What [getAgent] does to the objects *)

Lemma createAgent_effects (t : AgentType) (f : AgentFactory) :
  ∃ built, effects (createAgent t f).2 = effects f ++ (Constructed <$> built).
Proof.
  unfold Factory.createAgent, construct, createMockAgent.
  destruct t; simpl;
    try (match goal with
         | |- context [if ?valid then _ else _] => destruct valid
         end; [|exists []; simpl; by rewrite app_nil_r];
         match goal with
         | |- context [if constructs ?c then _ else _] => destruct (constructs c)
         end; [|exists []; simpl; by rewrite app_nil_r]);
    simpl; first [ by exists [next_oid f]
                 | by exists [next_oid f; next_oid f + 1; next_oid f + 2] ].
Qed.

Lemma getAgent_body_effects
    (again : AgentType → AgentFactory → option AgentInstance * AgentFactory)
    (t : AgentType) (forceRecreate : bool) (f : AgentFactory) :
  (∀ t g, ∃ built, effects (again t g).2 = effects g ++ (Constructed <$> built)) →
  ∃ built, effects (getAgent_body again t forceRecreate f).2
           = effects f ++ (Constructed <$> built).
Proof.
  intros Hagain. unfold Factory.getAgent_body.
  destruct (lookup_ready (cacheKey t (context f)) forceRecreate f) as [cached|].
  { exists []. simpl. by rewrite app_nil_r. }
  pose proof (createAgent_effects t f) as Hcreated.
  destruct (createAgent t f) as [[a|] f'] eqn:Hcreate; [done|].
  destruct (FactoryProps.createAgent_throws _ _ t f f' Hcreate) as [-> _].
  destruct (negb (is_mock t)); [apply Hagain|].
  exists []. simpl. by rewrite app_nil_r.
Qed.

(** X17 — [getAgent] only ever constructs: it never calls [destroy] and never
    evicts.  In particular [forceRecreate], for a type that is served
    as itself, puts a newly constructed instance in the place of the
    cached one, which leaves the cache without its [destroy] having been
    called. *)
Theorem getAgent_never_destroys (t : AgentType) (forceRecreate : bool)
    (f : AgentFactory) :
  reachable f →
  let f' := (getAgent t forceRecreate f).2 in
  (∃ built, effects f' = effects f ++ (Constructed <$> built))
  ∧ (forceRecreate = true →
     isAgentAvailable t f && (is_mock t || constructs (class_of t)) = true →
     ∃ inst,
       (getAgent t forceRecreate f).1 = Some inst
       ∧ next_oid f ≤ oid (instance inst)
       ∧ map_get (cacheKey t (context f)) (agents f') = Some inst
       ∧ ∀ old, map_get (cacheKey t (context f)) (agents f) = Some old →
           ∀ key, (key, old) ∉ agents f').
Proof.
  intros Hf f'. pose proof (reachable_well_kept f Hf) as (Hkeys & Hoids & Hall). split.
  - unfold f', Factory.getAgent. apply getAgent_body_effects.
    intros t' g. unfold Factory.getAgent_fallback. apply getAgent_body_effects.
    intros _ g'. exists []. simpl. by rewrite app_nil_r.
  - intros -> Hserved. rewrite isAgentAvailable_valid in Hserved.
    unfold f', Factory.getAgent, Factory.getAgent_body, lookup_ready. simpl.
    destruct (createAgent t f) as [[a|] f1] eqn:Hcreate.
    + destruct (FactoryProps.createAgent_creates _ _ t f f1 a Hcreate)
        as (_ & _ & _ & Hfresh & _ & Hagents & _).
      exists a. simpl. rewrite Hagents. conjs; [done | lia | |].
      * apply FactoryProps.map_set_get_eq.
      * intros old Hold key Hin. apply FactoryProps.map_get_elem in Hold.
        destruct (Hall _ _ Hold) as (_ & _ & _ & _ & _ & Holdoid & _).
        apply map_set_elem in Hin. destruct Hin as [[_ ->]|[Hin Hne]]; [lia|].
        apply Hne. symmetry.
        by injection (NoDup_on_inj (λ kv, oid (instance kv.2)) (agents f)
                        (cacheKey t (context f), old) (key, old) Hoids Hold Hin eq_refl).
    + destruct (createAgent_none t f f1 Hcreate) as [Hreal Hno].
      rewrite Hreal in Hserved. simpl in Hserved. congruence.
Qed.

End Facts.

(** The factory of [Samples] is one the program can hold. *)
Lemma warmFactory_reachable (catalog_has_destroy : bool) :
  reachable true (λ _, true) catalog_has_destroy Samples.warmFactory.
Proof. unfold Samples.warmFactory. repeat constructor. Qed.

(** On the item-edit page, after the SEO and the catalog agents were
    resolved. *)
Lemma reachable_cache_is_well_kept_witness :
  NoDup (agents Samples.warmFactory).*1
  ∧ activeAgents (getStatus true Samples.warmFactory) = 2.
Proof.
  destruct (reachable_cache_is_well_kept true (λ _, true) true Samples.warmFactory
              (warmFactory_reachable true)) as [(Hkeys & _) Hactive].
  split; [exact Hkeys|]. rewrite Hactive. reflexivity.
Defined.

(** The navigation agent is served as itself on the item-edit page of a
    Square host. *)
Lemma getAgent_serves_enhanced_or_mock_witness :
  ∃ inst,
    (getAgent true (λ _, true) navigation false Samples.warmFactory).1 = Some inst
    ∧ type inst = navigation
    ∧ enhanced inst = true.
Proof.
  destruct (getAgent_serves_enhanced_or_mock true (λ _, true) true navigation false
              Samples.warmFactory (warmFactory_reachable true))
    as (inst & Hinst & _ & Htype & Henh & _).
  exists inst. split; [exact Hinst|].
  assert (Hnav : type inst = navigation) by (rewrite Htype; reflexivity).
  split; [exact Hnav|]. rewrite Henh, Hnav. reflexivity.
Defined.

(** On the dashboard the SEO agent is not valid: its mock is served. *)
Lemma mock_seo_capabilities_disagree_witness :
  ∃ inst,
    (getAgent true (λ _, true) seo false (new_factory Samples.onDashboard)).1 = Some inst
    ∧ type inst = mock_seo
    ∧ capabilities inst = ["Mock seo operations for testing"]
    ∧ capabilities inst ≠ FactoryStatus.getAgentCapabilities (type inst).
Proof.
  destruct (getAgent true (λ _, true) seo false (new_factory Samples.onDashboard)).1
    as [inst|] eqn:Hinst; [|discriminate Hinst].
  assert (Htype : type inst = mock_seo).
  { vm_compute in Hinst. injection Hinst as <-. reflexivity. }
  destruct (mock_seo_capabilities_disagree true (λ _, true) true seo false
              (new_factory Samples.onDashboard) inst
              (reach_new true (λ _, true) true Samples.onDashboard) Hinst)
    as [_ Hmock].
  destruct (Hmock Htype) as [Hcap Htable].
  exists inst. split; [reflexivity|]. split; [exact Htype|]. split; [exact Hcap|].
  rewrite Hcap, Htable. discriminate.
Defined.

(** Both cached agents have [destroy]; each is destroyed once. *)
Lemma destroy_releases_every_cached_agent_witness :
  agents (destroy true Samples.warmFactory) = []
  ∧ effects (destroy true Samples.warmFactory)
    = effects Samples.warmFactory
      ++ [Destroyed 0; Destroyed 1; Evicted "seo-item-edit"; Evicted "catalog-item-edit"].
Proof.
  destruct (destroy_releases_every_cached_agent true (λ _, true) true Samples.warmFactory
              (warmFactory_reachable true)) as (Hempty & _ & Heffects & _).
  split; [exact Hempty | rewrite Heffects; reflexivity].
Defined.

(** The cached SEO agent is replaced, not destroyed. *)
Lemma getAgent_never_destroys_witness :
  let f' := (getAgent true (λ _, true) seo true Samples.warmFactory).2 in
  drop (length (effects Samples.warmFactory)) (effects f') = [Constructed 2]
  ∧ ∃ built, effects f' = effects Samples.warmFactory ++ (Constructed <$> built).
Proof.
  intros f'.
  destruct (getAgent_never_destroys true (λ _, true) true seo true Samples.warmFactory
              (warmFactory_reachable true)) as [Hbuilt _].
  split; [reflexivity | exact Hbuilt].
Defined.

End FactoryStatusProps.

(** * Properties of the SEO content generator *)

Module SeoContentProps.

Import Stdlib.Strings.Ascii.
Import SeoContent.

Local Open Scope list_scope.
Local Open Scope nat_scope.

(** *** Texts *)

Lemma length_append (a b : string) :
  String.length (a +:+ b) = String.length a + String.length b.
Proof. induction a as [|c a IH]; simpl; [done | by rewrite IH]. Qed.

Lemma slice0_length (n : nat) (s : string) : String.length (slice0 n s) ≤ n.
Proof.
  revert s. induction n as [|n IH]; intros [|c s]; simpl; try lia.
  specialize (IH s). lia.
Qed.

Lemma slice0_short (n : nat) (s : string) :
  String.length s ≤ n → slice0 n s = s.
Proof.
  revert s. induction n as [|n IH]; intros [|c s]; simpl; try done; [lia|].
  intros Hlen. f_equal. apply IH. lia.
Qed.

Lemma slice0_long (n : nat) (s : string) :
  n ≤ String.length s → String.length (slice0 n s) = n.
Proof.
  revert s. induction n as [|n IH]; intros [|c s]; simpl; try done; [lia|].
  intros Hlen. f_equal. apply IH. lia.
Qed.

Lemma all_chars_append (p : ascii → bool) (a b : string) :
  all_chars p (a +:+ b) = all_chars p a && all_chars p b.
Proof. induction a as [|c a IH]; simpl; [done|]. by rewrite IH, andb_assoc. Qed.

Lemma all_chars_weaken (p q : ascii → bool) (s : string) :
  (∀ c, p c = true → q c = true) → all_chars p s = true → all_chars q s = true.
Proof.
  intros Hpq. induction s as [|c s IH]; simpl; [done|].
  rewrite !andb_true_iff. intros [Hc Hs]. split; [by apply Hpq | by apply IH].
Qed.

Lemma all_chars_slice0 (p : ascii → bool) (n : nat) (s : string) :
  all_chars p s = true → all_chars p (slice0 n s) = true.
Proof.
  revert s. induction n as [|n IH]; intros [|c s]; simpl; try done.
  rewrite !andb_true_iff. intros [Hc Hs]. split; [done | by apply IH].
Qed.

Lemma no_run_tail (class : ascii → bool) (c : ascii) (s : string) :
  no_run class (String c s) = true → no_run class s = true.
Proof. destruct s as [|d s]; [done|]. simpl. rewrite andb_true_iff. by intros [_ ?]. Qed.

Lemma no_run_cons (class : ascii → bool) (c : ascii) (s : string) :
  no_run class s = true →
  (class c = true → ∀ d, first_char s = Some d → class d = false) →
  no_run class (String c s) = true.
Proof.
  intros Hs Hc. destruct s as [|d s]; [done|].
  change (negb (class c && class d) && no_run class (String d s) = true).
  rewrite Hs, andb_true_r. destruct (class c) eqn:Hcc; [|done].
  by rewrite (Hc eq_refl d eq_refl).
Qed.

Lemma no_run_head (class : ascii → bool) (c d : ascii) (s : string) :
  no_run class (String c (String d s)) = true → class c = true → class d = false.
Proof.
  simpl. rewrite andb_true_iff. intros [Hcd _] Hc. rewrite Hc in Hcd.
  by destruct (class d).
Qed.

Lemma no_run_slice0 (class : ascii → bool) (n : nat) (s : string) :
  no_run class s = true → no_run class (slice0 n s) = true.
Proof.
  revert s. induction n as [|n IH]; intros [|c s] Hs; try done.
  cbn [slice0]. apply no_run_cons.
  - apply IH. by apply (no_run_tail class c).
  - intros Hc d Hd. destruct s as [|e s]; [by destruct n|].
    destruct n as [|n]; [done|]. simpl in Hd. injection Hd as <-.
    by apply (no_run_head class c e s).
Qed.

Lemma first_char_slice0 (n : nat) (s : string) (c : ascii) :
  first_char (slice0 n s) = Some c → first_char s = Some c.
Proof. destruct n, s; simpl; done. Qed.

Lemma last_char_some (c : ascii) (s : string) : is_Some (last_char (String c s)).
Proof.
  revert c. induction s as [|d s IH]; intros c; [by eexists|]. apply (IH d).
Qed.

Lemma last_char_cons (c : ascii) (s : string) :
  last_char (String c s) = match last_char s with Some d => Some d | None => Some c end.
Proof.
  destruct s as [|d s]; [done|].
  destruct (last_char_some d s) as [e He]. rewrite He. exact He.
Qed.

(** *** The replacements *)

Lemma keep_chars_all (keep : ascii → bool) (s : string) :
  all_chars keep (keep_chars keep s) = true.
Proof.
  induction s as [|c s IH]; simpl; [done|].
  destruct (keep c) eqn:Hc; simpl; [by rewrite Hc | done].
Qed.

Lemma squeeze_all (class p q : ascii → bool) (by_ : string) (inside : bool) (s : string) :
  all_chars q by_ = true →
  (∀ c, p c = true → class c = false → q c = true) →
  all_chars p s = true →
  all_chars q (squeeze_from class by_ inside s) = true.
Proof.
  intros Hby Hpq. revert inside. induction s as [|c s IH]; intros inside; simpl; [done|].
  rewrite andb_true_iff. intros [Hc Hs]. destruct (class c) eqn:Hclass.
  - destruct inside; [by apply IH|].
    rewrite all_chars_append, Hby. by apply IH.
  - simpl. rewrite (Hpq c Hc Hclass). by apply IH.
Qed.

(** Replacing the runs of a class by one code unit of the class leaves
    no run. *)
Lemma squeeze_no_run (class : ascii → bool) (d : ascii) (inside : bool) (s : string) :
  class d = true →
  no_run class (squeeze_from class (String d EmptyString) inside s) = true
  ∧ (inside = true →
     ∀ e, first_char (squeeze_from class (String d EmptyString) inside s) = Some e →
          class e = false).
Proof.
  intros Hd. revert inside. induction s as [|c s IH]; intros inside; [done|].
  cbn [squeeze_from]. destruct (class c) eqn:Hc.
  - destruct inside; [apply (IH true)|].
    change (String d EmptyString +:+ ?x) with (String d x).
    split; [|done]. apply no_run_cons; [apply (IH true)|].
    intros _ e He. by apply (IH true).
  - split.
    + apply no_run_cons; [apply (IH false) | intros Hcc; congruence].
    + intros _ e [= <-]. done.
Qed.

Lemma drop_last_dash_all (p : ascii → bool) (s : string) :
  all_chars p s = true → all_chars p (drop_last_dash s) = true.
Proof.
  induction s as [|c s IH]; [done|]. destruct s as [|d s].
  - simpl. by destruct (is_dash c).
  - change (all_chars p (String c (String d s)) = true →
            all_chars p (String c (drop_last_dash (String d s))) = true).
    cbn [all_chars] in *. rewrite !andb_true_iff. intros [Hc Hs]. split; [done|].
    apply IH. by apply andb_true_iff.
Qed.

Lemma drop_last_dash_first (s : string) (c : ascii) :
  first_char (drop_last_dash s) = Some c → first_char s = Some c.
Proof.
  destruct s as [|d s]; [done|]. destruct s as [|e s]; [|done].
  simpl. by destruct (is_dash d).
Qed.

Lemma drop_last_dash_no_run (s : string) :
  no_run is_dash s = true → no_run is_dash (drop_last_dash s) = true.
Proof.
  induction s as [|c s IH]; [done|]. destruct s as [|d s].
  - simpl. by destruct (is_dash c).
  - intros Hs.
    change (no_run is_dash (String c (drop_last_dash (String d s))) = true).
    apply no_run_cons.
    + apply IH. by apply (no_run_tail is_dash c).
    + intros Hc e He. apply drop_last_dash_first in He. injection He as <-.
      by apply (no_run_head is_dash c d s).
Qed.

Lemma drop_last_dash_empty (s : string) :
  drop_last_dash s = EmptyString →
  s = EmptyString ∨ ∃ c, s = String c EmptyString ∧ is_dash c = true.
Proof.
  destruct s as [|c s]; [by left|]. destruct s as [|d s]; [|done].
  simpl. destruct (is_dash c) eqn:Hc; [|done]. right. by exists c.
Qed.

Lemma drop_last_dash_last (s : string) (c : ascii) :
  no_run is_dash s = true →
  last_char (drop_last_dash s) = Some c → is_dash c = false.
Proof.
  revert c. induction s as [|a s IH]; intros c; [done|]. destruct s as [|d s].
  - simpl. destruct (is_dash a) eqn:Ha; [done|]. by intros _ [= <-].
  - intros Hs.
    change (last_char (String a (drop_last_dash (String d s))) = Some c →
            is_dash c = false).
    rewrite last_char_cons.
    destruct (last_char (drop_last_dash (String d s))) as [e|] eqn:Hlast.
    + intros [= <-]. apply IH; [by apply (no_run_tail is_dash a) | done].
    + intros Heq. injection Heq as Heq. subst c.
      destruct (drop_last_dash (String d s)) as [|x y] eqn:Hdrop.
      * apply drop_last_dash_empty in Hdrop.
        destruct Hdrop as [Hnil|(e & [= -> ->] & He)]; [done|].
        destruct (is_dash a) eqn:Hc; [|done].
        by rewrite (no_run_head is_dash a e EmptyString Hs Hc) in He.
      * by destruct (last_char_some x y) as [? Hsome]; rewrite Hsome in Hlast.
Qed.

Lemma strip_dashes_spec (s : string) :
  no_run is_dash s = true →
  no_run is_dash (strip_dashes s) = true
  ∧ (∀ p, all_chars p s = true → all_chars p (strip_dashes s) = true)
  ∧ (∀ c, first_char (strip_dashes s) = Some c → is_dash c = false)
  ∧ (∀ c, last_char (strip_dashes s) = Some c → is_dash c = false).
Proof.
  intros Hs. destruct s as [|c s]; [done|]. unfold strip_dashes.
  destruct (is_dash c) eqn:Hc.
  - pose proof (no_run_tail is_dash c s Hs) as Htail. conjs.
    + by apply drop_last_dash_no_run.
    + intros p. simpl. rewrite andb_true_iff. intros [_ Hall].
      by apply drop_last_dash_all.
    + intros e He. apply drop_last_dash_first in He.
      destruct s as [|d s]; [done|]. injection He as <-.
      by apply (no_run_head is_dash c d s).
    + intros e. by apply drop_last_dash_last.
  - conjs.
    + by apply drop_last_dash_no_run.
    + intros p. apply drop_last_dash_all.
    + intros e He. apply drop_last_dash_first in He. by injection He as <-.
    + intros e. by apply drop_last_dash_last.
Qed.

(** *** Trimming *)

Lemma trim_start_all (p : ascii → bool) (s : string) :
  all_chars p s = true → all_chars p (trim_start s) = true.
Proof.
  induction s as [|c s IH]; [done|]. simpl. destruct (is_space c); [|done].
  rewrite andb_true_iff. intros [_ Hs]. by apply IH.
Qed.

Lemma trim_start_no_run (class : ascii → bool) (s : string) :
  no_run class s = true → no_run class (trim_start s) = true.
Proof.
  induction s as [|c s IH]; [done|]. intros Hs. simpl.
  destruct (is_space c); [|done]. apply IH. by apply (no_run_tail class c).
Qed.

Lemma trim_start_first (s : string) (c : ascii) :
  first_char (trim_start s) = Some c → is_space c = false.
Proof.
  induction s as [|d s IH]; [done|]. simpl. destruct (is_space d) eqn:Hd; [done|].
  by intros [= <-].
Qed.

Lemma trim_end_length (s : string) : String.length (trim_end s) ≤ String.length s.
Proof.
  induction s as [|c s IH]; [done|]. simpl.
  destruct (trim_end s) as [|d kept]; [destruct (is_space c)|]; simpl in *; lia.
Qed.

Lemma trim_end_all (p : ascii → bool) (s : string) :
  all_chars p s = true → all_chars p (trim_end s) = true.
Proof.
  induction s as [|c s IH]; [done|]. simpl. rewrite andb_true_iff. intros [Hc Hs].
  specialize (IH Hs). destruct (trim_end s) as [|d kept].
  - destruct (is_space c); [done|]. simpl. by rewrite Hc.
  - cbn [all_chars] in *. by rewrite Hc.
Qed.

Lemma trim_end_first (s : string) (c : ascii) :
  first_char (trim_end s) = Some c → first_char s = Some c.
Proof.
  destruct s as [|d s]; [done|]. simpl.
  destruct (trim_end s) as [|e kept]; [destruct (is_space d)|]; done.
Qed.

Lemma trim_end_no_run (class : ascii → bool) (s : string) :
  no_run class s = true → no_run class (trim_end s) = true.
Proof.
  induction s as [|c s IH]; [done|]. intros Hs.
  pose proof (no_run_tail class c s Hs) as Htail. specialize (IH Htail).
  pose proof (trim_end_first s) as Hfirst. simpl.
  destruct (trim_end s) as [|d kept] eqn:Hkept; [by destruct (is_space c)|].
  apply no_run_cons; [done|]. intros Hc e Heq. injection Heq as Heq. subst e.
  destruct s as [|d' s]; [done|]. specialize (Hfirst d eq_refl).
  injection Hfirst as Hfirst. subst d'.
  by apply (no_run_head class c d s).
Qed.

Lemma trim_end_last (s : string) (c : ascii) :
  last_char (trim_end s) = Some c → is_space c = false.
Proof.
  revert c. induction s as [|d s IH]; intros c; [done|]. simpl.
  destruct (trim_end s) as [|e kept].
  - destruct (is_space d) eqn:Hd; [done|]. by intros [= <-].
  - rewrite last_char_cons. destruct (last_char_some e kept) as [x Hx].
    rewrite Hx in IH |- *. intros [= <-]. by apply IH.
Qed.

Lemma trim_length (s : string) : String.length (trim s) ≤ String.length s.
Proof.
  unfold trim. etrans; [apply trim_end_length|].
  induction s as [|c s IH]; [done|]. simpl. destruct (is_space c); simpl; lia.
Qed.

Lemma no_run_append (class : ascii → bool) (s t : string) :
  no_run class s = true → all_chars (λ c, negb (class c)) t = true →
  no_run class (s +:+ t) = true.
Proof.
  intros Hs Ht. induction s as [|c s IH].
  - simpl. clear Hs. induction t as [|d t IH]; [done|].
    simpl in Ht. apply andb_true_iff in Ht as [Hd Ht].
    apply no_run_cons; [by apply IH|]. intros Hclass. by rewrite Hclass in Hd.
  - change (no_run class (String c (s +:+ t)) = true).
    pose proof (no_run_tail class c s Hs) as Htail. apply no_run_cons; [by apply IH|].
    intros Hc e He. destruct s as [|d s].
    + destruct t as [|d t]; [done|]. injection He as <-.
      simpl in Ht. apply andb_true_iff in Ht as [Hd _]. by apply negb_true_iff.
    + injection He as <-. by apply (no_run_head class c d s).
Qed.

Lemma first_char_append (s t : string) (c : ascii) :
  first_char (s +:+ t) = Some c → s ≠ EmptyString → first_char s = Some c.
Proof. by destruct s. Qed.

Lemma last_char_append (s : string) (d : ascii) (t : string) :
  last_char (s +:+ String d t) = last_char (String d t).
Proof.
  induction s as [|c s IH]; [done|].
  change (last_char (String c (s +:+ String d t)) = last_char (String d t)).
  rewrite last_char_cons, IH. by destruct (last_char_some d t) as [x ->].
Qed.

(** *** Sets of tags *)

Lemma existsb_eqb (tag : string) (tags : list string) :
  existsb (String.eqb tag) tags = true ↔ tag ∈ tags.
Proof.
  rewrite existsb_exists. split.
  - intros (x & Hx & Heq). apply String.eqb_eq in Heq as ->. by apply list_elem_of_In.
  - intros Hin. exists tag. split; [by apply list_elem_of_In | apply String.eqb_refl].
Qed.

Lemma set_add_NoDup (tag : string) (tags : list string) :
  NoDup tags → NoDup (set_add tag tags).
Proof.
  intros Htags. unfold set_add. destruct (existsb (String.eqb tag) tags) eqn:Hin; [done|].
  apply NoDup_app. split_and!; [done | | apply NoDup_singleton].
  intros x Hx ->%list_elem_of_singleton. apply existsb_eqb in Hx. congruence.
Qed.

Lemma set_add_elem (tag : string) (tags : list string) (x : string) :
  x ∈ set_add tag tags → x = tag ∨ x ∈ tags.
Proof.
  unfold set_add. destruct (existsb (String.eqb tag) tags); [by right|].
  rewrite elem_of_app, list_elem_of_singleton. tauto.
Qed.

Lemma set_add_head (tag : string) (tags : list string) (x : string) :
  head tags = Some x → head (set_add tag tags) = Some x.
Proof. unfold set_add. destruct (existsb (String.eqb tag) tags), tags; done. Qed.

Lemma foldl_invariant {A B : Type} (P : A → Prop) (f : A → B → A) (l : list B) (a : A) :
  P a → (∀ a b, b ∈ l → P a → P (f a b)) → P (foldl f a l).
Proof.
  revert a. induction l as [|b l IH]; intros a Ha Hstep; [done|]. simpl.
  apply IH; [apply Hstep; [left | done]|]. intros a' b' Hb'. apply Hstep. by right.
Qed.

Lemma foldl_pointwise {A B : Type} (f g : A → B → A) (l : list B) (a : A) :
  (∀ a b, f a b = g a b) → foldl f a l = foldl g a l.
Proof.
  intros Hfg. revert a. induction l as [|b l IH]; intros a; [done|]. simpl.
  by rewrite Hfg, IH.
Qed.

Lemma eqb_other_length (s t : string) :
  String.length s ≠ String.length t → String.eqb s t = false.
Proof. intros Hlen. apply String.eqb_neq. by intros ->. Qed.

(** A word of more than three code units is none of the stop words of
    three letters. *)
Lemma meaningful_stop_words (word : string) :
  meaningful ["the"; "and"; "with"; "for"] word = meaningful ["with"] word.
Proof.
  unfold meaningful. destruct (3 <? String.length word) eqn:Hlen; [|done].
  apply Nat.ltb_lt in Hlen. cbn [andb existsb].
  rewrite (eqb_other_length word "the"), (eqb_other_length word "and"),
    (eqb_other_length word "for") by (simpl; lia).
  by destruct (String.eqb word "with").
Qed.

(** *** The slug *)

Section Generator.

Variable toLowerCase : string → string.
Variable toUpperCase : string → string.

Local Abbreviation generateUrlSlug := (generateUrlSlug toLowerCase).

(** X18 — The URL slug is at most 50 code units of [[a-z0-9-]], without two
    dashes in a row and without a dash in front; it ends with a dash
    only when it was cut at 50 code units. *)
Theorem slug_is_url_safe (productName : string) :
  let slug := generateUrlSlug productName in
  String.length slug ≤ 50
  ∧ all_chars is_slug_char slug = true
  ∧ no_run is_dash slug = true
  ∧ (∀ c, first_char slug = Some c → is_dash c = false)
  ∧ (∀ c, last_char slug = Some c → is_dash c = true → String.length slug = 50).
Proof.
  intros slug. unfold slug, SeoContent.generateUrlSlug.
  set (kept := keep_chars (λ c, is_lower_alnum c || is_space c || is_dash c)
                 (toLowerCase productName)).
  set (dashed := squeeze is_space "-" kept).
  set (single := squeeze is_dash "-" dashed).
  assert (Hdashed : all_chars is_slug_char dashed = true).
  { apply (squeeze_all is_space (λ c, is_lower_alnum c || is_space c || is_dash c));
      [done | | apply keep_chars_all].
    intros c Hc Hspace. unfold is_slug_char. rewrite Hspace, orb_false_r in Hc. done. }
  assert (Hsingle : all_chars is_slug_char single = true).
  { apply (squeeze_all is_dash is_slug_char); [done | done | done]. }
  assert (Hrun : no_run is_dash single = true)
    by (by apply (squeeze_no_run is_dash "-" false dashed)).
  destruct (strip_dashes_spec single Hrun) as (Hrun' & Hall' & Hfirst & Hlast).
  conjs.
  - apply slice0_length.
  - apply all_chars_slice0. by apply Hall'.
  - by apply no_run_slice0.
  - intros c Hc. apply Hfirst. by apply (first_char_slice0 50).
  - intros c Hc Hdash.
    destruct (Nat.le_gt_cases 50 (String.length (strip_dashes single))) as [Hlong|Hshort].
    + by apply slice0_long.
    + rewrite slice0_short in Hc by lia. by rewrite (Hlast c Hc) in Hdash.
Qed.


(** *** The texts *)

Lemma optimizeDescription_length (description : string) :
  50 ≤ String.length (optimizeDescription description) ≤ 500.
Proof.
  unfold optimizeDescription. split; [|apply slice0_length].
  destruct (String.length description <? 50) eqn:Hlen.
  - apply Nat.ltb_lt in Hlen. rewrite slice0_short; rewrite length_append; simpl; lia.
  - apply Nat.ltb_ge in Hlen.
    destruct (Nat.le_gt_cases 500 (String.length description)) as [Hlong|Hshort].
    + rewrite slice0_long; lia.
    + rewrite slice0_short; lia.
Qed.

Lemma generateMetaDescription_length (description : string) :
  String.length (generateMetaDescription description) ≤ 155.
Proof.
  unfold generateMetaDescription.
  destruct (155 <? _) eqn:Hlen.
  - rewrite length_append. pose proof (slice0_length 152 (trim (squeeze is_space " " description))).
    change (String.length "...") with 3. lia.
  - by apply Nat.ltb_ge in Hlen.
Qed.

Lemma generateTags_with_length (stop : list string) (productName : string)
    (category : option string) (keywords : list string) :
  length (generateTags_with toLowerCase stop productName category keywords) ≤ 10.
Proof. unfold generateTags_with. rewrite length_take. lia. Qed.

(** X19 — Whatever the product data, each generated field keeps its limit:
    title 70, description 500, ten tags, meta title 60, meta
    description 155 and slug 50 code units; and the description has at
    least 50 code units, the stock sentence being appended to a shorter
    one (also to an empty one). *)
Theorem generated_seo_respects_field_limits (data : ProductData) :
  let seo := generateOptimizedSEO toLowerCase toUpperCase data in
  String.length (title seo) ≤ 70
  ∧ 50 ≤ String.length (description seo) ≤ 500
  ∧ length (tags seo) ≤ 10
  ∧ String.length (metaTitle seo) ≤ 60
  ∧ String.length (metaDescription seo) ≤ 155
  ∧ String.length (urlSlug seo) ≤ 50.
Proof.
  intros seo. unfold seo, generateOptimizedSEO. cbn [title description tags metaTitle
    metaDescription urlSlug].
  split; [apply slice0_length|]. split; [apply optimizeDescription_length|].
  split; [apply generateTags_with_length|]. split; [apply slice0_length|].
  split; [apply generateMetaDescription_length | apply slice0_length].
Qed.

(** X20 — The meta description has at most 155 code units; its white space
    is single spaces only, and it neither starts nor ends with one.  It
    is the cleaned text (white space squeezed and trimmed) when that
    has at most 155 code units; a longer text is cut: the result is
    then the first 152 code units of the cleaned text followed by the
    three dots, 155 code units in all. *)
Theorem meta_description_is_tidy (description : string) :
  let meta := generateMetaDescription description in
  let cleaned := trim (squeeze is_space " " description) in
  String.length meta ≤ 155
  ∧ all_chars (λ c, negb (is_space c) || Ascii.eqb c " ") meta = true
  ∧ no_run is_space meta = true
  ∧ (∀ c, first_char meta = Some c → is_space c = false)
  ∧ (∀ c, last_char meta = Some c → is_space c = false)
  ∧ (String.length cleaned ≤ 155 → meta = cleaned)
  ∧ (155 < String.length cleaned →
     meta = slice0 152 cleaned +:+ "..."
     ∧ String.length (slice0 152 cleaned) = 152
     ∧ String.length meta = 155)
  ∧ (meta ≠ cleaned → ∃ kept, meta = kept +:+ "...").
Proof.
  intros meta cleaned. split; [apply generateMetaDescription_length|].
  assert (Hcut : (String.length cleaned ≤ 155 → meta = cleaned)
                 ∧ (155 < String.length cleaned →
                    meta = slice0 152 cleaned +:+ "..."
                    ∧ String.length (slice0 152 cleaned) = 152
                    ∧ String.length meta = 155)
                 ∧ (meta ≠ cleaned → ∃ kept, meta = kept +:+ "...")).
  { unfold meta, generateMetaDescription. fold cleaned.
    destruct (155 <? String.length cleaned) eqn:Hlen.
    - apply Nat.ltb_lt in Hlen. conjs; [lia | | by eexists].
      intros _. rewrite length_append, slice0_long by lia. by conjs.
    - apply Nat.ltb_ge in Hlen. conjs; [done | lia | done]. }
  cut (all_chars (λ c, negb (is_space c) || Ascii.eqb c " ") meta = true
       ∧ no_run is_space meta = true
       ∧ (∀ c, first_char meta = Some c → is_space c = false)
       ∧ (∀ c, last_char meta = Some c → is_space c = false)).
  { intros (? & ? & ? & ?). destruct Hcut as (? & ? & ?). by conjs. }
  clear Hcut. unfold meta, generateMetaDescription. clear meta cleaned.
  set (spaced := squeeze is_space " " description).
  assert (Hall : all_chars (λ c, negb (is_space c) || Ascii.eqb c " ") (trim spaced) = true).
  { apply trim_end_all, trim_start_all.
    apply (squeeze_all is_space (λ _, true)); [done | |].
    - intros c _ ->. done.
    - clear. induction description as [|c s IH]; done. }
  assert (Hrun : no_run is_space (trim spaced) = true).
  { apply trim_end_no_run, trim_start_no_run.
    by apply (squeeze_no_run is_space " " false description). }
  assert (Hfirst : ∀ c, first_char (trim spaced) = Some c → is_space c = false).
  { intros c Hc. apply trim_end_first in Hc. by apply trim_start_first in Hc. }
  assert (Hlast : ∀ c, last_char (trim spaced) = Some c → is_space c = false).
  { intros c. apply trim_end_last. }
  destruct (155 <? String.length (trim spaced)) eqn:Hlen; [|done].
  apply Nat.ltb_lt in Hlen. conjs.
  - rewrite all_chars_append. by rewrite all_chars_slice0.
  - apply no_run_append; [by apply no_run_slice0 | done].
  - intros c Hc. apply Hfirst. apply first_char_append in Hc.
    + by apply (first_char_slice0 152).
    + intros Hnil. pose proof (slice0_long 152 (trim spaced)) as Hlong.
      rewrite Hnil in Hlong. simpl in Hlong. lia.
  - intros c. rewrite last_char_append. by intros [= <-].
Qed.

(** X21 — The tags are at most ten and pairwise different; each one is the
    category or a keyword in lower case, or a word of the lower-cased
    product name longer than three code units and other than [with];
    a category that is given is the first tag; and of the four stop
    words only [with] has an effect. *)
Theorem tags_are_distinct_and_bounded (productName : string) (category : option string)
    (keywords : list string) :
  let tags := generateTags toLowerCase productName category keywords in
  length tags ≤ 10
  ∧ NoDup tags
  ∧ (∀ tag, tag ∈ tags →
       (∃ c, category = Some c ∧ c ≠ "" ∧ tag = toLowerCase c)
       ∨ (∃ keyword, keyword ∈ keywords ∧ tag = toLowerCase keyword)
       ∨ (tag ∈ split_spaces (toLowerCase productName)
          ∧ 3 < String.length tag ∧ tag ≠ "with"))
  ∧ (∀ c, category = Some c → c ≠ "" → head tags = Some (toLowerCase c))
  ∧ tags = generateTags_with toLowerCase ["with"] productName category keywords.
Proof.
  intros tags. split; [apply generateTags_with_length|]. unfold tags, generateTags.
  conjs.
  - unfold generateTags_with. eapply sublist_NoDup; [|apply sublist_take].
    apply (foldl_invariant (λ tags, NoDup tags)).
    + apply (foldl_invariant (λ tags, NoDup tags)).
      * destruct category as [c|]; [|apply NoDup_nil_2].
        destruct (String.eqb c ""); [apply NoDup_nil_2 | apply NoDup_singleton].
      * intros a b _. apply set_add_NoDup.
    + intros a b _ Ha. destruct (meaningful _ b); [by apply set_add_NoDup | done].
  - unfold generateTags_with. intros tag Htag.
    apply elem_of_take in Htag as (i & Htag%list_elem_of_lookup_2 & _).
    revert tag Htag.
    apply (foldl_invariant (λ tags, ∀ tag, tag ∈ tags → _)).
    + apply (foldl_invariant (λ tags, ∀ tag, tag ∈ tags → _)).
      * intros tag. destruct category as [c|]; [|by intros ?%elem_of_nil].
        destruct (String.eqb c "") eqn:Hc; [by intros ?%elem_of_nil|].
        intros ->%list_elem_of_singleton. left. exists c.
        apply String.eqb_neq in Hc. done.
      * intros a keyword Hkeyword Ha tag [->|Htag]%set_add_elem; [|by apply Ha].
        right. left. by exists keyword.
    + intros a word Hword Ha tag. destruct (meaningful _ word) eqn:Hmeaning; [|by apply Ha].
      intros [->|Htag]%set_add_elem; [|by apply Ha].
      right. right. unfold meaningful in Hmeaning.
      apply andb_true_iff in Hmeaning as [Hlen Hstop]. apply Nat.ltb_lt in Hlen.
      split_and!; [done | done |]. intros ->. done.
  - intros c -> Hc. unfold generateTags_with. apply String.eqb_neq in Hc. rewrite Hc.
    assert (Hhead : ∀ l : list string, head l = Some (toLowerCase c) →
                    head (take 10 l) = Some (toLowerCase c)) by (by intros [|x l]).
    apply Hhead. apply (foldl_invariant (λ tags, head tags = Some (toLowerCase c))).
    + by apply (foldl_invariant (λ tags, head tags = Some (toLowerCase c)));
        [|intros a b _; apply set_add_head].
    + intros a b _ Ha. destruct (meaningful _ b); [by apply set_add_head | done].
  - unfold generateTags_with. f_equal. apply foldl_pointwise.
    intros a word. by rewrite meaningful_stop_words.
Qed.

End Generator.

End SeoContentProps.

(** * Properties of the environment and of the page detection *)

Module PageDetectionProps.

Import Stdlib.Strings.Ascii.
Import Environment PageDetection.

Local Open Scope list_scope.
Local Open Scope nat_scope.

(** *** Host names *)

(** X22 — The environment is safe for testing exactly when it is not
    production, that is when the host name does not contain
    [squareup.com]; on production every operation is to be confirmed,
    elsewhere deletions and bulk operations only. *)
Theorem only_production_confirms_writes (hostname : string) :
  let config := detectEnvironment hostname in
  isProduction config = Factory.includes "squareup.com" hostname
  ∧ isSafeForTesting config = negb (isProduction config)
  ∧ shouldConfirmOperation config op_write = isProduction config
  ∧ shouldConfirmOperation config op_delete = true
  ∧ shouldConfirmOperation config op_bulk = true.
Proof.
  intros config. unfold config, detectEnvironment.
  destruct (Factory.includes "squareup.com" hostname);
    [|destruct (Factory.includes "squareupsandbox.com" hostname)]; done.
Qed.

(** *** Addresses of items *)

Lemma includes_append (needle before after : string) :
  Factory.includes needle after = true →
  Factory.includes needle (before +:+ after) = true.
Proof.
  intros Hafter. induction before as [|c before IH]; [done|].
  change (Factory.includes needle (String c (before +:+ after)) = true).
  cbn [Factory.includes]. rewrite IH. apply orb_true_r.
Qed.

Lemma take_while_item (item rest : string) :
  Factory.includes "/" item = false →
  take_while not_slash (item +:+ String "/" rest) = item.
Proof.
  induction item as [|c item IH]; [done|].
  change ((String c item) +:+ ?t) with (String c (item +:+ t)).
  intros Hitem. cbn [Factory.includes String.prefix] in Hitem.
  apply orb_false_iff in Hitem as [Hc Hrest].
  cbn [take_while]. rewrite (IH Hrest). unfold not_slash.
  destruct (Ascii.eqb_spec c "/") as [->|_]; [|done].
  by destruct item.
Qed.

Lemma match_items_skip (c : ascii) (s : string) :
  items_here (String c s) = None → match_items (String c s) = match_items s.
Proof. intros Hhere. cbn [match_items]. by rewrite Hhere. Qed.

Lemma match_items_at (item : string) :
  Factory.includes "/" item = false →
  match_items ("/items/" +:+ item +:+ "/edit")
  = if String.eqb item "" then None else Some item.
Proof.
  intros Hitem. destruct item as [|c item]; [reflexivity|].
  change (String.eqb (String c item) "") with false. cbv iota.
  change ("/items/" +:+ String c item +:+ "/edit") with
    (String "/" (String "i" (String "t" (String "e" (String "m" (String "s"
       (String "/" (String c item +:+ "/edit")))))))).
  cbn [match_items]. unfold items_here.
  lazymatch goal with
  | |- context [String.prefix ?needle ?hay] =>
      replace (String.prefix needle hay) with true by reflexivity
  end.
  cbv iota. cbn [skip].
  by rewrite (take_while_item (String c item) "edit" Hitem).
Qed.

(** An identifier made of letters, digits, [-] and [_] has no slash. *)
Lemma plain_no_slash (item : string) :
  SeoContent.all_chars is_plain item = true → Factory.includes "/" item = false.
Proof.
  induction item as [|c item IH]; [done|].
  cbn [SeoContent.all_chars]. intros Hplain. apply andb_true_iff in Hplain as [Hc Hrest].
  cbn [Factory.includes String.prefix]. rewrite (IH Hrest), orb_false_r.
  destruct (Ascii.eqb_spec c "/") as [->|Hne]; [discriminate Hc|].
  destruct c as [[] [] [] [] [] [] [] []]; try reflexivity; by destruct Hne.
Qed.

(** X23 — The address that [getItemUrl] builds for an item is recognised as
    the edit page of that item: the context built there carries the
    item again, when its identifier is made of letters, digits, [-]
    and [_] (the address is then read back as it was written, and its
    path is [/dashboard/items/<item>/edit]); an empty identifier gives
    a context without item. *)
Theorem item_address_round_trip (hostname item : string) (now : Z) :
  SeoContent.all_chars is_plain item = true →
  let config := detectEnvironment hostname in
  buildPageContext
    {| href := getItemUrl config item;
       pathname := "/dashboard/items/" +:+ item +:+ "/edit" |} now
  = {| url := getItemUrl config item;
       pageType := Factory.item_edit;
       itemId := if String.eqb item "" then None else Some item;
       timestamp := now |}.
Proof.
  intros Hplain config. pose proof (plain_no_slash item Hplain) as Hitem.
  unfold buildPageContext. cbn [href pathname].
  assert (Hpage : detectCurrentPage ("/dashboard/items/" +:+ item +:+ "/edit") = "item-edit").
  { unfold detectCurrentPage.
    replace (Factory.includes "/edit" _) with true
      by (symmetry; apply (includes_append "/edit" "/dashboard/items/"),
            (includes_append "/edit" item); reflexivity).
    done. }
  rewrite Hpage. change (detectPageType "item-edit") with Factory.item_edit.
  f_equal. cbn [extractItemId]. rewrite <- (match_items_at item Hitem).
  unfold config, detectEnvironment, getItemUrl.
  destruct (Factory.includes "squareup.com" hostname);
    [|destruct (Factory.includes "squareupsandbox.com" hostname)];
    cbn [baseUrl String.append];
    repeat (rewrite match_items_skip by reflexivity); reflexivity.
Qed.

(** *** Detections *)

Lemma calls_app (before after : list Event) :
  calls (before ++ after) = calls before ++ calls after.
Proof. apply flat_map_app. Qed.

Lemma hasContextChanged_timestamp (old : PageContext) (location : Location) (now now' : Z) :
  hasContextChanged old (buildPageContext location now')
  = hasContextChanged old (buildPageContext location now).
Proof. done. Qed.

Lemma built_same_location (location : Location) (now now' : Z) :
  hasContextChanged (buildPageContext location now) (buildPageContext location now') = false.
Proof.
  unfold hasContextChanged. cbn [url pageType itemId buildPageContext].
  rewrite String.eqb_refl. by rewrite !bool_decide_eq_false_2 by (by intros ?).
Qed.

Lemma built_consistent (location : Location) (now : Z) :
  consistent (buildPageContext location now).
Proof. done. Qed.

Section Facts.

Variable react : Observer → PageContext → list Observer → list Observer * bool.

Lemma notify_fold_calls (context : PageContext) (todo registered : list Observer)
    (trace : list Event) :
  calls (foldl (notify_one react context) (registered, trace) todo).2
  = calls trace ++ ((λ o, (o, context)) <$> todo).
Proof.
  revert registered trace. induction todo as [|o todo IH]; intros registered trace.
  - by rewrite app_nil_r.
  - cbn [foldl]. unfold notify_one at 2. cbn [fst snd].
    destruct (react o context registered) as [registered' threw].
    rewrite IH, calls_app, fmap_cons, <- app_assoc. f_equal. by destruct threw.
Qed.

Lemma notifyObservers_spec (context : PageContext) (s : PageDetectionService) :
  currentContext (notifyObservers react context s).1 = currentContext s
  ∧ calls (notifyObservers react context s).2 = (λ o, (o, context)) <$> observers s.
Proof.
  unfold notifyObservers.
  pose proof (notify_fold_calls context (observers s) (observers s) []) as Hcalls.
  destruct (foldl _ _ _) as [registered trace]. by split.
Qed.

Lemma announce_spec (newContext : PageContext) (s : PageDetectionService) :
  (is_news newContext s = true
   ∧ currentContext (announce react newContext s).1 = Some newContext
   ∧ calls (announce react newContext s).2 = (λ o, (o, newContext)) <$> observers s)
  ∨ (is_news newContext s = false ∧ announce react newContext s = (s, [])).
Proof.
  unfold announce. destruct (is_news newContext s); [left | by right].
  split; [done|].
  pose proof (notifyObservers_spec newContext
                {| observers := observers s; currentContext := Some newContext |})
    as [Hcontext Hcalls].
  destruct (notifyObservers _ _ _) as [s' trace]. by split.
Qed.

(** X24 — A context that differs from the stored one, or the first one, is
    stored and goes to every observer registered at that moment, once
    per registration and in the order of registration: neither an
    observer that throws nor one that registers or removes observers
    changes which calls are made. *)
Theorem change_reaches_every_observer (newContext : PageContext)
    (s : PageDetectionService) :
  is_news newContext s = true →
  currentContext (announce react newContext s).1 = Some newContext
  ∧ calls (announce react newContext s).2 = (λ o, (o, newContext)) <$> observers s.
Proof.
  intros Hnews. destruct (announce_spec newContext s) as [(_ & Hcontext & Hcalls)|[Hold _]];
    [done | congruence].
Qed.

(** X25 — Detecting twice at the same location announces at most once: the
    second detection calls no observer and leaves the service as it
    is, with the time of the first detection, whatever the time of the
    second. *)
Theorem same_location_is_announced_once
    (react' : Observer → PageContext → list Observer → list Observer * bool)
    (location : Location) (now now' : Z) (s : PageDetectionService) :
  let s1 := (detectPageChange react location now s).1 in
  detectPageChange react' location now' s1 = (s1, []).
Proof.
  intros s1. unfold detectPageChange in *.
  assert (Hold : is_news (buildPageContext location now') s1 = false).
  { unfold s1.
    destruct (announce_spec (buildPageContext location now) s)
      as [(_ & Hcontext & _)|[Hold ->]].
    - unfold is_news. rewrite Hcontext. apply built_same_location.
    - cbn [fst]. unfold is_news in *. destruct (currentContext s) as [old|]; [|done].
      by rewrite (hasContextChanged_timestamp old location now now'). }
  unfold announce. by rewrite Hold.
Qed.

(** X26 — The item of a context the service stores is the one its address
    and page type give, and detections keep it so; hence the
    comparison of the items never decides: a built context differs from
    the stored one exactly when the address or the page type does. *)
Theorem item_never_decides_a_change (location : Location) (now : Z)
    (s : PageDetectionService) :
  healthy s →
  healthy (detectPageChange react location now s).1
  ∧ (∀ old, currentContext s = Some old →
       is_news (buildPageContext location now) s
       = negb (String.eqb (url old) (href location))
         || bool_decide (pageType old
                         ≠ detectPageType (Environment.detectCurrentPage (pathname location)))).
Proof.
  intros Hhealthy. split.
  - unfold detectPageChange, healthy.
    destruct (announce_spec (buildPageContext location now) s)
      as [(_ & -> & _)|[_ ->]]; [apply built_consistent | exact Hhealthy].
  - intros old Hold. unfold healthy, is_news in *. rewrite Hold in *.
    unfold hasContextChanged. cbn [url pageType itemId buildPageContext].
    destruct (String.eqb_spec (url old) (href location)) as [Hurl|_]; [|done].
    cbn [negb orb].
    destruct (decide (pageType old
                      = detectPageType (Environment.detectCurrentPage (pathname location))))
      as [Htype|Htype].
    + rewrite (bool_decide_eq_false_2 (pageType old ≠ _)) by (by intros ?). cbn [orb].
      apply bool_decide_eq_false_2. intros Hitem. apply Hitem.
      rewrite Hhealthy. by rewrite Hurl, Htype.
    + by rewrite (bool_decide_eq_true_2 (pageType old ≠ _)).
Qed.

End Facts.

(** X27 — After [removeObserver], a detection calls the other observers
    as before and the removed callback not at all, however often it
    was registered. *)
Theorem removed_observer_is_not_called
    (react react' : Observer → PageContext → list Observer → list Observer * bool)
    (callback : Observer) (newContext : PageContext) (s : PageDetectionService) :
  calls (announce react' newContext (removeObserver callback s)).2
  = List.filter (λ call, negb (call.1 =? callback)) (calls (announce react newContext s).2)
  ∧ ∀ context,
      (callback, context) ∉ calls (announce react' newContext (removeObserver callback s)).2.
Proof.
  assert (Heq : calls (announce react' newContext (removeObserver callback s)).2
    = List.filter (λ call, negb (call.1 =? callback))
        (calls (announce react newContext s).2)).
  { assert (Hnews : is_news newContext (removeObserver callback s) = is_news newContext s)
      by done.
    destruct (announce_spec react newContext s) as [(Hnew & _ & ->)|[Hold ->]];
      destruct (announce_spec react' newContext (removeObserver callback s))
        as [(Hnew' & _ & ->)|[Hold' ->]]; try congruence; [|done].
    cbn [observers removeObserver]. clear.
    induction (observers s) as [|o l IH]; [done|].
    rewrite fmap_cons. cbn [List.filter fst]. destruct (o =? callback); [done|].
    cbn [negb]. by rewrite fmap_cons, IH. }
  split; [done|]. intros context. rewrite Heq.
  intros Hcall%list_elem_of_In%filter_In. destruct Hcall as [_ Hcall].
  cbn [fst] in Hcall. by rewrite Nat.eqb_refl in Hcall.
Qed.

Lemma item_address_round_trip_witness :
  SeoContent.all_chars is_plain "ABC123" = true
  ∧ buildPageContext
      {| href := getItemUrl (detectEnvironment "app.squareup.com") "ABC123";
         pathname := "/dashboard/items/ABC123/edit" |} 1000
    = {| url := "https://squareup.com/dashboard/items/ABC123/edit";
         pageType := Factory.item_edit;
         itemId := Some "ABC123";
         timestamp := 1000 |}.
Proof.
  assert (Hitem : SeoContent.all_chars is_plain "ABC123" = true) by reflexivity.
  split; [exact Hitem|].
  exact (item_address_round_trip "app.squareup.com" "ABC123" 1000 Hitem).
Defined.

Lemma change_reaches_every_observer_witness :
  let newContext := buildPageContext Inputs.editPage 1000 in
  is_news newContext Inputs.registered = true
  ∧ calls (announce Inputs.touchy newContext Inputs.registered).2
    = [(2, newContext); (1, newContext); (2, newContext)]
  ∧ observers (announce Inputs.touchy newContext Inputs.registered).1 = [2; 2].
Proof.
  intros newContext.
  assert (Hnews : is_news newContext Inputs.registered = true) by reflexivity.
  split; [exact Hnews|]. split; [|reflexivity].
  destruct (change_reaches_every_observer Inputs.touchy newContext Inputs.registered Hnews)
    as [_ Hcalls].
  etrans; [exact Hcalls|]. reflexivity.
Defined.

Lemma item_never_decides_a_change_witness :
  healthy Inputs.watching
  ∧ healthy (detectPageChange Inputs.touchy Inputs.libraryPage 2000 Inputs.watching).1
  ∧ is_news (buildPageContext Inputs.libraryPage 2000) Inputs.watching = true.
Proof.
  assert (Hhealthy : healthy Inputs.watching) by reflexivity.
  destruct (item_never_decides_a_change Inputs.touchy Inputs.libraryPage 2000
              Inputs.watching Hhealthy) as [Hkept Hnews].
  split; [exact Hhealthy|]. split; [exact Hkept|].
  etrans; [exact (Hnews _ eq_refl)|]. reflexivity.
Defined.

End PageDetectionProps.

(** * Properties of the coordinator and its agents *)

Module LifecycleProps.

Import Factory FactorySpec FactoryStatus.

Local Open Scope list_scope.
Local Open Scope nat_scope.

Section Facts.

Variable on_square_host : bool.
Variable constructs : AgentClass → bool.
Variable catalog_has_destroy : bool.

Local Abbreviation createAgent := (createAgent on_square_host constructs).
Local Abbreviation getAgent_body := (getAgent_body on_square_host constructs).
Local Abbreviation getAgent_fallback := (getAgent_fallback on_square_host constructs).
Local Abbreviation getAgent := (getAgent on_square_host constructs).
Local Abbreviation resolve := (resolve on_square_host constructs).
Local Abbreviation reachable := (reachable on_square_host constructs catalog_has_destroy).
Local Abbreviation well_kept := (well_kept on_square_host constructs).
Local Abbreviation served := (served on_square_host constructs).
Local Abbreviation initialize_one := (Lifecycle.initialize_one on_square_host constructs).
Local Abbreviation initializeEnhancedAgents :=
  (Lifecycle.initializeEnhancedAgents on_square_host constructs).
Local Abbreviation destroy := (Lifecycle.destroy catalog_has_destroy).

(** *** What a resolution leaves *)

Lemma getAgent_body_context
    (again : AgentType → AgentFactory → option AgentInstance * AgentFactory)
    (t : AgentType) (forceRecreate : bool) (f : AgentFactory) :
  (∀ t g, context (again t g).2 = context g) →
  context (getAgent_body again t forceRecreate f).2 = context f.
Proof.
  intros Hagain. unfold Factory.getAgent_body.
  destruct (lookup_ready _ _ _); [done|].
  destruct (createAgent t f) as [[a|] f'] eqn:Hcreate.
  - simpl. by destruct (FactoryProps.createAgent_creates _ _ t f f' a Hcreate)
      as (_ & _ & _ & _ & _ & _ & ?).
  - destruct (FactoryProps.createAgent_throws _ _ t f f' Hcreate) as [-> _].
    destruct (negb (is_mock t)); [apply Hagain | done].
Qed.

Lemma getAgent_context (t : AgentType) (forceRecreate : bool) (f : AgentFactory) :
  context (getAgent t forceRecreate f).2 = context f.
Proof.
  apply getAgent_body_context. intros t' g. by apply getAgent_body_context.
Qed.

Lemma getInstance_same (f : AgentFactory) :
  getInstance (context f) (Some f) = f.
Proof. by destruct f. Qed.

Lemma fallback_answers (t : AgentType) (f : AgentFactory) :
  is_mock t = true → is_Some (getAgent_fallback t f).1.
Proof.
  intros Hmock. unfold Factory.getAgent_fallback, Factory.getAgent_body.
  destruct (lookup_ready _ _ _); [by eexists|].
  destruct (createAgent t f) as [[a|] f'] eqn:Hcreate; [by eexists|].
  destruct (FactoryStatusProps.createAgent_none _ _ t f f' Hcreate) as [Hreal _].
  congruence.
Qed.

Lemma getAgent_answers (t : AgentType) (forceRecreate : bool) (f : AgentFactory) :
  is_Some (getAgent t forceRecreate f).1.
Proof.
  unfold Factory.getAgent, Factory.getAgent_body.
  destruct (lookup_ready _ _ _); [by eexists|].
  destruct (createAgent t f) as [[a|] f'] eqn:Hcreate; [by eexists|].
  destruct (FactoryStatusProps.createAgent_none _ _ t f f' Hcreate) as [Hreal _].
  rewrite Hreal. apply fallback_answers, FactoryProps.mock_of_is_mock.
Qed.

(** *** Asking again *)

(** The fallback answers again as it did, wherever the cache has kept
    the entry of its type. *)
Lemma fallback_repeat (t : AgentType) (g g2 : AgentFactory) :
  same_page g g2 →
  map_get (cacheKey t (context g)) (agents g2)
  = map_get (cacheKey t (context g)) (agents (getAgent_fallback t g).2) →
  map_has (cacheKey t (context g)) (agents g2)
  = map_has (cacheKey t (context g)) (agents (getAgent_fallback t g).2) →
  getAgent_fallback t g2 = ((getAgent_fallback t g).1, g2).
Proof.
  intros Hpage. unfold Factory.getAgent_fallback, Factory.getAgent_body.
  rewrite (FactoryProps.cacheKey_same_page t g g2 Hpage).
  set (key := cacheKey t (context g)).
  destruct (lookup_ready key false g) as [cached|] eqn:Hhit.
  - cbn [fst snd]. intros Hget Hhas.
    by rewrite (FactoryProps.lookup_ready_agree key g g2 Hget Hhas), Hhit.
  - destruct (createAgent t g) as [[a|] f'] eqn:Hcreate.
    + cbn [fst snd agents].
      destruct (FactoryProps.createAgent_creates _ _ t g f' a Hcreate) as (Hready & _).
      destruct (FactoryProps.map_set_get_eq key a (agents f')) as [-> ->].
      intros Hget Hhas. unfold lookup_ready. by rewrite Hhas, Hget, Hready.
    + destruct (FactoryProps.createAgent_throws _ _ t g f' Hcreate) as [-> Hthrows].
      assert (Hnone : (if negb (is_mock t) then (None, g) else (None, g))
                      = (None : option AgentInstance, g)) by (by destruct (is_mock t)).
      rewrite Hnone. cbn [fst snd]. intros Hget Hhas.
      rewrite (FactoryProps.lookup_ready_agree key g g2 Hget Hhas), Hhit.
      rewrite (Hthrows g2 Hpage). by destruct (is_mock t).
Qed.

(** The fallback touches the entry of its type only. *)
Lemma fallback_frame (t : AgentType) (g : AgentFactory) (key : string) :
  key ≠ cacheKey (mock_of t) (context g) →
  map_get key (agents (getAgent_fallback (mock_of t) g).2) = map_get key (agents g)
  ∧ map_has key (agents (getAgent_fallback (mock_of t) g).2) = map_has key (agents g).
Proof.
  intros Hne.
  destruct (FactoryProps.getAgent_body_stable on_square_host constructs _
              FactoryProps.stable_none (mock_of t) g) as (_ & _ & Hframe).
  apply Hframe; [done|]. by replace (mock_of (mock_of t)) with (mock_of t) by (by destruct t).
Qed.

(** [getAgent] answers again as it did, wherever the cache has kept the
    entries of the type and of its mock. *)
Lemma getAgent_repeat (t : AgentType) (g g2 : AgentFactory) :
  same_page g g2 →
  (∀ t', t' = t ∨ t' = mock_of t →
     map_get (cacheKey t' (context g)) (agents g2)
     = map_get (cacheKey t' (context g)) (agents (getAgent t false g).2)
     ∧ map_has (cacheKey t' (context g)) (agents g2)
       = map_has (cacheKey t' (context g)) (agents (getAgent t false g).2)) →
  getAgent t false g2 = ((getAgent t false g).1, g2).
Proof.
  intros Hpage. unfold Factory.getAgent, Factory.getAgent_body.
  rewrite (FactoryProps.cacheKey_same_page t g g2 Hpage).
  set (key := cacheKey t (context g)).
  destruct (lookup_ready key false g) as [cached|] eqn:Hhit.
  - cbn [fst snd]. intros Hagree. destruct (Hagree t (or_introl eq_refl)) as [Hget Hhas].
    by rewrite (FactoryProps.lookup_ready_agree key g g2 Hget Hhas), Hhit.
  - destruct (createAgent t g) as [[a|] f'] eqn:Hcreate.
    + cbn [fst snd agents]. intros Hagree.
      destruct (Hagree t (or_introl eq_refl)) as [Hget Hhas]. fold key in Hget, Hhas.
      destruct (FactoryProps.createAgent_creates _ _ t g f' a Hcreate) as (Hready & _).
      destruct (FactoryProps.map_set_get_eq key a (agents f')) as [Hget' Hhas'].
      rewrite Hget' in Hget. rewrite Hhas' in Hhas.
      unfold lookup_ready. by rewrite Hhas, Hget, Hready.
    + destruct (FactoryProps.createAgent_throws _ _ t g f' Hcreate) as [-> Hthrows].
      destruct (FactoryStatusProps.createAgent_none _ _ t g g Hcreate) as [Hreal _].
      rewrite Hreal. cbn [negb]. intros Hagree.
      destruct (Hagree t (or_introl eq_refl)) as [Hget Hhas]. fold key in Hget, Hhas.
      destruct (fallback_frame t g key) as [Hget0 Hhas0];
        [by apply FactoryProps.cacheKey_mock|].
      rewrite Hget0 in Hget. rewrite Hhas0 in Hhas.
      rewrite (FactoryProps.lookup_ready_agree key g g2 Hget Hhas), Hhit.
      rewrite (Hthrows g2 Hpage).
      apply fallback_repeat; [done | |]; by apply (Hagree (mock_of t) (or_intror eq_refl)).
Qed.

(** [getAgent] touches the entries of the type and of its mock only. *)
Lemma getAgent_frame (t t' : AgentType) (g : AgentFactory) :
  t' ≠ t → t' ≠ mock_of t →
  map_get (cacheKey t' (context g)) (agents (getAgent t false g).2)
  = map_get (cacheKey t' (context g)) (agents g)
  ∧ map_has (cacheKey t' (context g)) (agents (getAgent t false g).2)
    = map_has (cacheKey t' (context g)) (agents g).
Proof.
  intros Hne Hne'.
  destruct (FactoryProps.getAgent_stable on_square_host constructs t g) as (_ & _ & Hframe).
  apply Hframe; unfold cacheKey; intros Heq;
    by destruct (FactoryStatusProps.key_injective _ _ _ _ Heq).
Qed.

(** *** The three resolutions *)

Lemma getInstance_context (ctx : AgentContext) (single : option AgentFactory) :
  context (getInstance ctx single) = ctx.
Proof. by destruct single. Qed.

Lemma getInstance_again (ctx : AgentContext) (f : AgentFactory) :
  context f = ctx → getInstance ctx (Some f) = f.
Proof. intros <-. apply getInstance_same. Qed.

Lemma initialize_one_spec (c : Lifecycle.Coordinator) (t : AgentType) (f : AgentFactory)
    (inst : AgentInstance) :
  context f = Lifecycle.context c →
  (getAgent t false f).1 = Some inst →
  initialize_one (c, Some f) t
  = ({| Lifecycle.agents := map_set (type_name t) (instance inst) (Lifecycle.agents c);
        Lifecycle.context := Lifecycle.context c;
        Lifecycle.isInitialized := Lifecycle.isInitialized c |},
     Some (getAgent t false f).2).
Proof.
  intros Hctx Hinst. unfold Lifecycle.initialize_one, Factory.resolve. cbn [fst snd].
  rewrite (getInstance_again _ f Hctx).
  destruct (getAgent t false f) as [answer f'] eqn:Hget. cbn [fst snd] in *.
  by rewrite Hinst.
Qed.

Lemma initializeEnhancedAgents_spec (c : Lifecycle.Coordinator) (g0 : AgentFactory) :
  context g0 = Lifecycle.context c →
  let r1 := getAgent seo false g0 in
  let r2 := getAgent navigation false r1.2 in
  let r3 := getAgent catalog false r2.2 in
  ∃ i1 i2 i3,
    r1.1 = Some i1 ∧ r2.1 = Some i2 ∧ r3.1 = Some i3
    ∧ initializeEnhancedAgents c (Some g0)
      = ({| Lifecycle.agents :=
              map_set "catalog" (instance i3)
                (map_set "navigation" (instance i2)
                   (map_set "seo" (instance i1) (Lifecycle.agents c)));
            Lifecycle.context := Lifecycle.context c;
            Lifecycle.isInitialized := Lifecycle.isInitialized c |},
         Some r3.2).
Proof.
  intros Hctx r1 r2 r3.
  destruct (getAgent_answers seo false g0) as [i1 H1].
  destruct (getAgent_answers navigation false r1.2) as [i2 H2].
  destruct (getAgent_answers catalog false r2.2) as [i3 H3].
  exists i1, i2, i3. conjs; [done | done | done |].
  unfold Lifecycle.initializeEnhancedAgents. cbn [foldl].
  rewrite (initialize_one_spec c seo g0 i1 Hctx H1).
  rewrite (initialize_one_spec _ navigation _ i2); [| |exact H2];
    [|by rewrite getAgent_context].
  rewrite (initialize_one_spec _ catalog _ i3); [| |exact H3];
    [|by rewrite !getAgent_context].
  done.
Qed.

Lemma initializeEnhancedAgents_static (c : Lifecycle.Coordinator)
    (single : option AgentFactory) :
  initializeEnhancedAgents c single
  = initializeEnhancedAgents c (Some (getInstance (Lifecycle.context c) single)).
Proof.
  unfold Lifecycle.initializeEnhancedAgents. cbn [foldl]. f_equal.
  unfold Lifecycle.initialize_one, Factory.resolve. cbn [fst snd].
  by rewrite (getInstance_again _ (getInstance (Lifecycle.context c) single))
    by apply getInstance_context.
Qed.

(** After the three resolutions, each of them answers as it did and
    leaves the registry as it is. *)
Lemma second_round (g0 : AgentFactory) :
  let r1 := getAgent seo false g0 in
  let r2 := getAgent navigation false r1.2 in
  let r3 := getAgent catalog false r2.2 in
  getAgent seo false r3.2 = (r1.1, r3.2)
  ∧ getAgent navigation false r3.2 = (r2.1, r3.2)
  ∧ getAgent catalog false r3.2 = (r3.1, r3.2).
Proof.
  intros r1 r2 r3.
  assert (H1 : context r1.2 = context g0) by apply getAgent_context.
  assert (H2 : context r2.2 = context g0) by (unfold r2; by rewrite getAgent_context).
  assert (H3 : context r3.2 = context g0) by (unfold r3; by rewrite getAgent_context).
  pose proof (getAgent_frame navigation) as Hnav.
  pose proof (getAgent_frame catalog) as Hcat.
  conjs.
  - apply getAgent_repeat; [unfold same_page; by rewrite H3|].
    intros t' Ht'. fold r1.
    destruct (Hcat t' r2.2) as [Hget3 Hhas3]; [by destruct Ht' as [->| ->]..|].
    destruct (Hnav t' r1.2) as [Hget2 Hhas2]; [by destruct Ht' as [->| ->]..|].
    fold r2 in Hget2, Hhas2, Hget3, Hhas3. fold r3 in Hget3, Hhas3.
    rewrite H2 in Hget3, Hhas3. rewrite H1 in Hget2, Hhas2.
    split; congruence.
  - apply getAgent_repeat; [unfold same_page; by rewrite H3, H1|].
    intros t' Ht'. fold r2.
    destruct (Hcat t' r2.2) as [Hget3 Hhas3]; [by destruct Ht' as [->| ->]..|].
    fold r3 in Hget3, Hhas3. rewrite H2 in Hget3, Hhas3. rewrite H1. by split.
  - apply getAgent_repeat; [unfold same_page; by rewrite H3, H2|].
    intros t' Ht'. by fold r3.
Qed.

Lemma map_get_three {A : Type} (name : string) (a b c : A) (m : list (string * A)) :
  name ∈ ["seo"; "navigation"; "catalog"] →
  map_get name (map_set "catalog" c (map_set "navigation" b (map_set "seo" a m)))
  = Some (if String.eqb name "seo" then a
          else if String.eqb name "navigation" then b else c).
Proof.
  intros Hname. repeat (apply elem_of_cons in Hname as [->|Hname]);
    [| | | by apply elem_of_nil in Hname]; cbn [String.eqb Ascii.eqb Bool.eqb].
  - destruct (FactoryProps.map_set_get_ne "catalog" "seo" c
                (map_set "navigation" b (map_set "seo" a m))) as [-> _]; [done|].
    destruct (FactoryProps.map_set_get_ne "navigation" "seo" b (map_set "seo" a m))
      as [-> _]; [done|].
    apply FactoryProps.map_set_get_eq.
  - destruct (FactoryProps.map_set_get_ne "catalog" "navigation" c
                (map_set "navigation" b (map_set "seo" a m))) as [-> _]; [done|].
    apply FactoryProps.map_set_get_eq.
  - apply FactoryProps.map_set_get_eq.
Qed.

(** X28 — [destroy()] of the coordinator calls [destroy] on its agents and
    forgets them, but the registry keeps them in its cache: when the
    coordinator initialises its agents again on the same page, nothing
    is constructed and the three names get the very objects that were
    destroyed. *)
Theorem destroyed_agents_are_handed_out_again (c : Lifecycle.Coordinator)
    (single : option AgentFactory) :
  let first := initializeEnhancedAgents c single in
  let gone := destroy first.1 in
  let second := initializeEnhancedAgents gone.1 first.2 in
  Lifecycle.agents gone.1 = []
  ∧ (∀ name object, (name, object) ∈ Lifecycle.agents first.1 →
       has_destroy catalog_has_destroy (class object) = true →
       Destroyed (oid object) ∈ gone.2)
  ∧ second.2 = first.2
  ∧ (∀ name, name ∈ ["seo"; "navigation"; "catalog"] →
       is_Some (map_get name (Lifecycle.agents first.1))
       ∧ map_get name (Lifecycle.agents second.1)
         = map_get name (Lifecycle.agents first.1)).
Proof.
  intros first gone second. split; [done|]. split.
  - intros name object Hin Hdestroy. unfold gone, Lifecycle.destroy. cbn [snd].
    apply list_elem_of_In, in_flat_map. exists (name, object).
    split; [by apply list_elem_of_In|]. cbn [snd]. rewrite Hdestroy. by left.
  - set (g0 := getInstance (Lifecycle.context c) single).
    assert (Hctx : context g0 = Lifecycle.context c) by apply getInstance_context.
    destruct (initializeEnhancedAgents_spec c g0 Hctx) as (i1 & i2 & i3 & H1 & H2 & H3 & Hfirst).
    destruct (second_round g0) as (R1 & R2 & R3).
    set (r1 := getAgent seo false g0) in *.
    set (r2 := getAgent navigation false r1.2) in *.
    set (r3 := getAgent catalog false r2.2) in *.
    assert (Hfirst' : first = initializeEnhancedAgents c (Some g0))
      by apply initializeEnhancedAgents_static.
    rewrite Hfirst in Hfirst'.
    assert (Hctx3 : context r3.2 = Lifecycle.context gone.1).
    { unfold gone, r3, r2, r1. rewrite Hfirst'. cbn [fst Lifecycle.destroy Lifecycle.context].
      by rewrite !getAgent_context. }
    destruct (initializeEnhancedAgents_spec gone.1 r3.2 Hctx3)
      as (j1 & j2 & j3 & J1 & J2 & J3 & Hsecond).
    rewrite R1 in J1, J2, J3, Hsecond. cbn [fst snd] in J1, J2, J3, Hsecond.
    rewrite R2 in J2, J3, Hsecond. cbn [fst snd] in J2, J3, Hsecond.
    rewrite R3 in J3, Hsecond. cbn [fst snd] in J3, Hsecond.
    assert (j1 = i1 ∧ j2 = i2 ∧ j3 = i3) as (-> & -> & ->) by (split_and!; congruence).
    assert (Hsecond' : second = initializeEnhancedAgents gone.1 (Some r3.2)).
    { unfold second. by rewrite Hfirst'. }
    rewrite Hsecond in Hsecond'.
    split; [by rewrite Hsecond', Hfirst'|].
    intros name Hname. rewrite Hsecond', Hfirst'. cbn [fst Lifecycle.agents].
    rewrite !(map_get_three name) by done. split; [by eexists | done].
Qed.

(** *** What the status says *)

Lemma served_class (t : AgentType) (f : AgentFactory) (inst : AgentInstance) :
  well_kept f →
  (getAgent t false f).1 = Some inst →
  class (instance inst) = class_of (served t f).
Proof.
  intros Hf Hinst.
  destruct (FactoryStatusProps.getAgent_serves on_square_host constructs t false f Hf)
    as (inst' & Hinst' & Htype).
  assert (inst' = inst) as -> by congruence.
  destruct (FactoryStatusProps.getAgent_result_cached on_square_host constructs
              t false f inst Hinst) as [key Hin].
  destruct (FactoryStatusProps.getAgent_well_kept on_square_host constructs t false f Hf)
    as (_ & _ & Hall).
  destruct (Hall key inst Hin) as (_ & _ & _ & Hclass & _). by rewrite Hclass, Htype.
Qed.

Lemma served_context (t : AgentType) (f f' : AgentFactory) :
  context f' = context f → served t f' = served t f.
Proof. unfold FactoryStatus.served. by intros ->. Qed.

(** X29 — A coordinator that initialises its agents always ends with the
    three names [seo], [navigation] and [catalog], and its status
    flags each of them enhanced and ready; the object under a name is
    of the class of the agent type when that type is valid for the page
    and its constructor completes, and of the class of its mock
    otherwise: the status does not tell a mock from an enhanced
    agent. *)
Theorem status_reports_mocks_as_enhanced (ctx : AgentContext)
    (single : option AgentFactory) :
  match single with Some f => reachable f | None => True end →
  let c := (initializeEnhancedAgents (Lifecycle.new_coordinator ctx) single).1 in
  Lifecycle.getAvailableAgents c = ["seo"; "navigation"; "catalog"]
  ∧ (∀ name status,
       (name, status) ∈ Lifecycle.status_agents (Lifecycle.getEnhancedAgentStatus c) →
       Lifecycle.enhanced status = true ∧ Lifecycle.ready status = true)
  ∧ (∀ t, t ∈ [seo; navigation; catalog] →
       ∃ object,
         map_get (type_name t) (Lifecycle.agents c) = Some object
         ∧ class object = class_of (served t (new_factory ctx))).
Proof.
  intros Hsingle c.
  set (g0 := getInstance ctx single).
  assert (Hctx : context g0 = ctx) by apply getInstance_context.
  assert (Hg0 : well_kept g0).
  { apply (FactoryStatusProps.reachable_well_kept on_square_host constructs
             catalog_has_destroy).
    unfold g0. destruct single as [f|]; [by apply reach_getInstance | apply reach_new]. }
  destruct (initializeEnhancedAgents_spec (Lifecycle.new_coordinator ctx) g0 Hctx)
    as (i1 & i2 & i3 & H1 & H2 & H3 & Hinit).
  set (r1 := getAgent seo false g0) in *.
  set (r2 := getAgent navigation false r1.2) in *.
  set (r3 := getAgent catalog false r2.2) in *.
  assert (Hg1 : well_kept r1.2) by (by apply FactoryStatusProps.getAgent_well_kept).
  assert (Hg2 : well_kept r2.2) by (by apply FactoryStatusProps.getAgent_well_kept).
  assert (Hc : c = (initializeEnhancedAgents (Lifecycle.new_coordinator ctx) (Some g0)).1).
  { unfold c. by rewrite (initializeEnhancedAgents_static (Lifecycle.new_coordinator ctx)). }
  rewrite Hinit in Hc. cbn [fst Lifecycle.new_coordinator Lifecycle.agents] in Hc.
  assert (Hagents : Lifecycle.agents c
                    = [("seo", instance i1); ("navigation", instance i2);
                       ("catalog", instance i3)]) by (by rewrite Hc).
  conjs.
  - unfold Lifecycle.getAvailableAgents. by rewrite Hagents.
  - intros name status. unfold Lifecycle.getEnhancedAgentStatus.
    cbn [Lifecycle.status_agents]. rewrite Hagents.
    intros Hin. repeat (apply elem_of_cons in Hin as [[= -> ->]|Hin]); [done..|].
    by apply elem_of_nil in Hin.
  - intros t Ht. rewrite Hagents.
    assert (Hserved : ∀ f, context f = ctx → served t f = served t (new_factory ctx))
      by (intros f Hf; by apply served_context).
    repeat (apply elem_of_cons in Ht as [->|Ht]); [| | | by apply elem_of_nil in Ht].
    + exists (instance i1). split; [done|].
      rewrite <- (Hserved g0 Hctx). by apply served_class.
    + exists (instance i2). split; [done|].
      rewrite <- (Hserved r1.2) by (unfold r1; by rewrite getAgent_context).
      by apply served_class.
    + exists (instance i3). split; [done|].
      rewrite <- (Hserved r2.2) by (unfold r2, r1; by rewrite !getAgent_context).
      by apply served_class.
Qed.

End Facts.

(** On the dashboard of a Square host the SEO agent is not valid: the
    coordinator holds its mock, and the status says enhanced. *)
Lemma status_reports_mocks_as_enhanced_witness :
  let c := (Lifecycle.initializeEnhancedAgents true (λ _, true)
              (Lifecycle.new_coordinator Samples.onDashboard) None).1 in
  class <$> map_get "seo" (Lifecycle.agents c) = Some MockSEOAgent
  ∧ Lifecycle.enhanced <$> map_get "seo" (Lifecycle.status_agents
                                            (Lifecycle.getEnhancedAgentStatus c))
    = Some true.
Proof.
  intros c.
  destruct (status_reports_mocks_as_enhanced true (λ _, true) true
              Samples.onDashboard None I) as (_ & _ & Hclass).
  destruct (Hclass seo) as (object & Hget & Hobject); [apply list_elem_of_here|].
  split; [|reflexivity].
  change (class <$> map_get (type_name seo) (Lifecycle.agents c) = Some MockSEOAgent).
  unfold c. rewrite Hget. cbn [fmap option_fmap option_map]. rewrite Hobject. reflexivity.
Defined.

End LifecycleProps.
